(** * good_pics_export: a model of the slideshow exporter and its properties

    The development follows [good_pics_export.py]: destination naming
    ([get_dest_filenames]), the in-place downscaling ([shrink_large]), the
    copy/resize loop ([copy_and_resize]), the option parser ([parse_args]),
    the catalog listing ([get_pic_filenames]) and [main].

    Python values are embedded shallowly:
    - [int] is [Z]; the loop counters, which only ever grow from zero, are [nat];
    - [float] is IEEE-754 binary64, through the Standard Library's
      [SpecFloat] operations at precision 53 and maximal exponent 1024;
    - [str] is [string]; case mapping is the ASCII one;
    - exceptions are the constructors of [exn], and a computation that can
      raise returns a [result];
    - the file system is a finite map from POSIX path strings to nodes;
    - the image codec is Pillow's: a stored picture carries how the codec
      answers when it is loaded and written back, so that [resize] and
      [save] can raise as they do there, and a failed [save] leaves the
      file as the codec left it;
    - [parse_args] is [argparse]'s parser as CPython 3.11 implements it,
      for the options this script declares: names, unique abbreviations,
      [--option=value], and the usage errors.

    Console output (the progress line and the error messages) is not part of
    the model. *)

From stdpp Require Import gmap strings list.
From Stdlib Require Import ZArith QArith Qpower Lia Lqa SpecFloat Ascii.
From Stdlib Require DecimalString DecimalN.

Close Scope Q_scope.

(** * Part I: the model *)

(** ** Exceptions and results *)

Inductive exn : Type :=
  | FileNotFoundError
  | FileExistsError
  | IsADirectoryError
  | NotADirectoryError
  | UnidentifiedImageError
  | OSError
  | TypeError
  | ZeroDivisionError
  | OverflowError
  | ValueError
  | KeyError.

(** [except OSError] catches [OSError] and its subclasses. *)
Definition is_OSError (e : exn) : bool :=
  match e with
  | FileNotFoundError | FileExistsError | IsADirectoryError
  | NotADirectoryError | UnidentifiedImageError | OSError => true
  | TypeError | ZeroDivisionError | OverflowError | ValueError | KeyError => false
  end.

Inductive result (A : Type) : Type :=
  | Ok (a : A)
  | Raise (e : exn).
Global Arguments Ok {A} a.
Global Arguments Raise {A} e.

Global Instance result_ret : MRet result := λ A a, Ok a.
Global Instance result_bind : MBind result := λ A B f m,
  match m with
  | Ok a => f a
  | Raise e => Raise e
  end.

(** Dynamically typed option values: [argparse] yields the integer default,
    the string given on the command line or, for the text [--] attached
    with [=], an empty list. *)
Inductive pyval : Type :=
  | PyInt (n : Z)
  | PyStr (s : string)
  | PyEmptyList.

(** [a > b] for an [int] left operand. *)
Definition py_gt (a : Z) (b : pyval) : result bool :=
  match b with
  | PyInt n => Ok (n <? a)%Z
  | PyStr _ | PyEmptyList => Raise TypeError
  end.

(** [a // b] for an [int] left operand; [Z.div] is the floor division. *)
Definition py_floordiv (a : Z) (b : pyval) : result Z :=
  match b with
  | PyInt 0 => Raise ZeroDivisionError
  | PyInt n => Ok (a / n)%Z
  | PyStr _ | PyEmptyList => Raise TypeError
  end.

(** ** Strings *)

Fixpoint all_chars (p : ascii → bool) (s : string) : bool :=
  match s with
  | EmptyString => true
  | String c s' => p c && all_chars p s'
  end.

Definition is_slash (c : ascii) : bool := bool_decide (c = "/"%char).
Definition no_slash (c : ascii) : bool := negb (is_slash c).

Definition in_range (lo hi : N) (c : ascii) : bool :=
  ((lo <=? N_of_ascii c) && (N_of_ascii c <=? hi))%N.

Definition is_upper : ascii → bool := in_range 65 90.
Definition is_lower : ascii → bool := in_range 97 122.
Definition is_digit : ascii → bool := in_range 48 57.

Definition lower_char (c : ascii) : ascii :=
  if is_upper c then ascii_of_N (N_of_ascii c + 32) else c.

(** [str.lower()] *)
Fixpoint lower (s : string) : string :=
  match s with
  | EmptyString => EmptyString
  | String c s' => String (lower_char c) (lower s')
  end.

(** [sep.join(l)] *)
Fixpoint join (sep : string) (l : list string) : string :=
  match l with
  | [] => ""
  | [x] => x
  | x :: rest => x +:+ sep +:+ join sep rest
  end.

(** [s.split("/")]: never empty, [""] splits into one empty field. *)
Fixpoint split_slash (s : string) : list string :=
  match s with
  | EmptyString => [""]
  | String c s' =>
      if is_slash c then "" :: split_slash s'
      else match split_slash s' with
           | w :: ws => String c w :: ws
           | [] => [String c ""]
           end
  end.

(** [s.lstrip("/")] *)
Fixpoint lstrip_slash (s : string) : string :=
  match s with
  | EmptyString => ""
  | String c s' => if is_slash c then lstrip_slash s' else s
  end.

(** [s[:n]] *)
Fixpoint take_str (n : nat) (s : string) : string :=
  match n, s with
  | S n', String c s' => String c (take_str n' s')
  | _, _ => ""
  end.

(** Decimal digits of a natural number, as [str(n)] prints them. *)
Definition decimal (n : N) : string :=
  DecimalString.NilZero.string_of_uint (N.to_uint n).

(** [f"{n:02}"]: sign-aware zero padding to width two. *)
Definition format_02 (n : Z) : string :=
  match n with
  | Zneg p => "-" +:+ decimal (Npos p)
  | _ => let s := decimal (Z.to_N n) in
         if (String.length s <? 2)%nat then "0" +:+ s else s
  end.

(** ** Pure POSIX paths, after [pathlib] *)

Record Path : Type := mkPath { root : string; comps : list string }.

Global Instance Path_eq_dec : EqDecision Path.
Proof. solve_decision. Defined.

(** [splitroot]: exactly two leading slashes are kept as the root ["//"]. *)
Definition splitroot (part : string) : string * string :=
  match part with
  | String c _ =>
      if is_slash c then
        let stripped := lstrip_slash part in
        if (String.length part - String.length stripped =? 2)%nat
        then ("//", stripped) else ("/", stripped)
      else ("", part)
  | EmptyString => ("", part)
  end.

Definition keep_component (x : string) : bool :=
  negb (bool_decide (x = "")) && negb (bool_decide (x = ".")).

(** [parse_parts]: arguments are read from the right and an absolute
    argument discards the ones before it. *)
Fixpoint parse_parts (args : list string) : Path :=
  match args with
  | [] => mkPath "" []
  | part :: rest =>
      let p := parse_parts rest in
      if bool_decide (root p = "") then
        let '(r, rel) := splitroot part in
        mkPath r (filter (λ x, keep_component x = true) (split_slash rel) ++ comps p)
      else p
  end.

(** [Path.parts] *)
Definition parts (p : Path) : list string :=
  if bool_decide (root p = "") then comps p else root p :: comps p.

(** [Path(s)] and [Path(p, s)] *)
Definition Path_of (s : string) : Path := parse_parts [s].
Definition Path_join (p : Path) (s : string) : Path := parse_parts (parts p ++ [s]).

(** [Path.as_posix()] *)
Definition as_posix (p : Path) : string :=
  let s := root p +:+ join "/" (comps p) in
  if bool_decide (s = "") then "." else s.

(** [Path.name] *)
Definition name (p : Path) : string := List.last (comps p) "".

(** The tail of [s] that starts at its last dot, when it has one. *)
Fixpoint from_last_dot (s : string) : option string :=
  match s with
  | EmptyString => None
  | String c s' =>
      match from_last_dot s' with
      | Some t => Some t
      | None => if bool_decide (c = "."%char) then Some s else None
      end
  end.

(** [Path.suffix]: with [i = name.rfind(".")], the slice [name[i:]] when
    [0 < i < len(name) - 1], and the empty string otherwise. *)
Definition suffix (p : Path) : string :=
  match from_last_dot (name p) with
  | Some t =>
      if ((String.length t <? String.length (name p))
          && (1 <? String.length t))%nat
      then t else ""
  | None => ""
  end.

(** [Path.stem] *)
Definition stem (p : Path) : string :=
  take_str (String.length (name p) - String.length (suffix p)) (name p).

(** [Path.parent] *)
Definition parent (p : Path) : Path :=
  mkPath (root p) (removelast (comps p)).

(** [t[-4:-1]] *)
Definition slice_m4_m1 {A} (t : list A) : list A :=
  removelast (drop (length t - 4) t).

(** ** The slug transform *)

(** Modelled from the spec: the external [slugify.slugify] function, which is
    not part of the sources. Section 6 describes it as "text to
    filesystem-safe token (lowercase, ASCII-transliterated,
    separator-normalized)": letters are lowercased, letters and digits are
    kept, every run of other characters becomes a single hyphen, and no
    hyphen is left at either end. Characters outside ASCII count as
    separators here. *)
Fixpoint slugify_go (s : string) (emitted pending : bool) : string :=
  match s with
  | EmptyString => ""
  | String c s' =>
      let c' := lower_char c in
      if is_lower c' || is_digit c' then
        if emitted && pending
        then String "-" (String c' (slugify_go s' true false))
        else String c' (slugify_go s' true false)
      else slugify_go s' emitted true
  end.

Definition slugify_model (s : string) : string := slugify_go s false false.

(** The alphabet of a slug, and the characters accepted in a file name. *)
Definition slug_char (c : ascii) : bool :=
  is_lower c || is_digit c || bool_decide (c = "-"%char) || bool_decide (c = "_"%char).

Definition safe_char (c : ascii) : bool :=
  slug_char c || bool_decide (c = "."%char).

(** ** The file system and the image codec *)

(** What the codec does with a picture that is resized and written back
    under its own name. [Image.open] reads the header only; [resize] decodes
    the pixel data, and [save] takes the encoder from the lowercased
    extension, which the export never changes. Which pictures load and
    which encoder accepts them is the codec's business, so a picture
    carries the answer:
    - [Rewrites]: it is decoded, resized and encoded;
    - [LoadRaises e]: decoding the pixel data raises [e];
    - [SaveRaises e]: [save] raises [e] before it opens the destination: a
      [ValueError] when the extension names no format, a [KeyError] when
      the format has no writer;
    - [EncoderRaises e]: the encoder raises [e] after [save] has opened
      the destination for writing, an [OSError] when it cannot write the
      picture's mode. *)
Inductive codec_response : Type :=
  | Rewrites
  | LoadRaises (e : exn)
  | SaveRaises (e : exn)
  | EncoderRaises (e : exn).

Record image : Type := Image { width : Z; height : Z; codec : codec_response }.

(** A picture that the codec rewrites. *)
Abbreviation mkImage w h := (Image w h Rewrites).

(** A regular file either opens as an image of some size or is not
    identified as an image at all. Files that [Image.open] refuses for
    their size (above twice [MAX_IMAGE_PIXELS]) are not represented. *)
Inductive content : Type :=
  | Pixels (img : image)
  | Undecodable.

Inductive node : Type :=
  | Dir
  | File (c : content).

Abbreviation filesystem := (gmap string node).

(** [Path.exists()], [Path.is_dir()] *)
Definition path_exists (fs : filesystem) (p : Path) : bool :=
  match fs !! as_posix p with
  | Some _ => true
  | None => false
  end.

Definition is_dir (fs : filesystem) (p : Path) : bool :=
  match fs !! as_posix p with
  | Some Dir => true
  | _ => false
  end.

(** [Path.mkdir()]: a single level, failing on an existing path. *)
Definition mkdir (fs : filesystem) (p : Path) : result filesystem :=
  match fs !! as_posix p with
  | Some _ => Raise FileExistsError
  | None =>
      match fs !! as_posix (parent p) with
      | Some Dir => Ok (<[as_posix p := Dir]> fs)
      | Some (File _) => Raise NotADirectoryError
      | None => Raise FileNotFoundError
      end
  end.

(** [orig.copy(dest)], called only for a [dest] that does not exist: the
    source is opened for reading, then the destination for writing. *)
Definition copy (fs : filesystem) (orig dest : Path) : result filesystem :=
  match fs !! as_posix orig with
  | None => Raise FileNotFoundError
  | Some Dir => Raise IsADirectoryError
  | Some (File c) =>
      match fs !! as_posix (parent dest) with
      | Some Dir => Ok (<[as_posix dest := File c]> fs)
      | Some (File _) => Raise NotADirectoryError
      | None => Raise FileNotFoundError
      end
  end.

(** [Image.open(path)] *)
Definition Image_open (fs : filesystem) (p : Path) : result image :=
  match fs !! as_posix p with
  | None => Raise FileNotFoundError
  | Some Dir => Raise IsADirectoryError
  | Some (File Undecodable) => Raise UnidentifiedImageError
  | Some (File (Pixels img)) => Ok img
  end.

(** [img.resize(new_size)]: the pixel data is loaded first; a requested
    side below 1 is refused with a [ValueError]. The result has exactly the
    requested dimensions and the mode of the original. *)
Definition resize (img : image) (new_size : Z * Z) : result image :=
  match codec img with
  | LoadRaises e => Raise e
  | _ =>
      if (0 <? fst new_size)%Z && (0 <? snd new_size)%Z
      then Ok (Image (fst new_size) (snd new_size) (codec img))
      else Raise ValueError
  end.

(** [out.save(path)], called only for the path of the file that was just
    opened. The format and its writer are looked up first; then the file
    is opened for writing, which empties it, and the encoder runs. When the
    encoder raises, the file stays as it is then: empty. The file system
    is returned in either case. (A picture whose pixel data does not load
    never gets here: [resize] has raised.) *)
Definition save (fs : filesystem) (p : Path) (img : image)
    : filesystem * result unit :=
  match codec img with
  | Rewrites => (<[as_posix p := File (Pixels img)]> fs, Ok tt)
  | LoadRaises e | SaveRaises e => (fs, Raise e)
  | EncoderRaises e => (<[as_posix p := File Undecodable]> fs, Raise e)
  end.

(** ** Binary64 arithmetic *)

Definition prec : Z := 53.
Definition emax : Z := 1024.
Abbreviation float := spec_float.

(** [float(n)]: nearest double, [OverflowError] beyond the largest one. *)
Definition float_of_int (n : Z) : result float :=
  match binary_normalize prec emax n 0 false with
  | S754_infinity _ => Raise OverflowError
  | f => Ok f
  end.

(** [a / b] on two [int]s: the correctly rounded quotient. *)
Definition int_truediv (a b : Z) : result float :=
  match a, b with
  | _, Z0 => Raise ZeroDivisionError
  | Z0, _ => Ok (S754_zero (b <? 0)%Z)
  | _, _ =>
      match SFdiv prec emax
              (S754_finite (a <? 0)%Z (Z.to_pos (Z.abs a)) 0)
              (S754_finite (b <? 0)%Z (Z.to_pos (Z.abs b)) 0) with
      | S754_infinity _ => Raise OverflowError
      | f => Ok f
      end
  end.

(** [x * n] for a [float] and an [int]. *)
Definition float_mul_int (x : float) (n : Z) : result float :=
  y ← float_of_int n; Ok (SFmul prec emax x y).

(** [int(x)]: truncation towards zero. *)
Definition int_of_float (x : float) : result Z :=
  match x with
  | S754_zero _ => Ok 0%Z
  | S754_finite s m e => Ok (cond_Zopp s (Z.shiftl (Zpos m) e))
  | S754_infinity _ => Raise OverflowError
  | S754_nan => Raise ValueError
  end.

(** ** [shrink_large] *)

(** The size requested from the codec: both sides times
    [pix_limit / num_pixels]. *)
Definition new_size (pix_limit : Z) (img : image) : result (Z * Z) :=
  ratio ← int_truediv pix_limit (height img * width img);
  xw ← float_mul_int ratio (width img);
  nw ← int_of_float xw;
  xh ← float_mul_int ratio (height img);
  nh ← int_of_float xh;
  Ok (nw, nh).

(** [shrink_large] returns or raises, and in either case leaves a file
    system behind: the pair of both. Only [save] writes. *)
Definition shrink_large (fs : filesystem) (file : Path) (pix_limit : pyval)
    (skip_resize : bool) : filesystem * result bool :=
  if skip_resize then (fs, Ok false)
  else
    match Image_open fs file with
    | Raise e => (fs, Raise e)
    | Ok img =>
        let num_pixels := (height img * width img)%Z in
        match py_gt num_pixels pix_limit with
        | Raise e => (fs, Raise e)
        | Ok false => (fs, Ok false)
        | Ok true =>
            match pix_limit with
            | PyInt limit =>
                match size ← new_size limit img; resize img size with
                | Raise e => (fs, Raise e)
                | Ok out =>
                    let '(fs', saved) := save fs file out in
                    (fs', _ ← saved; Ok true)
                end
            | PyStr _ | PyEmptyList => (fs, Raise TypeError)
            end
        end
    end.

(** ** [parse_args] *)

(** [parser.parse_args()] on the parser that the script builds: the four
    declared options, all optional, [-h] and [--help], which come with
    [ArgumentParser], and no positional argument. The definitions follow
    [argparse] as CPython 3.11 has it. *)

Record Namespace : Type := mkNamespace {
  CLEAR_ALL_PHOTOS : bool;
  RESIZE_SKIP : bool;
  PIX_LIMIT : pyval;
  pics_per_subdir : pyval
}.

Definition argparse_defaults : Namespace :=
  mkNamespace false false (PyInt 1900000) (PyInt 1024).

(** The options of the parser: [-h]/[--help], which [ArgumentParser] adds
    itself, and the four that [parse_args] declares. *)
Inductive option_name : Type :=
  | Help | ClearAll | ResizeSkip | MaxPixCount | PicsPerSubdir.

Global Instance option_name_eq_dec : EqDecision option_name.
Proof. solve_decision. Defined.

Definition option_strings (o : option_name) : list string :=
  match o with
  | Help => ["-h"; "--help"]
  | ClearAll => ["--clear-all"]
  | ResizeSkip => ["--resize-skip"]
  | MaxPixCount => ["--max-pix-count"]
  | PicsPerSubdir => ["--pics-per-subdir"]
  end.

Definition parser_options : list option_name :=
  [Help; ClearAll; ResizeSkip; MaxPixCount; PicsPerSubdir].

(** [s.startswith(p)] *)
Fixpoint startswith (s p : string) : bool :=
  match p, s with
  | EmptyString, _ => true
  | String c p', String d s' => bool_decide (c = d) && startswith s' p'
  | String _ _, EmptyString => false
  end.

(** [s.split("=", 1)]: the text before the first [=] and, when there is
    one, the text after it. *)
Fixpoint split_eq (s : string) : string * option string :=
  match s with
  | EmptyString => ("", None)
  | String c s' =>
      if bool_decide (c = "="%char) then ("", Some s')
      else let '(a, b) := split_eq s' in (String c a, b)
  end.

(** [" " in s] *)
Fixpoint has_space (s : string) : bool :=
  match s with
  | EmptyString => false
  | String c s' => bool_decide (c = " "%char) || has_space s'
  end.

(** The options one of whose strings satisfies [p], once per string. *)
Definition options_with (p : string → bool) : list option_name :=
  o ← parser_options; s ← option_strings o; if p s then [o] else [].

(** [arg_string in self._option_string_actions] *)
Definition exact_option (s : string) : option option_name :=
  head (options_with (λ x, bool_decide (x = s))).

(** [_negative_number_matcher]: the pattern [^-\d+$|^-\d*\.\d+$], where [$]
    also matches before a final line feed. *)
Fixpoint drop_digits (s : string) : string :=
  match s with
  | String c s' => if is_digit c then drop_digits s' else s
  | EmptyString => ""
  end.

Definition some_digits (s : string) : bool :=
  negb (bool_decide (s = "")) && all_chars is_digit s.

Definition number_body (s : string) : bool :=
  some_digits s ||
  match drop_digits s with
  | String "." frac => some_digits frac
  | _ => false
  end.

Fixpoint chomp (s : string) : string :=
  match s with
  | String c EmptyString => if bool_decide (c = "010"%char) then "" else s
  | String c s' => String c (chomp s')
  | EmptyString => ""
  end.

Definition negative_number_like (s : string) : bool :=
  match s with
  | String "-" body => number_body body || number_body (chomp body)
  | _ => false
  end.

(** How [_parse_optional] reads one argument string. *)
Inductive token_class : Type :=
  | Positional
  | Optional (o : option_name) (explicit_arg : option string)
  | UnknownOptional
  | Ambiguous.

(** [_get_option_tuples] *)
Definition option_tuples (t : string) : list (option_name * option string) :=
  match t with
  | String "-" (String "-" _) =>
      let '(option_prefix, explicit_arg) := split_eq t in
      (λ o, (o, explicit_arg)) <$> options_with (λ s, startswith s option_prefix)
  | String "-" (String c tail) =>
      o ← parser_options; s ← option_strings o;
      if bool_decide (s = String "-" (String c "")) then [(o, Some tail)]
      else if startswith s t then [(o, None)] else []
  | _ => []
  end.

Definition _parse_optional (t : string) : token_class :=
  match t with
  | EmptyString => Positional
  | String c _ =>
      if negb (bool_decide (c = "-"%char)) then Positional
      else match exact_option t with
      | Some o => Optional o None
      | None =>
          if bool_decide (String.length t = 1) then Positional
          else
            let by_prefix :=
              match option_tuples t with
              | [] =>
                  if negative_number_like t then Positional
                  else if has_space t then Positional
                  else UnknownOptional
              | [(o, explicit_arg)] => Optional o explicit_arg
              | _ => Ambiguous
              end in
            match split_eq t with
            | (option_string, Some explicit_arg) =>
                match exact_option option_string with
                | Some o => Optional o (Some explicit_arg)
                | None => by_prefix
                end
            | _ => by_prefix
            end
      end
  end.

(** [_get_values] for one explicit argument: the first ["--"] is removed
    from the argument list, and what is left of a one-element list is no
    longer a single value. *)
Definition explicit_value (v : string) : pyval :=
  if bool_decide (v = "--") then PyEmptyList else PyStr v.

Definition store (o : option_name) (v : pyval) (ns : Namespace) : Namespace :=
  match o with
  | MaxPixCount =>
      mkNamespace (CLEAR_ALL_PHOTOS ns) (RESIZE_SKIP ns) v (pics_per_subdir ns)
  | PicsPerSubdir =>
      mkNamespace (CLEAR_ALL_PHOTOS ns) (RESIZE_SKIP ns) (PIX_LIMIT ns) v
  | _ => ns
  end.

Definition store_true (o : option_name) (ns : Namespace) : Namespace :=
  match o with
  | ClearAll =>
      mkNamespace true (RESIZE_SKIP ns) (PIX_LIMIT ns) (pics_per_subdir ns)
  | ResizeSkip =>
      mkNamespace (CLEAR_ALL_PHOTOS ns) true (PIX_LIMIT ns) (pics_per_subdir ns)
  | _ => ns
  end.

Definition takes_value (o : option_name) : bool :=
  match o with
  | MaxPixCount | PicsPerSubdir => true
  | _ => false
  end.

(** An argument string that can be the value of an option. *)
Definition is_argument (t : string) : bool :=
  negb (bool_decide (t = "--")) &&
  match _parse_optional t with Positional => true | _ => false end.

(** [_parse_known_args], for a parser without positionals: the argument
    strings are consumed from the left. A switch stores [True] and refuses
    an explicit argument; a valued option stores its explicit argument or
    else the next string, which must be an argument. Since no positional
    can take it, a string that is not consumed ends in the error
    "unrecognized arguments"; in CPython 3.11 that includes the separator
    [--] itself, wherever it stands. [None] is the parser's exit: a usage
    error, or the help text. *)
Fixpoint parse_argv (argv : list string) (ns : Namespace) : option Namespace :=
  match argv with
  | [] => Some ns
  | t :: rest =>
      if bool_decide (t = "--") then None
      else match _parse_optional t with
      | Optional Help _ => None
      | Optional o None =>
          if takes_value o then
            match rest with
            | v :: rest' =>
                if is_argument v then parse_argv rest' (store o (PyStr v) ns)
                else None
            | [] => None
            end
          else parse_argv rest (store_true o ns)
      | Optional o (Some explicit_arg) =>
          if takes_value o
          then parse_argv rest (store o (explicit_value explicit_arg) ns)
          else None
      | _ => None
      end
  end.

Definition parse_args (argv : list string) : option Namespace :=
  parse_argv argv argparse_defaults.

(** ** [get_dest_filenames] and [copy_and_resize] *)

Record counts : Type := mkCounts {
  already_there : nat;
  copied : nat;
  error : nat;
  resized : list Path
}.

(** [dict(already_there=0, copied=0, error=0, resized=[])] *)
Definition counts_init : counts := mkCounts 0 0 0 [].

Definition incr_already_there (c : counts) : counts :=
  mkCounts (S (already_there c)) (copied c) (error c) (resized c).
Definition incr_copied (c : counts) : counts :=
  mkCounts (already_there c) (S (copied c)) (error c) (resized c).
Definition incr_error (c : counts) : counts :=
  mkCounts (already_there c) (copied c) (S (error c)) (resized c).
Definition append_resized (orig : Path) (c : counts) : counts :=
  mkCounts (already_there c) (copied c) (error c) (resized c ++ [orig]).

Section Exporter.
(** The external slug transform and the login name behind [DEST_DIR]. *)
Variable slugify : string → string.
Variable USER : string.

Definition DEST_DIR : string := "/home/" +:+ USER +:+ "/Dropbox/five-star-pics".

Definition _get_date_from_shotwell_directories (filename : Path) : string :=
  join "-" (slice_m4_m1 (parts filename)).

(** [Path(DEST_DIR, f"subdir{subdir_num:02}")] *)
Definition pic_dir_of (subdir_num : Z) : Path :=
  parse_parts [DEST_DIR; "subdir" +:+ format_02 subdir_num].

Definition _make_new_dir_if_needed (args : Namespace) (fs : filesystem) (i : nat)
    : result (Path * filesystem) :=
  subdir_num ← py_floordiv (Z.of_nat i) (pics_per_subdir args);
  let pic_dir := pic_dir_of subdir_num in
  if is_dir fs pic_dir then Ok (pic_dir, fs)
  else fs' ← mkdir fs pic_dir; Ok (pic_dir, fs').

(** The file name of the destination: the slug of [date/stem], then the
    lowercased extension. *)
Definition dest_slug (orig : Path) : string :=
  let date := _get_date_from_shotwell_directories orig in
  slugify (as_posix (parse_parts [date; stem orig])) +:+ lower (suffix orig).

Definition _make_dest_name (args : Namespace) (fs : filesystem) (orig : Path)
    (i : nat) : result (Path * filesystem) :=
  let slug := dest_slug orig in
  '(pic_dir, fs') ← _make_new_dir_if_needed args fs i;
  Ok (Path_join pic_dir slug, fs').

(** [[(o, _make_dest_name(o, i)) for i, o in enumerate(orig_files)]],
    from index [i] on. *)
Fixpoint dest_names_from (args : Namespace) (fs : filesystem) (i : nat)
    (orig_files : list Path) : result (list (Path * Path) * filesystem) :=
  match orig_files with
  | [] => Ok ([], fs)
  | o :: rest =>
      '(dest, fs1) ← _make_dest_name args fs o i;
      '(filenames, fs2) ← dest_names_from args fs1 (S i) rest;
      Ok ((o, dest) :: filenames, fs2)
  end.

Definition get_dest_filenames (fs : filesystem) (orig_files : list Path)
    (args : Namespace) : result (list (Path * Path) * filesystem) :=
  dest_names_from args fs 0 orig_files.

(** The first [try] block of the loop body. *)
Definition copy_phase (fs : filesystem) (c : counts) (orig dest : Path)
    : result (filesystem * counts) :=
  if path_exists fs dest then Ok (fs, incr_already_there c)
  else fs' ← copy fs orig dest; Ok (fs', incr_copied c).

(** One iteration: [except FileNotFoundError] counts an error and
    continues with the next item; [except OSError] around the resize
    only reports. Any other exception leaves the loop. *)
Definition process_item (args : Namespace) (st : filesystem * counts)
    (item : Path * Path) : result (filesystem * counts) :=
  let '(fs, c) := st in
  let '(orig, dest) := item in
  match copy_phase fs c orig dest with
  | Raise FileNotFoundError => Ok (fs, incr_error c)
  | Raise e => Raise e
  | Ok (fs1, c1) =>
      match shrink_large fs1 dest (PIX_LIMIT args) (RESIZE_SKIP args) with
      | (fs2, Ok was_resized) =>
          Ok (fs2, if was_resized : bool then append_resized orig c1 else c1)
      | (fs2, Raise e) => if is_OSError e then Ok (fs2, c1) else Raise e
      end
  end.

Fixpoint run_items (args : Namespace) (items : list (Path * Path))
    (st : filesystem * counts) : result (filesystem * counts) :=
  match items with
  | [] => Ok st
  | item :: rest => st' ← process_item args st item; run_items args rest st'
  end.

Definition copy_and_resize (fs : filesystem) (pic_filenames : list Path)
    (args : Namespace) : result (filesystem * counts) :=
  '(orig_dest_filenames, fs1) ← get_dest_filenames fs pic_filenames args;
  run_items args orig_dest_filenames (fs1, counts_init).
End Exporter.

(** ** [get_pic_filenames] and [main] *)

(** [get_pic_filenames]: [out_lines] are the decoded lines that the catalog
    query prints, in the order of its [ORDER BY]; running the query itself
    is outside the model. [random.sample] is an external source of
    randomness: [sample population k] stands for one of its outcomes. *)
Definition get_pic_filenames (sample : list Path → Z → result (list Path))
    (out_lines : list string) (num_limit : Z) : result (list Path) :=
  let pic_filenames := map Path_of out_lines in
  if (num_limit <? Z.of_nat (length pic_filenames))%Z
  then sample pic_filenames num_limit
  else Ok pic_filenames.

(** The path [k] is [p] itself or lies below it. *)
Definition inside (p : Path) (k : string) : Prop :=
  k = as_posix p ∨
  (root (Path_of k) = root p ∧ comps p `prefix_of` comps (Path_of k)).

(** [Path.rmtree()]: the directory and everything below it. *)
Definition rmtree (fs : filesystem) (p : Path) : result filesystem :=
  match fs !! as_posix p with
  | None => Raise FileNotFoundError
  | Some (File _) => Raise NotADirectoryError
  | Some Dir => Ok (filter (λ kv, ¬ inside p kv.1) fs)
  end.

(** [main], up to the final report: [None] when [argparse] exits. *)
Definition main (slugify : string → string) (USER : string)
    (sample : list Path → Z → result (list Path)) (out_lines : list string)
    (fs : filesystem) (argv : list string) : option (result (filesystem * counts)) :=
  match parse_args argv with
  | None => None
  | Some args =>
      Some (fs1 ← (if CLEAR_ALL_PHOTOS args
                   then fs' ← rmtree fs (Path_of (DEST_DIR USER));
                        mkdir fs' (Path_of (DEST_DIR USER))
                   else Ok fs);
            pic_filenames ← get_pic_filenames sample out_lines 40000;
            copy_and_resize slugify USER fs1 pic_filenames args)
  end.

(** ** Vocabulary of the statements *)


Definition num_pixels_of (img : image) : Z := (height img * width img)%Z.

(** Pillow's [Image.MAX_IMAGE_PIXELS]: [Image.open] refuses a file of more
    than twice as many pixels with a [DecompressionBombError]. *)
Definition MAX_IMAGE_PIXELS : Z := 89478485.

(** Every image on disk has sides that a double represents exactly. *)
Definition dims_ok (fs : filesystem) : Prop :=
  ∀ k img, fs !! k = Some (File (Pixels img)) →
    (0 ≤ width img < 2 ^ 53 ∧ 0 ≤ height img < 2 ^ 53)%Z.

(** No image stored at [p] exceeds the pixel budget. *)
Definition within_budget (limit : Z) (fs : filesystem) (p : Path) : Prop :=
  ∀ img, fs !! as_posix p = Some (File (Pixels img)) → (num_pixels_of img ≤ limit)%Z.

(** A destination that a further run leaves alone: it exists, and the resize
    phase writes nothing there and reports no resize: it returns [False] or
    raises an [OSError]. *)
Definition settled (args : Namespace) (fs : filesystem) (dest : Path) : Prop :=
  path_exists fs dest = true ∧
  ∃ r, shrink_large fs dest (PIX_LIMIT args) (RESIZE_SKIP args) = (fs, r) ∧
       (r = Ok false ∨ ∃ e, r = Raise e ∧ is_OSError e = true).

(** Directories are never removed or replaced, and paths never disappear. *)
Definition fs_extends (fs fs' : filesystem) : Prop :=
  ∀ k, (fs !! k = Some Dir → fs' !! k = Some Dir) ∧
       (is_Some (fs !! k) → is_Some (fs' !! k)).

(** The destination list [get_dest_filenames] computes when every bucket
    directory can be used: position [i] goes to bucket [i // capacity]. *)
Definition plan_from (slugify : string → string) (USER : string) (capacity : Z)
    (i : nat) (orig_files : list Path) : list (Path * Path) :=
  imap (λ j o, (o, Path_join (pic_dir_of USER (Z.of_nat (i + j) / capacity))
                             (dest_slug slugify o))) orig_files.

(** A path component as [parse_parts] keeps it: no separator, not empty and
    not the current-directory dot. *)
Definition simple_name (x : string) : Prop :=
  all_chars no_slash x = true ∧ keep_component x = true.

(** The destination root is a directory, and no bucket name is taken by a
    regular file. *)
Definition dirs_ready (USER : string) (fs : filesystem) : Prop :=
  fs !! as_posix (Path_of (DEST_DIR USER)) = Some Dir ∧
  ∀ n, fs !! as_posix (pic_dir_of USER n) = None ∨
       fs !! as_posix (pic_dir_of USER n) = Some Dir.

(** The bucket directories of positions [i .. i + n - 1] exist. *)
Definition buckets_exist (USER : string) (capacity : Z) (fs : filesystem)
    (i n : nat) : Prop :=
  ∀ j, (i ≤ j < i + n)%nat →
    fs !! as_posix (pic_dir_of USER (Z.of_nat j / capacity)) = Some Dir.

(** The argument strings of a vector that are read as options: those
    before the first [--] that are not the value of the option before
    them. *)
Fixpoint option_tokens (argv : list string) : list string :=
  match argv with
  | [] => []
  | t :: rest =>
      if bool_decide (t = "--") then []
      else t :: match _parse_optional t, rest with
                | Optional o None, _ :: rest' =>
                    if takes_value o then option_tokens rest'
                    else option_tokens rest
                | _, _ => option_tokens rest
                end
  end.

(** The argument string [t] is a spelling of the option [o]: its name, a
    unique abbreviation of it, or one of these with [=] and a value. *)
Definition names (o : option_name) (t : string) : bool :=
  match _parse_optional t with
  | Optional o' _ => bool_decide (o' = o)
  | _ => false
  end.

(** The option [o] is given on the command line. *)
Definition supplied (o : option_name) (argv : list string) : bool :=
  existsb (names o) (option_tokens argv).

(** A small catalog and the file system its first export leaves behind. *)
Definition exported_files : list Path :=
  [Path_of "/p/2022/06/01/a.jpg"; Path_of "/p/2022/06/01/b.jpg"].

Definition catalog_fs : filesystem :=
  {[ "/home/u/Dropbox/five-star-pics" := Dir;
     "/p/2022/06/01/a.jpg" := File (Pixels (mkImage 4000 3000));
     "/p/2022/06/01/b.jpg" := File Undecodable ]}.

Definition exported_fs : filesystem :=
  {[ "/home/u/Dropbox/five-star-pics" := Dir;
     "/home/u/Dropbox/five-star-pics/subdir00" := Dir;
     "/home/u/Dropbox/five-star-pics/subdir00/2022-06-01-a.jpg"
       := File (Pixels (mkImage 633 475));
     "/home/u/Dropbox/five-star-pics/subdir00/2022-06-01-b.jpg"
       := File Undecodable;
     "/p/2022/06/01/a.jpg" := File (Pixels (mkImage 4000 3000));
     "/p/2022/06/01/b.jpg" := File Undecodable ]}.

(** Powers of two as rationals, the value of a mantissa/exponent pair, and
    the unit roundoff of binary64. *)
Definition bpow (e : Z) : Q := (2 ^ e)%Q.
Definition F2Q (m e : Z) : Q := (inject_Z m * bpow e)%Q.
Definition u53 : Q := 1 # (2 ^ 53).

(** [Loc mrs e v]: the mantissa, round bit and sticky bit of [mrs], at
    exponent [e], locate the exact value [v] within half a unit. *)
Definition Loc (mrs : shr_record) (e : Z) (v : Q) : Prop :=
  let lo := (inject_Z (2 * shr_m mrs + Z.b2z (shr_r mrs)) * bpow e)%Q in
  if shr_s mrs then (lo < 2 * v ∧ 2 * v < lo + bpow e)%Q else (2 * v == lo)%Q.

(** Directories stay directories and regular files stay regular files. *)
Definition keeps_kinds (fs fs' : filesystem) : Prop :=
  ∀ k, (fs !! k = Some Dir → fs' !! k = Some Dir) ∧
       (∀ x, fs !! k = Some (File x) → ∃ y, fs' !! k = Some (File y)).

(** [int(s)] for a string [s] of decimal digits. *)
Definition digits_value (s : string) : option N :=
  option_map N.of_uint (DecimalString.NilEmpty.uint_of_string s).

(** More of the small catalog: the file system once the bucket directory is
    made, the options of a run with [--resize-skip] and what that run
    leaves behind, and a destination tree with a stale file together with
    what a [--clear-all] run makes of it. *)
Definition planned_fs : filesystem :=
  <["/home/u/Dropbox/five-star-pics/subdir00" := Dir]> catalog_fs.

Definition skip_args : Namespace :=
  mkNamespace false true (PyInt 1900000) (PyInt 1024).

Definition copied_fs : filesystem :=
  <["/home/u/Dropbox/five-star-pics/subdir00/2022-06-01-a.jpg"
      := File (Pixels (mkImage 4000 3000))]>
    (<["/home/u/Dropbox/five-star-pics/subdir00/2022-06-01-b.jpg"
         := File Undecodable]> planned_fs).

Definition stale_fs : filesystem :=
  <["/home/u/Dropbox/five-star-pics/subdir07/old.jpg" := File Undecodable]>
    (<["/home/u/Dropbox/five-star-pics/subdir07" := Dir]>
       (<["/home/u/Dropbox" := Dir]> catalog_fs)).

Definition refreshed_fs : filesystem := <["/home/u/Dropbox" := Dir]> exported_fs.

Definition catalog_lines : list string :=
  ["/p/2022/06/01/a.jpg"; "/p/2022/06/01/b.jpg"].


(** The codec raises nothing but [OSError]s on the picture. *)
Definition raises_only_OSError (c : codec_response) : bool :=
  match c with
  | Rewrites => true
  | LoadRaises e | SaveRaises e | EncoderRaises e => is_OSError e
  end.

(** Every image on disk has positive sides that a double represents
    exactly and a pixel count that [Image.open] accepts, the codec raises
    nothing but [OSError]s on it, and when it exceeds the budget twice each
    side is at most the budget: both requested sides are then at least 1. *)
Definition scalable (limit : Z) (fs : filesystem) : Prop :=
  ∀ k img, fs !! k = Some (File (Pixels img)) →
    (0 < width img < 2 ^ 53)%Z ∧ (0 < height img < 2 ^ 53)%Z ∧
    (num_pixels_of img ≤ 2 * MAX_IMAGE_PIXELS)%Z ∧
    raises_only_OSError (codec img) = true ∧
    ((limit < num_pixels_of img)%Z →
     (2 * width img ≤ limit)%Z ∧ (2 * height img ≤ limit)%Z).

(** The destination keys of a plan. *)
Definition dest_keys (plan : list (Path * Path)) : list string :=
  map (λ od, as_posix od.2) plan.

(** No dot: the characters of an extension after its leading dot. *)
Definition not_dot (c : ascii) : bool := negb (bool_decide (c = "."%char)).

(** * Part II: properties *)

(** ** Strings and paths *)

Lemma app_cons c s t : String c s +:+ t = String c (s +:+ t).
Proof. reflexivity. Qed.

Lemma all_chars_app p s t :
  all_chars p (s +:+ t) = all_chars p s && all_chars p t.
Proof.
  induction s as [|c s IH]; [reflexivity|].
  rewrite app_cons. cbn [all_chars]. rewrite IH. by rewrite andb_assoc.
Qed.

Lemma all_chars_impl (p q : ascii → bool) s :
  (∀ c, p c = true → q c = true) → all_chars p s = true → all_chars q s = true.
Proof.
  intros Hpq. induction s as [|c s IH]; [done|]. cbn [all_chars].
  rewrite !andb_true_iff. intros [? ?]. auto.
Qed.

Lemma slug_char_no_slash c : slug_char c = true → no_slash c = true.
Proof. destruct c as [[] [] [] [] [] [] [] []]; by vm_compute. Qed.

Lemma slug_char_safe c : slug_char c = true → safe_char c = true.
Proof. unfold safe_char. intros ->. done. Qed.

Lemma lower_char_no_slash c : no_slash c = true → no_slash (lower_char c) = true.
Proof. destruct c as [[] [] [] [] [] [] [] []]; by vm_compute. Qed.

Lemma lower_no_slash s : all_chars no_slash s = true → all_chars no_slash (lower s) = true.
Proof.
  induction s as [|c s IH]; [done|]. cbn [all_chars lower].
  rewrite !andb_true_iff. intros [? ?]. auto using lower_char_no_slash.
Qed.

Lemma split_slash_no_slash s :
  Forall (λ x, all_chars no_slash x = true) (split_slash s).
Proof.
  induction s as [|c s IH]; cbn [split_slash].
  - by constructor.
  - destruct (is_slash c) eqn:Hc; [by constructor|].
    destruct (split_slash s) as [|w ws].
    + constructor; [|done]. cbn. unfold no_slash. by rewrite Hc.
    + inversion_clear IH. constructor; [|done].
      cbn. unfold no_slash at 1. by rewrite Hc.
Qed.

Lemma split_slash_simple s :
  all_chars no_slash s = true → split_slash s = [s].
Proof.
  induction s as [|c s IH]; [done|]. cbn [all_chars split_slash].
  rewrite andb_true_iff. unfold no_slash at 1. intros [Hc Hs].
  apply negb_true_iff in Hc. rewrite Hc, IH; done.
Qed.

Lemma parse_parts_no_slash args :
  Forall (λ x, all_chars no_slash x = true) (comps (parse_parts args)).
Proof.
  induction args as [|part rest IH]; cbn [parse_parts]; [by constructor|].
  case_bool_decide; [|done]. destruct (splitroot part) as [r rel]. cbn [comps].
  apply Forall_app. split; [|done].
  apply Forall_forall. intros x [_ Hx]%list_elem_of_filter.
  by eapply Forall_forall in Hx; [|apply split_slash_no_slash].
Qed.

Lemma last_Forall {A} (P : A → Prop) l d : Forall P l → P d → P (List.last l d).
Proof.
  intros Hl Hd. induction Hl as [|x l Hx Hl IH]; [done|].
  cbn [List.last]. destruct l; [done|]. exact IH.
Qed.

Lemma name_no_slash args : all_chars no_slash (name (parse_parts args)) = true.
Proof. unfold name. apply last_Forall; [apply parse_parts_no_slash|done]. Qed.

Lemma from_last_dot_tail s t :
  from_last_dot s = Some t → ∃ pre, s = pre +:+ t.
Proof.
  revert t. induction s as [|c s IH]; intros t; cbn [from_last_dot]; [done|].
  destruct (from_last_dot s) as [t'|].
  - intros [= <-]. destruct (IH t' eq_refl) as [pre ->]. by exists (String c pre).
  - case_bool_decide; [|done]. intros [= <-]. by exists "".
Qed.

Lemma suffix_all_chars p f :
  all_chars f (name p) = true → all_chars f (suffix p) = true.
Proof.
  intros Hn. unfold suffix. destruct (from_last_dot (name p)) as [t|] eqn:Ht; [|done].
  destruct (_ && _); [|done].
  apply from_last_dot_tail in Ht as [pre Ht]. rewrite Ht, all_chars_app in Hn.
  by apply andb_true_iff in Hn as [_ ?].
Qed.

Lemma uint_digits d :
  all_chars is_digit (DecimalString.NilEmpty.string_of_uint d) = true.
Proof. induction d; cbn; by rewrite ?IHd. Qed.

Lemma decimal_digits n : all_chars is_digit (decimal n) = true.
Proof.
  unfold decimal, DecimalString.NilZero.string_of_uint.
  destruct (N.to_uint n) eqn:E; try (rewrite <- E; apply uint_digits); done.
Qed.

Lemma is_digit_no_slash c : is_digit c = true → no_slash c = true.
Proof. destruct c as [[] [] [] [] [] [] [] []]; by vm_compute. Qed.

Lemma format_02_no_slash n : all_chars no_slash (format_02 n) = true.
Proof.
  pose proof (λ m, all_chars_impl _ _ _ is_digit_no_slash (decimal_digits m)) as Hd.
  unfold format_02. destruct n; cbn zeta; try case_match;
    rewrite ?all_chars_app, ?Hd; done.
Qed.

(** A bucket directory sits directly under the destination root. *)
Lemma parse_parts_simple D s c :
  all_chars no_slash (String c s) = true → String c s ≠ "." →
  parse_parts [D; String c s] =
    mkPath (root (Path_of D)) (comps (Path_of D) ++ [String c s]).
Proof.
  intros Hs Hdot. unfold Path_of. cbn [parse_parts].
  assert (Hroot : splitroot (String c s) = ("", String c s)).
  { cbn [all_chars] in Hs. apply andb_true_iff in Hs as [Hc _].
    unfold no_slash in Hc. apply negb_true_iff in Hc.
    unfold splitroot. by rewrite Hc. }
  rewrite Hroot, (split_slash_simple _ Hs).
  assert (Hk : keep_component (String c s) = true).
  { unfold keep_component. rewrite !bool_decide_eq_false_2; done. }
  rewrite (bool_decide_eq_true_2 (root _ = "")) by done. cbn [root comps].
  rewrite (bool_decide_eq_true_2 ("" = "")) by done.
  destruct (splitroot D) as [r rel]. cbn [root comps].
  rewrite filter_cons_True, filter_nil by done. by rewrite !app_nil_r.
Qed.

Lemma slugify_go_slug_chars s emitted pending :
  all_chars slug_char (slugify_go s emitted pending) = true.
Proof.
  revert emitted pending. induction s as [|c s IH]; intros emitted pending; [done|].
  cbn [slugify_go]. destruct (is_lower _ || is_digit _) eqn:Hc; [|apply IH].
  assert (slug_char (lower_char c) = true) as Hs by (unfold slug_char; by rewrite Hc).
  destruct (emitted && pending); cbn [all_chars]; rewrite Hs, IH; done.
Qed.

Lemma slugify_model_slug_chars s : all_chars slug_char (slugify_model s) = true.
Proof. apply slugify_go_slug_chars. Qed.

Lemma subdir_name_simple n :
  all_chars no_slash ("subdir" +:+ format_02 n) = true ∧
  "subdir" +:+ format_02 n ≠ ".".
Proof. split; [by rewrite all_chars_app, format_02_no_slash|done]. Qed.

Lemma pic_dir_of_eq USER n :
  pic_dir_of USER n =
    mkPath (root (Path_of (DEST_DIR USER)))
           (comps (Path_of (DEST_DIR USER)) ++ ["subdir" +:+ format_02 n]).
Proof.
  destruct (subdir_name_simple n) as [H1 H2]. unfold pic_dir_of.
  change ("subdir" +:+ format_02 n) with (String "s" ("ubdir" +:+ format_02 n)) in *.
  by apply parse_parts_simple.
Qed.

Lemma pic_dir_parent USER n : parent (pic_dir_of USER n) = Path_of (DEST_DIR USER).
Proof.
  rewrite pic_dir_of_eq. unfold parent. cbn [root comps].
  rewrite removelast_last. by destruct (Path_of _).
Qed.

(** ** Destination naming *)

Lemma plan_from_cons slugify USER capacity i o rest :
  plan_from slugify USER capacity i (o :: rest) =
    (o, Path_join (pic_dir_of USER (Z.of_nat i / capacity)) (dest_slug slugify o))
    :: plan_from slugify USER capacity (S i) rest.
Proof.
  unfold plan_from. rewrite imap_cons. rewrite Nat.add_0_r. f_equal.
  apply imap_ext. intros j x _. cbn. by rewrite Nat.add_succ_r.
Qed.

Lemma length_plan_from slugify USER capacity i files :
  length (plan_from slugify USER capacity i files) = length files.
Proof. unfold plan_from. by rewrite length_imap. Qed.

Lemma fs_extends_refl fs : fs_extends fs fs.
Proof. by intros k. Qed.

Lemma fs_extends_trans fs1 fs2 fs3 :
  fs_extends fs1 fs2 → fs_extends fs2 fs3 → fs_extends fs1 fs3.
Proof. intros H12 H23 k. destruct (H12 k), (H23 k). split; auto. Qed.

Lemma fs_extends_insert_fresh (fs : filesystem) k x :
  fs !! k = None → fs_extends fs (<[k := x]> fs).
Proof.
  intros Hk k'. destruct (decide (k = k')) as [<-|Hne].
  - rewrite Hk. split; [done|]. by intros [? ?].
  - by rewrite lookup_insert_ne.
Qed.

Lemma fs_extends_insert_file (fs : filesystem) k c c' :
  fs !! k = Some (File c) → fs_extends fs (<[k := File c']> fs).
Proof.
  intros Hk k'. destruct (decide (k = k')) as [<-|Hne].
  - rewrite Hk, lookup_insert_eq. split; [done|eauto].
  - by rewrite lookup_insert_ne.
Qed.

Lemma make_new_dir_spec USER args capacity fs i pic_dir fs' :
  pics_per_subdir args = PyInt capacity →
  _make_new_dir_if_needed USER args fs i = Ok (pic_dir, fs') →
  pic_dir = pic_dir_of USER (Z.of_nat i / capacity) ∧
  fs' !! as_posix pic_dir = Some Dir ∧ fs_extends fs fs' ∧
  (fs !! as_posix pic_dir = Some Dir → fs' = fs).
Proof.
  intros Hcap. unfold _make_new_dir_if_needed. rewrite Hcap. unfold py_floordiv.
  assert (Hgen : ∀ q,
    (if is_dir fs (pic_dir_of USER q) then Ok (pic_dir_of USER q, fs)
     else fs'0 ← mkdir fs (pic_dir_of USER q); Ok (pic_dir_of USER q, fs'0))
      = Ok (pic_dir, fs') →
    pic_dir = pic_dir_of USER q ∧ fs' !! as_posix pic_dir = Some Dir ∧
    fs_extends fs fs' ∧ (fs !! as_posix pic_dir = Some Dir → fs' = fs)).
  { intros q. unfold is_dir, mkdir.
    destruct (fs !! as_posix (pic_dir_of USER q)) as [[|?]|] eqn:Hd; try done.
    - intros [= <- <-]. auto using fs_extends_refl.
    - destruct (fs !! as_posix (parent _)) as [[|?]|]; try done.
      cbn [mbind result_bind]. intros [= <- <-]. rewrite lookup_insert_eq.
      split; [done|]. split; [done|]. split; [by apply fs_extends_insert_fresh|].
      by rewrite Hd. }
  destruct capacity as [|c|c]; [done| |]; cbn [mbind result_bind]; apply Hgen.
Qed.

Lemma dest_names_from_spec slugify USER args capacity :
  pics_per_subdir args = PyInt capacity →
  ∀ files fs i plan fs',
    dest_names_from slugify USER args fs i files = Ok (plan, fs') →
    plan = plan_from slugify USER capacity i files ∧
    fs_extends fs fs' ∧
    buckets_exist USER capacity fs' i (length files) ∧
    (buckets_exist USER capacity fs i (length files) → fs' = fs).
Proof.
  intros Hcap. induction files as [|o rest IH]; intros fs i plan fs'.
  - cbn. intros [= <- <-]. split; [done|]. split; [apply fs_extends_refl|].
    split; [|done]. intros j ?. lia.
  - cbn [dest_names_from]. unfold _make_dest_name.
    destruct (_make_new_dir_if_needed USER args fs i) as [[pd fs1]|] eqn:Hmk; [|done].
    cbn [mbind result_bind].
    destruct (dest_names_from slugify USER args fs1 (S i) rest)
      as [[plan' fs2]|] eqn:Hrec; [|done].
    cbn [mbind result_bind]. intros [= <- <-].
    destruct (make_new_dir_spec _ _ _ _ _ _ _ Hcap Hmk) as (-> & Hd & Hext & Hsame).
    destruct (IH _ _ _ _ Hrec) as (-> & Hext' & Hb & Hsame').
    split; [by rewrite plan_from_cons|].
    split; [by eapply fs_extends_trans|]. split.
    + intros j Hj. destruct (decide (j = i)) as [->|Hne].
      * by apply Hext'.
      * apply Hb. cbn [length] in Hj. lia.
    + intros Hall. assert (fs1 = fs) as -> by (apply Hsame, Hall; cbn; lia).
      apply Hsame'. intros j Hj. apply Hall. cbn [length]. lia.
Qed.

Lemma dirs_ready_insert USER (fs : filesystem) k :
  dirs_ready USER fs → dirs_ready USER (<[k := Dir]> fs).
Proof.
  intros [Hroot Hsub]. split.
  - destruct (decide (k = as_posix (Path_of (DEST_DIR USER)))) as [->|?].
    + apply lookup_insert_eq.
    + by rewrite lookup_insert_ne.
  - intros n. destruct (decide (k = as_posix (pic_dir_of USER n))) as [->|?].
    + right. apply lookup_insert_eq.
    + rewrite lookup_insert_ne by done. apply Hsub.
Qed.

Lemma make_new_dir_total USER args capacity fs i :
  pics_per_subdir args = PyInt capacity → capacity ≠ 0%Z → dirs_ready USER fs →
  ∃ fs', _make_new_dir_if_needed USER args fs i
           = Ok (pic_dir_of USER (Z.of_nat i / capacity), fs') ∧
         dirs_ready USER fs'.
Proof.
  intros Hcap Hne Hready. unfold _make_new_dir_if_needed. rewrite Hcap.
  assert (Hdiv : py_floordiv (Z.of_nat i) (PyInt capacity)
                 = Ok (Z.of_nat i / capacity)%Z) by (by destruct capacity).
  rewrite Hdiv. cbn [mbind result_bind].
  set (q := (Z.of_nat i / capacity)%Z). unfold is_dir, mkdir.
  destruct Hready as [Hroot Hsub].
  destruct (Hsub q) as [Hq|Hq]; rewrite Hq; [|by exists fs].
  rewrite pic_dir_parent, Hroot. cbn [mbind result_bind].
  eexists. split; [done|]. by apply dirs_ready_insert.
Qed.

Lemma dest_names_from_total slugify USER args capacity :
  pics_per_subdir args = PyInt capacity → capacity ≠ 0%Z →
  ∀ files fs i, dirs_ready USER fs →
    ∃ fs', dest_names_from slugify USER args fs i files
             = Ok (plan_from slugify USER capacity i files, fs') ∧
           dirs_ready USER fs'.
Proof.
  intros Hcap Hne. induction files as [|o rest IH]; intros fs i Hready.
  - exists fs. done.
  - cbn [dest_names_from]. unfold _make_dest_name.
    destruct (make_new_dir_total USER args capacity fs i Hcap Hne Hready)
      as (fs1 & -> & Hready1).
    cbn [mbind result_bind].
    destruct (IH fs1 (S i) Hready1) as (fs2 & -> & Hready2).
    cbn [mbind result_bind]. exists fs2. by rewrite plan_from_cons.
Qed.

Lemma dest_names_from_exist slugify USER args capacity :
  pics_per_subdir args = PyInt capacity → capacity ≠ 0%Z →
  ∀ files fs i, buckets_exist USER capacity fs i (length files) →
    dest_names_from slugify USER args fs i files
      = Ok (plan_from slugify USER capacity i files, fs).
Proof.
  intros Hcap Hne. induction files as [|o rest IH]; intros fs i Hb; [done|].
  cbn [dest_names_from]. unfold _make_dest_name, _make_new_dir_if_needed.
  rewrite Hcap.
  assert (Hdiv : py_floordiv (Z.of_nat i) (PyInt capacity)
                 = Ok (Z.of_nat i / capacity)%Z) by (by destruct capacity).
  rewrite Hdiv. cbn [mbind result_bind]. unfold is_dir.
  rewrite (Hb i) by (cbn [length]; lia). cbn [mbind result_bind].
  rewrite IH; [by rewrite plan_from_cons|].
  intros j Hj. apply Hb. cbn [length]. lia.
Qed.

Lemma splitroot_simple x : simple_name x → splitroot x = ("", x).
Proof.
  intros [Hx Hk]. destruct x as [|c x]; [done|].
  cbn [all_chars] in Hx. apply andb_true_iff in Hx as [Hc _].
  unfold no_slash in Hc. apply negb_true_iff in Hc. unfold splitroot. by rewrite Hc.
Qed.

Lemma parse_parts_simple_list l :
  Forall simple_name l → parse_parts l = mkPath "" l.
Proof.
  induction 1 as [|x l Hx Hl IH]; [done|]. cbn [parse_parts]. rewrite IH.
  cbn [root comps]. rewrite (bool_decide_eq_true_2 ("" = "")) by done.
  rewrite (splitroot_simple x Hx). destruct Hx as [Hx Hk].
  rewrite (split_slash_simple x Hx), filter_cons_True, filter_nil by done. done.
Qed.

Lemma parse_parts_wf args :
  (root (parse_parts args) = "" ∨ root (parse_parts args) = "/" ∨
   root (parse_parts args) = "//") ∧
  Forall simple_name (comps (parse_parts args)).
Proof.
  induction args as [|part rest [IHr IHc]]; [by split; [left|constructor]|].
  cbn [parse_parts]. case_bool_decide as Hroot; [|done].
  destruct (splitroot part) as [r rel] eqn:Hsplit. cbn [root comps]. split.
  - unfold splitroot in Hsplit. destruct part as [|c part]; [left; congruence|].
    destruct (is_slash c); [|left; congruence].
    destruct (_ =? 2)%nat; [right; right|right; left]; congruence.
  - apply Forall_app. split; [|done].
    apply Forall_forall. intros x [Hk Hx]%list_elem_of_filter. split; [|done].
    by eapply Forall_forall in Hx; [|apply split_slash_no_slash].
Qed.

(** Joining a simple name onto a parsed path appends one component. *)
Lemma Path_join_simple args s :
  simple_name s →
  Path_join (parse_parts args) s =
    mkPath (root (parse_parts args)) (comps (parse_parts args) ++ [s]).
Proof.
  intros Hs. destruct (parse_parts_wf args) as [Hroot Hcomps].
  unfold Path_join, parts. destruct (parse_parts args) as [r l]. cbn [root comps] in *.
  assert (Hl : parse_parts (l ++ [s]) = mkPath "" (l ++ [s])).
  { apply parse_parts_simple_list, Forall_app. split; [done|by constructor]. }
  destruct Hroot as [->|[->| ->]].
  - by rewrite bool_decide_eq_true_2.
  - rewrite bool_decide_eq_false_2 by done.
    rewrite <- app_comm_cons. cbn [parse_parts]. by rewrite Hl.
  - rewrite bool_decide_eq_false_2 by done.
    rewrite <- app_comm_cons. cbn [parse_parts]. by rewrite Hl.
Qed.

Lemma dirs_ready_singleton USER :
  dirs_ready USER {[ as_posix (Path_of (DEST_DIR USER)) := Dir ]}.
Proof.
  split; [apply lookup_singleton_eq|]. intros n.
  destruct (decide (as_posix (Path_of (DEST_DIR USER)) = as_posix (pic_dir_of USER n)))
    as [<-|Hne].
  - right. apply lookup_singleton_eq.
  - left. by apply lookup_singleton_ne.
Qed.

Lemma Path_join_pic_dir USER n s :
  simple_name s →
  Path_join (pic_dir_of USER n) s =
    mkPath (root (Path_of (DEST_DIR USER)))
           (comps (Path_of (DEST_DIR USER)) ++ ["subdir" +:+ format_02 n; s]).
Proof.
  intros Hs. unfold pic_dir_of. rewrite Path_join_simple by done.
  fold (pic_dir_of USER n). rewrite pic_dir_of_eq. cbn [root comps].
  by rewrite <- app_assoc.
Qed.

(** C3, as stated, fails: the extension is appended after the slug
    transform and is only lowercased. The source [2022/06/01/a.J*G] gets the
    destination name [2022-06-01-a.j*g], which contains [*]. *)
Lemma dest_slug_unsafe_extension :
  match get_dest_filenames slugify_model "u"
          {[ "/home/u/Dropbox/five-star-pics" := Dir ]}
          [Path_of "2022/06/01/a.J*G"] argparse_defaults with
  | Ok ([(_, dest)], _) =>
      name dest = "2022-06-01-a.j*g" ∧ all_chars safe_char (name dest) = false
  | _ => False
  end.
Proof. vm_compute. done. Qed.

(** C3 (amended): for every parsed source path and every slug transform
    whose output stays in the slug alphabet, the destination file name
    (slug of date-label/stem, then the lowercased extension) contains no
    path separator, and it contains only safe characters whenever the
    lowercased extension of the source does. *)
Theorem dest_slug_safe_when_extension_safe (slugify : string → string)
    (args : list string) :
  (∀ s, all_chars slug_char (slugify s) = true) →
  all_chars no_slash (dest_slug slugify (parse_parts args)) = true ∧
  (all_chars safe_char (lower (suffix (parse_parts args))) = true →
   all_chars safe_char (dest_slug slugify (parse_parts args)) = true).
Proof.
  intros Hslug. unfold dest_slug. rewrite !all_chars_app. split.
  - apply andb_true_iff. split.
    + eapply all_chars_impl; [apply slug_char_no_slash|apply Hslug].
    + apply lower_no_slash, suffix_all_chars, name_no_slash.
  - intros Hext. apply andb_true_iff. split; [|done].
    eapply all_chars_impl; [apply slug_char_safe|apply Hslug].
Qed.

Lemma dest_slug_safe_when_extension_safe_witness :
  all_chars no_slash (dest_slug slugify_model (parse_parts ["2022/06/01/a.JPG"])) = true ∧
  all_chars safe_char (dest_slug slugify_model (parse_parts ["2022/06/01/a.JPG"])) = true.
Proof.
  destruct (dest_slug_safe_when_extension_safe slugify_model ["2022/06/01/a.JPG"]
              slugify_model_slug_chars) as [H1 H2].
  split; [exact H1|apply H2; reflexivity].
Defined.

(** C4: for the sources [2022/06/01/a.jpg] and [2022/06/01/b.jpg] with
    bucket capacity 1, [get_dest_filenames] maps the first to
    [subdir00/2022-06-01-a.jpg] and the second to
    [subdir01/2022-06-01-b.jpg], both under the destination root. The slug
    transform enters only through its value on the two labels
    [2022-06-01/a] and [2022-06-01/b]. *)
Theorem two_sources_capacity_one slugify USER fs args :
  slugify "2022-06-01/a" = "2022-06-01-a" →
  slugify "2022-06-01/b" = "2022-06-01-b" →
  pics_per_subdir args = PyInt 1 → dirs_ready USER fs →
  ∃ fs',
    get_dest_filenames slugify USER fs
      [Path_of "2022/06/01/a.jpg"; Path_of "2022/06/01/b.jpg"] args
    = Ok ([(Path_of "2022/06/01/a.jpg",
            mkPath (root (Path_of (DEST_DIR USER)))
                   (comps (Path_of (DEST_DIR USER))
                      ++ ["subdir00"; "2022-06-01-a.jpg"]));
           (Path_of "2022/06/01/b.jpg",
            mkPath (root (Path_of (DEST_DIR USER)))
                   (comps (Path_of (DEST_DIR USER))
                      ++ ["subdir01"; "2022-06-01-b.jpg"]))], fs').
Proof.
  intros Hsa Hsb Hcap Hready. unfold get_dest_filenames.
  destruct (dest_names_from_total slugify USER args 1 Hcap ltac:(done)
              [Path_of "2022/06/01/a.jpg"; Path_of "2022/06/01/b.jpg"] fs 0%nat Hready)
    as (fs' & -> & _).
  exists fs'. do 2 f_equal. rewrite !plan_from_cons.
  assert (Ha : dest_slug slugify (Path_of "2022/06/01/a.jpg") = "2022-06-01-a.jpg").
  { unfold dest_slug.
    change (as_posix _) with "2022-06-01/a". by rewrite Hsa. }
  assert (Hb : dest_slug slugify (Path_of "2022/06/01/b.jpg") = "2022-06-01-b.jpg").
  { unfold dest_slug.
    change (as_posix _) with "2022-06-01/b". by rewrite Hsb. }
  rewrite Ha, Hb.
  change (Z.of_nat 0 / 1)%Z with 0%Z. change (Z.of_nat 1 / 1)%Z with 1%Z.
  rewrite !Path_join_pic_dir by done. done.
Qed.

Lemma two_sources_capacity_one_witness :
  ∃ fs',
    get_dest_filenames slugify_model "kester"
      {[ as_posix (Path_of (DEST_DIR "kester")) := Dir ]}
      [Path_of "2022/06/01/a.jpg"; Path_of "2022/06/01/b.jpg"]
      (mkNamespace false false (PyInt 1900000) (PyInt 1))
    = Ok ([(Path_of "2022/06/01/a.jpg",
            mkPath (root (Path_of (DEST_DIR "kester")))
                   (comps (Path_of (DEST_DIR "kester"))
                      ++ ["subdir00"; "2022-06-01-a.jpg"]));
           (Path_of "2022/06/01/b.jpg",
            mkPath (root (Path_of (DEST_DIR "kester")))
                   (comps (Path_of (DEST_DIR "kester"))
                      ++ ["subdir01"; "2022-06-01-b.jpg"]))], fs').
Proof.
  apply (two_sources_capacity_one slugify_model "kester" _
           (mkNamespace false false (PyInt 1900000) (PyInt 1))).
  - reflexivity.
  - reflexivity.
  - reflexivity.
  - apply dirs_ready_singleton.
Defined.

(** The destinations of the example, spelled out for one login name. *)
Example two_sources_paths :
  (λ r, match r with
        | Ok (plan, _) => Some (map (λ od, as_posix (snd od)) plan)
        | Raise _ => None
        end)
    (get_dest_filenames slugify_model "kester"
       {[ "/home/kester/Dropbox/five-star-pics" := Dir ]}
       [Path_of "2022/06/01/a.jpg"; Path_of "2022/06/01/b.jpg"]
       (mkNamespace false false (PyInt 1900000) (PyInt 1)))
  = Some ["/home/kester/Dropbox/five-star-pics/subdir00/2022-06-01-a.jpg";
          "/home/kester/Dropbox/five-star-pics/subdir01/2022-06-01-b.jpg"].
Proof. vm_compute. reflexivity. Qed.

(** C5: for every source list and every positive bucket capacity, the item
    at position [i] is assigned bucket [i // capacity] (its destination is
    the bucket directory of that number joined with its file name), the
    assignment succeeds whenever the bucket directories can be used, and
    the bucket numbers never decrease along the list. *)
Theorem bucket_number_assignment slugify USER fs files args capacity :
  (0 < capacity)%Z → pics_per_subdir args = PyInt capacity →
  (dirs_ready USER fs →
   ∃ plan fs', get_dest_filenames slugify USER fs files args = Ok (plan, fs')) ∧
  (∀ plan fs', get_dest_filenames slugify USER fs files args = Ok (plan, fs') →
     ∀ (i : nat) orig, files !! i = Some orig →
       plan !! i = Some (orig,
                         Path_join (pic_dir_of USER (Z.of_nat i / capacity))
                                   (dest_slug slugify orig))) ∧
  (∀ i j : nat, i ≤ j → (Z.of_nat i / capacity ≤ Z.of_nat j / capacity)%Z).
Proof.
  intros Hpos Hcap. split; [|split].
  - intros Hready.
    destruct (dest_names_from_total slugify USER args capacity Hcap ltac:(lia)
                files fs 0%nat Hready) as (fs' & Heq & _).
    eauto.
  - intros plan fs' Hrun i orig Hi.
    apply (dest_names_from_spec slugify USER args capacity Hcap) in Hrun as (-> & _).
    unfold plan_from. rewrite list_lookup_imap, Hi. done.
  - intros i j Hij. apply Z.div_le_mono; lia.
Qed.

Lemma bucket_number_assignment_witness :
  ∃ plan fs',
    get_dest_filenames slugify_model "u" {[ as_posix (Path_of (DEST_DIR "u")) := Dir ]}
      (map Path_of ["2022/06/01/a.jpg"; "2022/06/01/b.jpg"; "2022/06/02/c.jpg"])
      (mkNamespace false false (PyInt 1900000) (PyInt 2)) = Ok (plan, fs') ∧
    plan !! 2%nat =
      Some (Path_of "2022/06/02/c.jpg",
            Path_join (pic_dir_of "u" (Z.of_nat 2 / 2))
                      (dest_slug slugify_model (Path_of "2022/06/02/c.jpg"))).
Proof.
  destruct (bucket_number_assignment slugify_model "u"
    {[ as_posix (Path_of (DEST_DIR "u")) := Dir ]}
    (map Path_of ["2022/06/01/a.jpg"; "2022/06/01/b.jpg"; "2022/06/02/c.jpg"])
    (mkNamespace false false (PyInt 1900000) (PyInt 2)) 2
    ltac:(lia) eq_refl) as (Htotal & Hlookup & _).
  destruct (Htotal (dirs_ready_singleton "u")) as (plan & fs' & Hrun).
  exists plan, fs'. split; [exact Hrun|].
  exact (Hlookup plan fs' Hrun 2%nat _ eq_refl).
Defined.

(** ** Binary64 rounding

    The rounding step of [SpecFloat] is related to exact rational values:
    in the normal range, the result of a division or a product is within a
    relative error of [2^-53] of the exact one. *)

Section Rounding.
Local Open Scope Z_scope.

Lemma bpow_pos e : (0 < bpow e)%Q.
Proof. apply Qpower_0_lt. reflexivity. Qed.

Lemma bpow_add a b : (bpow (a + b) == bpow a * bpow b)%Q.
Proof. apply Qpower_plus. discriminate. Qed.

Lemma bpow_succ e : (bpow (e + 1) == 2 * bpow e)%Q.
Proof. rewrite bpow_add. unfold bpow at 2. simpl. ring. Qed.

Lemma bpow_le a b : a <= b -> (bpow a <= bpow b)%Q.
Proof. intros. apply Qpower_le_compat_l; [done|]. discriminate. Qed.

Lemma bpow_lt_inv a b : (bpow a < bpow b)%Q -> a < b.
Proof. intros. eapply Qpower_lt_compat_l_inv; [exact H|reflexivity]. Qed.

Lemma bpow_Z n : 0 <= n -> (bpow n == inject_Z (2 ^ n))%Q.
Proof. intros. unfold bpow. rewrite Zpower_Qpower by done. reflexivity. Qed.

(** Digit counts *)
Lemma digits2_pos_size p : digits2_pos p = Pos.size p.
Proof. induction p; simpl; congruence. Qed.

Lemma Zdigits2_bounds p :
  2 ^ (Zdigits2 (Zpos p) - 1) <= Zpos p < 2 ^ Zdigits2 (Zpos p).
Proof.
  simpl. rewrite digits2_pos_size.
  pose proof (Pos.size_gt p) as Hgt. pose proof (Pos.size_le p) as Hle.
  assert (Hpw : forall q, Zpos (2 ^ q) = 2 ^ Zpos q) by (intros; apply Pos2Z.inj_pow).
  apply Pos2Z.pos_lt_pos in Hgt. apply Pos2Z.pos_le_pos in Hle.
  rewrite Hpw in Hgt. rewrite Hpw in Hle.
  replace (Zpos (Pos.size p)) with ((Zpos (Pos.size p) - 1) + 1) in Hle by lia.
  rewrite Z.pow_add_r in Hle by lia. lia.
Qed.

Lemma Zdigits2_unique p d :
  2 ^ (d - 1) <= Zpos p < 2 ^ d -> Zdigits2 (Zpos p) = d.
Proof.
  intros [Hlo Hhi]. pose proof (Zdigits2_bounds p) as [Hlo' Hhi'].
  assert (0 < Zdigits2 (Zpos p)) by (simpl; lia).
  assert (0 < d).
  { destruct (Z.lt_trichotomy 0 d) as [?|[<-|?]]; [done|simpl in Hhi; lia|].
    rewrite Z.pow_neg_r in Hhi by done. lia. }
  assert (Zdigits2 (Zpos p) - 1 < d).
  { apply (Z.pow_lt_mono_r_iff 2); lia. }
  assert (d - 1 < Zdigits2 (Zpos p)).
  { apply (Z.pow_lt_mono_r_iff 2); lia. }
  lia.
Qed.


Lemma shr_1_nonneg mrs :
  0 <= shr_m mrs ->
  shr_1 mrs = {| shr_m := Z.div2 (shr_m mrs); shr_r := Z.odd (shr_m mrs);
                 shr_s := shr_r mrs || shr_s mrs |}.
Proof. destruct mrs as [[|[p|p|]|p] r s]; simpl; intros; (lia || reflexivity). Qed.

Lemma Loc_shr_1 mrs e v :
  0 <= shr_m mrs -> Loc mrs e v -> Loc (shr_1 mrs) (e + 1) v.
Proof.
  intros Hm HL. rewrite shr_1_nonneg by done.
  destruct mrs as [m r s]. unfold Loc in *. simpl in *.
  pose proof (Z.div2_odd m) as Hdiv. set (m' := Z.div2 m) in *. set (b := Z.odd m) in *.
  rewrite Hdiv in HL. clearbody m' b. clear Hdiv Hm.
  pose proof (bpow_pos e) as HP. pose proof (bpow_succ e) as HS.
  set (P := bpow e) in *. set (P' := bpow (e + 1)) in *. clearbody P P'.
  destruct r, s, b; cbn [Z.b2z orb shr_m shr_r shr_s] in *; rewrite HS;
    rewrite ?inject_Z_plus, ?inject_Z_mult, ?inject_Z_plus, ?inject_Z_mult in *;
    change (inject_Z 2) with 2%Q in *; change (inject_Z 1) with 1%Q in *;
    change (inject_Z 0) with 0%Q in *;
    set (M := inject_Z m') in *; clearbody M; try split; nra.
Qed.

Lemma iter_pos_invariant {A} (f : A -> A) (P : A -> Z -> Prop) :
  (forall x k, P x k -> P (f x) (k + 1)) ->
  forall p x k, P x k -> P (iter_pos f p x) (k + Zpos p).
Proof.
  intros Hstep. induction p as [p IH|p IH|]; intros x k Hx; simpl.
  - replace (k + Zpos p~1) with (k + 1 + Zpos p + Zpos p) by lia. auto.
  - replace (k + Zpos p~0) with (k + Zpos p + Zpos p) by lia. auto.
  - auto.
Qed.

Lemma shr_spec mrs e n v :
  0 <= shr_m mrs -> 0 <= n -> Loc mrs e v ->
  let '(mrs', e') := shr mrs e n in
  e' = e + n /\ shr_m mrs' = shr_m mrs / 2 ^ n /\ Loc mrs' e' v.
Proof.
  intros Hm Hn HL. destruct n as [|p|p]; simpl; [| |lia].
  - rewrite Z.add_0_r, Z.div_1_r. done.
  - split; [done|].
    pose proof (iter_pos_invariant shr_1
      (fun x k => 0 <= k /\ shr_m x = shr_m mrs / 2 ^ k /\ Loc x (e + k) v)) as Hit.
    destruct (Hit) with (p := p) (x := mrs) (k := 0) as (_ & H1 & H2).
    + intros x k (Hk & Hx & HLx). split; [lia|].
      assert (0 <= shr_m x) by (rewrite Hx; apply Z.div_pos; lia).
      split.
      * rewrite shr_1_nonneg by done. simpl. rewrite Z.div2_div, Hx.
        rewrite Z.pow_add_r by lia. rewrite Z.div_div by lia. done.
      * rewrite Z.add_assoc. by apply Loc_shr_1.
    + rewrite Z.add_0_r, Z.div_1_r. done.
    + simpl in H1, H2. done.
Qed.

(** Rounding to nearest even *)

Lemma fexp_normal e : 3 - emax - prec <= e - prec -> fexp prec emax e = e - prec.
Proof. unfold fexp, SpecFloat.emin. lia. Qed.

Lemma round_aux_finish sx m2 e1 :
  2 ^ 52 <= m2 <= 2 ^ 53 -> 3 - emax - prec <= e1 -> e1 + 1 <= emax - prec ->
  exists m e,
    (let '(mrs, e'') := shr_fexp prec emax m2 e1 loc_Exact in
     match shr_m mrs with
     | Z0 => S754_zero sx
     | Zpos m => if e'' <=? emax - prec then S754_finite sx m e'' else S754_infinity sx
     | Zneg _ => S754_nan
     end) = S754_finite sx m e
    /\ 2 ^ 52 <= Zpos m < 2 ^ 53 /\ (F2Q (Zpos m) e == F2Q m2 e1)%Q.
Proof.
  intros Hm Hlo Hhi. destruct (Z.eq_dec m2 (2 ^ 53)) as [->|Hne].
  - exists (2 ^ 52)%positive, (e1 + 1). unfold shr_fexp.
    change (Zdigits2 (2 ^ 53)) with 54.
    rewrite fexp_normal by (unfold prec, emax in *; lia).
    replace (54 + e1 - prec - e1) with 1 by (unfold prec; lia).
    cbn -[Z.leb Z.pow Pos.pow]. 
    replace (e1 + 1 <=? emax - prec) with true by (symmetry; apply Z.leb_le; lia).
    split; [done|]. split; [done|].
    unfold F2Q. rewrite bpow_succ. 
    change (inject_Z (Z.pos (2 ^ 52))) with (inject_Z (2 ^ 52)).
    change (inject_Z (2 ^ 53)) with (2 * inject_Z (2 ^ 52))%Q. ring.
  - destruct m2 as [|p|p]; try (exfalso; lia).
    exists p, e1. unfold shr_fexp.
    rewrite (Zdigits2_unique p 53) by (simpl; lia).
    rewrite fexp_normal by (unfold prec, emax in *; lia).
    replace (53 + e1 - prec - e1) with 0 by (unfold prec; lia).
    cbn -[Z.leb Z.pow Pos.pow].
    replace (e1 <=? emax - prec) with true by (symmetry; apply Z.leb_le; lia).
    split; [done|]. split; [lia|done].
Qed.

Lemma round_nearest_even_spec mrs e v :
  2 ^ 52 <= shr_m mrs -> Loc mrs e v ->
  let m2 := round_nearest_even (shr_m mrs) (loc_of_shr_record mrs) in
  shr_m mrs <= m2 <= shr_m mrs + 1 /\
  (v * (1 - u53) <= F2Q m2 e <= v * (1 + u53))%Q.
Proof.
  intros Hm HL. destruct mrs as [m r s]. unfold Loc, F2Q in *.
  cbn [shr_m shr_r shr_s] in *.
  assert (HM : (inject_Z (2 ^ 52) <= inject_Z m)%Q) by (rewrite <- Zle_Qle; done).
  pose proof (bpow_pos e) as HP. set (P := bpow e) in *. clearbody P.
  assert (HX : (inject_Z (2 ^ 52) * P <= inject_Z m * P)%Q)
    by (apply Qmult_le_compat_r; [done|lra]).
  change (inject_Z (2 ^ 52)) with (4503599627370496%Q) in *.
  change u53 with (1 # 9007199254740992)%Q.
  destruct r, s; cbn [loc_of_shr_record round_nearest_even Z.b2z] in *;
    try destruct (Z.even m);
    (split; [lia|]);
    rewrite ?inject_Z_plus, ?inject_Z_mult in *;
    change (inject_Z 2) with 2%Q in *; change (inject_Z 1) with 1%Q in *;
    change (inject_Z 0) with 0%Q in *;
    set (M := inject_Z m) in *; clearbody M.
  all: split; nra.
Qed.

Lemma shr_m_record_of_loc m l : shr_m (shr_record_of_loc m l) = m.
Proof. by destruct l as [|[]]. Qed.

Lemma round_aux_spec sx mx ex lx v :
  prec <= Zdigits2 (Zpos mx) ->
  3 - emax <= Zdigits2 (Zpos mx) + ex <= emax - 1 ->
  Loc (shr_record_of_loc (Zpos mx) lx) ex v ->
  exists m e,
    binary_round_aux prec emax sx (Zpos mx) ex lx = S754_finite sx m e
    /\ 2 ^ 52 <= Zpos m < 2 ^ 53
    /\ (v * (1 - u53) <= F2Q (Zpos m) e <= v * (1 + u53))%Q.
Proof.
  intros Hd Hrange HL. unfold binary_round_aux.
  pose proof (Zdigits2_bounds mx) as Hb.
  set (d := Zdigits2 (Zpos mx)) in *.
  unfold shr_fexp at 1. fold d.
  rewrite fexp_normal by (unfold prec, emax in *; lia).
  pose proof (shr_spec (shr_record_of_loc (Zpos mx) lx) ex (d + ex - prec - ex) v) as Hs.
  rewrite shr_m_record_of_loc in Hs.
  destruct (shr _ ex _) as [mrs1 e1].
  destruct Hs as (He1 & Hm1 & HL1); [lia|unfold prec in *; lia|done|].
  assert (Hm1b : 2 ^ 52 <= shr_m mrs1 < 2 ^ 53).
  { rewrite Hm1. replace (d + ex - prec - ex) with (d - 53) by (unfold prec; lia).
    assert (0 < 2 ^ (d - 53)) by (apply Z.pow_pos_nonneg; unfold prec in *; lia).
    split.
    - apply Z.div_le_lower_bound; [done|].
      rewrite <- Z.pow_add_r by (unfold prec in *; lia).
      replace (d - 53 + 52) with (d - 1) by lia. lia.
    - apply Z.div_lt_upper_bound; [done|].
      rewrite <- Z.pow_add_r by (unfold prec in *; lia).
      replace (d - 53 + 53) with d by lia. lia. }
  destruct (round_nearest_even_spec mrs1 e1 v) as [Hm2 Hv]; [lia|done|].
  set (m2 := round_nearest_even _ _) in *. clearbody m2.
  destruct (round_aux_finish sx m2 e1) as (m & e & Heq & Hmb & HF);
    [lia|unfold prec, emax in *; lia|unfold prec, emax in *; lia|].
  exists m, e. split; [exact Heq|]. split; [done|]. by rewrite HF.
Qed.

Lemma round_aux_exact sx m e :
  2 ^ 52 <= Zpos m < 2 ^ 53 -> 3 - emax - prec <= e <= emax - prec ->
  binary_round_aux prec emax sx (Zpos m) e loc_Exact = S754_finite sx m e.
Proof.
  intros Hm He. unfold binary_round_aux, shr_fexp.
  rewrite (Zdigits2_unique m 53) by (simpl; lia).
  rewrite fexp_normal by (unfold prec, emax in *; lia).
  replace (53 + e - prec - e) with 0 by (unfold prec; lia).
  cbn -[Z.leb Z.pow Pos.pow Zdigits2 fexp].
  rewrite (Zdigits2_unique m 53) by (simpl; lia).
  rewrite fexp_normal by (unfold prec, emax in *; lia).
  replace (53 + e - prec - e) with 0 by (unfold prec; lia).
  cbn -[Z.leb Z.pow Pos.pow].
  replace (e <=? emax - prec) with true by (symmetry; apply Z.leb_le; lia).
  done.
Qed.

Lemma Pos_iter_xO m d : Zpos (Pos.iter xO m d) = Zpos m * 2 ^ Zpos d.
Proof.
  induction d as [|d IH] using Pos.peano_ind.
  - simpl. lia.
  - rewrite Pos.iter_succ, Pos2Z.inj_xO, IH, Pos2Z.inj_succ, Z.pow_succ_r by lia. lia.
Qed.

Lemma bpow_opp_Z n : 0 <= n -> (inject_Z (2 ^ n) * bpow (- n) == 1)%Q.
Proof.
  intros. rewrite <- bpow_Z by done. rewrite <- bpow_add.
  replace (n + - n) with 0 by lia. reflexivity.
Qed.

Lemma binary_normalize_exact w :
  Zpos w < 2 ^ 53 ->
  exists m e,
    binary_normalize prec emax (Zpos w) 0 false = S754_finite false m e
    /\ 2 ^ 52 <= Zpos m < 2 ^ 53 /\ -52 <= e <= 0
    /\ (F2Q (Zpos m) e == inject_Z (Zpos w))%Q.
Proof.
  intros Hw. unfold binary_normalize, binary_round.
  pose proof (Zdigits2_bounds w) as Hb. 
  change (Zpos (digits2_pos w)) with (Zdigits2 (Zpos w)).
  set (d := Zdigits2 (Zpos w)) in *.
  assert (Hd : 1 <= d <= 53).
  { split; [unfold d; simpl; lia|].
    assert (d - 1 < 53); [|lia]. apply (Z.pow_lt_mono_r_iff 2); lia. }
  rewrite fexp_normal by (unfold prec, emax; lia).
  unfold shl_align. rewrite Z.add_0_r, Z.sub_0_r.
  destruct (d - prec) as [|k|k] eqn:Hk; try (unfold prec in *; lia).
  - assert (d = 53) as Hd53 by (unfold prec in *; lia). rewrite Hd53 in Hb.
    exists w, 0. rewrite round_aux_exact by (unfold prec, emax; simpl in *; lia).
    split; [done|]. split; [simpl in *; lia|]. split; [lia|].
    unfold F2Q. change (bpow 0) with 1%Q. ring.
  - pose proof (Pos_iter_xO w k) as Hit.
    assert (Hkd : Zpos k = 53 - d) by (unfold prec in *; lia).
    assert (Hmz : 2 ^ 52 <= Zpos (Pos.iter xO w k) < 2 ^ 53).
    { rewrite Hit, Hkd.
      replace 52 with ((d - 1) + (53 - d)) at 1 by lia.
      replace 53 with (d + (53 - d)) at 4 by lia.
      rewrite !Z.pow_add_r by lia.
      assert (0 < 2 ^ (53 - d)) by (apply Z.pow_pos_nonneg; lia). nia. }
    exists (Pos.iter xO w k), (Zneg k).
    rewrite round_aux_exact by (unfold prec, emax; lia).
    split; [done|]. split; [done|]. split; [lia|].
    unfold F2Q. rewrite Hit, inject_Z_mult.
    change (Zneg k) with (- Zpos k). rewrite <- Qmult_assoc, bpow_opp_Z by lia. ring.
Qed.

(** Division *)
Lemma new_location_spec n r :
  0 < n -> 0 <= r < n ->
  match new_location n r with
  | loc_Exact => r = 0
  | loc_Inexact Lt => 0 < 2 * r < n
  | loc_Inexact Eq => 2 * r = n
  | loc_Inexact Gt => n < 2 * r
  end.
Proof.
  intros Hn Hr. unfold new_location, new_location_even, new_location_odd.
  destruct (Z.even n) eqn:Hev; destruct (Z.eqb_spec r 0) as [->|Hr0]; try done.
  - destruct (Z.compare_spec (2 * r) n); lia.
  - assert (Hodd : Z.odd n = true) by (rewrite <- Z.negb_even, Hev; done).
    apply Z.odd_spec in Hodd as [k ->].
    destruct (Z.compare_spec (2 * r + 1) (2 * k + 1)); lia.
Qed.

Lemma div_core_spec (a b : positive) :
  let d1 := Zdigits2 (Zpos a) in
  let d2 := Zdigits2 (Zpos b) in
  d1 <= d2 + 53 -> d2 - d1 <= 1000 ->
  let '(q, e, l) := SFdiv_core_binary prec emax (Zpos a) 0 (Zpos b) 0 in
  e = d1 - d2 - 53 /\ 2 ^ 52 <= q < 2 ^ 54 /\
  Loc (shr_record_of_loc q l) e (inject_Z (Zpos a) / inject_Z (Zpos b)).
Proof.
  intros d1 d2 H1 H2. unfold SFdiv_core_binary. fold d1 d2.
  rewrite !Z.add_0_r, Z.sub_0_r.
  rewrite fexp_normal by (unfold prec, emax; lia).
  rewrite Z.min_l by (unfold prec; lia).
  set (s := 0 - (d1 - d2 - prec)).
  assert (Hs : s = 53 + d2 - d1) by (unfold s, prec; lia).
  assert (Hm' : match s with Z.pos _ => Z.shiftl (Zpos a) s | 0 => Zpos a | Z.neg _ => 0 end
                = Zpos a * 2 ^ s).
  { destruct s eqn:E; try lia. rewrite Z.shiftl_mul_pow2 by lia. done. }
  rewrite Hm'. clear Hm'.
  pose proof (Z.div_eucl_eq (Zpos a * 2 ^ s) (Zpos b) ltac:(lia)) as Heq.
  pose proof (Z.mod_pos_bound (Zpos a * 2 ^ s) (Zpos b) ltac:(lia)) as Hr.
  unfold Z.modulo in Hr. destruct (Z.div_eucl _ _) as [q r].
  pose proof (Zdigits2_bounds a) as Ha. pose proof (Zdigits2_bounds b) as Hb.
  fold d1 in Ha. fold d2 in Hb.
  assert (Hd1 : 1 <= d1) by (unfold d1; simpl; lia).
  assert (Hd2 : 1 <= d2) by (unfold d2; simpl; lia).
  assert (Hp : 0 < 2 ^ s) by (apply Z.pow_pos_nonneg; lia).
  split; [unfold prec; lia|]. split.
  - assert (Hlo : 2 ^ 52 * 2 ^ d2 <= Zpos a * 2 ^ s).
    { rewrite <- Z.pow_add_r by lia. replace (52 + d2) with ((d1 - 1) + s) by lia.
      rewrite Z.pow_add_r by lia. nia. }
    assert (Hhi : Zpos a * 2 ^ s < 2 ^ 54 * 2 ^ (d2 - 1)).
    { rewrite <- Z.pow_add_r by lia. replace (54 + (d2 - 1)) with (d1 + s) by lia.
      rewrite Z.pow_add_r by lia. nia. }
    assert (0 < 2 ^ d2) by (apply Z.pow_pos_nonneg; lia).
    assert (0 < 2 ^ (d2 - 1)) by (apply Z.pow_pos_nonneg; lia).
    split; nia.
  - pose proof (new_location_spec (Zpos b) r ltac:(lia) Hr) as Hloc.
    replace (d1 - d2 - prec) with (- s) by lia.
    assert (HA : (inject_Z (Zpos a) == inject_Z (Zpos b * q + r) * bpow (- s))%Q).
    { rewrite <- Heq, inject_Z_mult, <- Qmult_assoc, bpow_opp_Z by lia. ring. }
    unfold Loc.
    pose proof (bpow_pos (- s)) as HP. set (P := bpow (- s)) in *. clearbody P.
    assert (HB : (0 < inject_Z (Zpos b))%Q) by (rewrite <- (Zlt_Qlt 0); lia).
    set (v := (inject_Z (Zpos a) / inject_Z (Zpos b))%Q).
    assert (Hv : (v * inject_Z (Zpos b) == inject_Z (Zpos b * q + r) * P)%Q).
    { rewrite <- HA. unfold v. field. lra. }
    rewrite inject_Z_plus, inject_Z_mult in Hv.
    assert (HR : (0 <= inject_Z r)%Q) by (rewrite <- (Zle_Qle 0); lia).
    destruct (new_location _ r) as [|[]]; cbn [shr_record_of_loc shr_m shr_r shr_s Z.b2z].
    all: rewrite ?inject_Z_plus, ?inject_Z_mult.
    all: change (inject_Z 2) with 2%Q; change (inject_Z 1) with 1%Q;
         change (inject_Z 0) with 0%Q.
    + subst r. change (inject_Z 0) with 0%Q in Hv.
      apply (Qmult_inj_r _ _ (inject_Z (Zpos b))); [lra|].
      rewrite <- Qmult_assoc, Hv. ring.
    + assert (HE : (2 * inject_Z r == inject_Z (Zpos b))%Q)
        by (rewrite <- Hloc, inject_Z_mult; reflexivity).
      apply (Qmult_inj_r _ _ (inject_Z (Zpos b))); [lra|].
      rewrite <- Qmult_assoc, Hv, <- HE. ring.
    + assert (HE : (0 < 2 * inject_Z r < inject_Z (Zpos b))%Q).
      { change 2%Q with (inject_Z 2). change 0%Q with (inject_Z 0).
        rewrite <- inject_Z_mult, <- !Zlt_Qlt. lia. }
      set (B := inject_Z (Zpos b)) in *. set (R := inject_Z r) in *.
      set (Q0 := inject_Z q) in *. clearbody B R Q0 v.
      destruct HE as [HE1 HE2].
      apply (Qmult_lt_compat_r _ _ P) in HE1; [|done].
      apply (Qmult_lt_compat_r _ _ P) in HE2; [|done].
      assert (E : (2 * v * B == 2 * ((B * Q0 + R) * P))%Q) by (rewrite <- Hv; ring).
      split; apply (Qmult_lt_r _ _ B); try done; rewrite E; nra.
    + assert (HE : (inject_Z (Zpos b) < 2 * inject_Z r < 2 * inject_Z (Zpos b))%Q).
      { change 2%Q with (inject_Z 2). rewrite <- !inject_Z_mult, <- !Zlt_Qlt. lia. }
      set (B := inject_Z (Zpos b)) in *. set (R := inject_Z r) in *.
      set (Q0 := inject_Z q) in *. clearbody B R Q0 v.
      destruct HE as [HE1 HE2].
      apply (Qmult_lt_compat_r _ _ P) in HE1; [|done].
      apply (Qmult_lt_compat_r _ _ P) in HE2; [|done].
      assert (E : (2 * v * B == 2 * ((B * Q0 + R) * P))%Q) by (rewrite <- Hv; ring).
      split; apply (Qmult_lt_r _ _ B); try done; rewrite E; nra.
Qed.

Lemma Loc_bounds m l e v :
  Loc (shr_record_of_loc m l) e v ->
  (inject_Z m * bpow e <= v < (inject_Z m + 1) * bpow e)%Q.
Proof.
  unfold Loc. pose proof (bpow_pos e) as HP. set (P := bpow e) in *. clearbody P.
  destruct l as [|[]]; cbn [shr_record_of_loc shr_m shr_r shr_s Z.b2z];
    rewrite ?inject_Z_plus, ?inject_Z_mult;
    change (inject_Z 2) with 2%Q; change (inject_Z 1) with 1%Q;
    change (inject_Z 0) with 0%Q; set (M := inject_Z m); clearbody M;
    intros H; split; nra.
Qed.

Lemma round_aux_normal sx mx ex lx v :
  prec <= Zdigits2 (Zpos mx) ->
  Loc (shr_record_of_loc (Zpos mx) lx) ex v ->
  (bpow (2 - emax) <= v < bpow (emax - 1))%Q ->
  exists m e,
    binary_round_aux prec emax sx (Zpos mx) ex lx = S754_finite sx m e
    /\ 2 ^ 52 <= Zpos m < 2 ^ 53
    /\ (v * (1 - u53) <= F2Q (Zpos m) e <= v * (1 + u53))%Q.
Proof.
  intros Hd HL [Hlo Hhi]. apply round_aux_spec; [done| |done].
  pose proof (Loc_bounds _ _ _ _ HL) as [Hv1 Hv2].
  pose proof (Zdigits2_bounds mx) as [Hb1 Hb2].
  set (d := Zdigits2 (Zpos mx)) in *.
  assert (Hd1 : 0 <= d - 1) by (unfold prec in *; lia).
  assert (H1 : (bpow (d - 1 + ex) <= v)%Q).
  { rewrite bpow_add, bpow_Z by done. eapply Qle_trans; [|exact Hv1].
    apply Qmult_le_compat_r; [|pose proof (bpow_pos ex); lra].
    rewrite <- Zle_Qle. done. }
  assert (H2 : (v < bpow (d + ex))%Q).
  { rewrite bpow_add, bpow_Z by lia. eapply Qlt_le_trans; [exact Hv2|].
    apply Qmult_le_compat_r; [|pose proof (bpow_pos ex); lra].
    change 1%Q with (inject_Z 1). rewrite <- inject_Z_plus, <- Zle_Qle. lia. }
  assert (2 - emax < d + ex) by (apply bpow_lt_inv; lra).
  assert (d - 1 + ex < emax - 1) by (apply bpow_lt_inv; lra).
  lia.
Qed.

Lemma Zdigits2_ge p n : 0 <= n -> 2 ^ n <= Zpos p -> n + 1 <= Zdigits2 (Zpos p).
Proof.
  intros Hn Hp. pose proof (Zdigits2_bounds p) as [_ Hb].
  assert (n < Zdigits2 (Zpos p)); [|lia].
  apply (Z.pow_lt_mono_r_iff 2); [lia|simpl; lia|lia].
Qed.

Lemma Zdigits2_mono p q : Zpos p <= Zpos q -> Zdigits2 (Zpos p) <= Zdigits2 (Zpos q).
Proof.
  intros Hpq. pose proof (Zdigits2_bounds p) as [Hp _].
  pose proof (Zdigits2_bounds q) as [_ Hq].
  assert (Zdigits2 (Zpos p) - 1 < Zdigits2 (Zpos q)); [|lia].
  apply (Z.pow_lt_mono_r_iff 2); [lia|simpl; lia|lia].
Qed.

Lemma Zdigits2_le p n : 0 <= n -> Zpos p < 2 ^ n -> Zdigits2 (Zpos p) <= n.
Proof.
  intros Hn Hp. pose proof (Zdigits2_bounds p) as [Hb _].
  assert (Zdigits2 (Zpos p) - 1 < n); [|lia].
  apply (Z.pow_lt_mono_r_iff 2); lia.
Qed.

(** Correctly rounded quotient of two positive integers. *)
Lemma SFdiv_int_spec sa sb (a b : positive) :
  Zpos a <= Zpos b -> Zpos b < 2 ^ 1000 ->
  exists m e,
    SFdiv prec emax (S754_finite sa a 0) (S754_finite sb b 0)
      = S754_finite (xorb sa sb) m e
    /\ 2 ^ 52 <= Zpos m < 2 ^ 53
    /\ let v := (inject_Z (Zpos a) / inject_Z (Zpos b))%Q in
       (v * (1 - u53) <= F2Q (Zpos m) e <= v * (1 + u53))%Q.
Proof.
  intros Hab Hb. unfold SFdiv.
  pose proof (div_core_spec a b) as Hc. cbv zeta in Hc.
  pose proof (Zdigits2_mono a b Hab) as Hmono.
  pose proof (Zdigits2_le b 1000 ltac:(lia) Hb) as Hd2.
  assert (Hd1 : 1 <= Zdigits2 (Zpos a)) by (simpl; lia).
  destruct (SFdiv_core_binary _ _ _ _ _ _) as [[q e] l].
  destruct Hc as (He & Hq & HL); [lia|lia|].
  destruct q as [|q|q]; try lia.
  apply round_aux_spec; [|subst e|done].
  - pose proof (Zdigits2_ge q 52 ltac:(lia) ltac:(lia)). unfold prec. lia.
  - pose proof (Zdigits2_ge q 52 ltac:(lia) ltac:(lia)).
    pose proof (Zdigits2_le q 54 ltac:(lia) ltac:(lia)). unfold emax. lia.
Qed.

(** Product of two normal numbers. *)
Lemma SFmul_spec s1 m1 e1 s2 m2 e2 :
  2 ^ 52 <= Zpos m1 < 2 ^ 53 -> 2 ^ 52 <= Zpos m2 < 2 ^ 53 ->
  let v := (F2Q (Zpos m1) e1 * F2Q (Zpos m2) e2)%Q in
  (bpow (2 - emax) <= v < bpow (emax - 1))%Q ->
  exists m e,
    SFmul prec emax (S754_finite s1 m1 e1) (S754_finite s2 m2 e2)
      = S754_finite (xorb s1 s2) m e
    /\ 2 ^ 52 <= Zpos m < 2 ^ 53
    /\ (v * (1 - u53) <= F2Q (Zpos m) e <= v * (1 + u53))%Q.
Proof.
  intros H1 H2 v Hv. unfold SFmul. apply round_aux_normal; [| |done].
  - assert (2 ^ 104 <= Zpos (m1 * m2)).
    { rewrite Pos2Z.inj_mul. change (2 ^ 104) with (2 ^ 52 * 2 ^ 52). nia. }
    pose proof (Zdigits2_ge (m1 * m2) 104 ltac:(lia) ltac:(lia)). unfold prec. lia.
  - unfold Loc, v, F2Q. cbn [shr_record_of_loc shr_m shr_r shr_s Z.b2z].
    rewrite bpow_add, Pos2Z.inj_mul, ?inject_Z_plus, ?inject_Z_mult.
    change (inject_Z 0) with 0%Q. change (inject_Z 2) with 2%Q. ring.
Qed.

End Rounding.

(** ** The requested size *)

Section NewSize.
Local Open Scope Z_scope.

Lemma int_of_float_spec m e :
  ∃ t, int_of_float (S754_finite false m e) = Ok t ∧
       (inject_Z t <= F2Q (Zpos m) e < inject_Z t + 1)%Q.
Proof.
  exists (Z.shiftl (Zpos m) e). split; [done|]. unfold F2Q.
  destruct (Z.le_gt_cases 0 e) as [He|He].
  - rewrite Z.shiftl_mul_pow2, inject_Z_mult, bpow_Z by done. lra.
  - assert (Hsh : Z.shiftl (Zpos m) e = Zpos m / 2 ^ (- e)).
    { rewrite <- (Z.opp_involutive e) at 1. rewrite Z.shiftl_opp_r.
      apply Z.shiftr_div_pow2. lia. }
    rewrite Hsh. set (D := 2 ^ (- e)).
    assert (HD : 0 < D) by (apply Z.pow_pos_nonneg; lia).
    pose proof (Z.mul_div_le (Zpos m) D HD) as Hlo.
    pose proof (Z.mul_succ_div_gt (Zpos m) D HD) as Hhi.
    set (t := Zpos m / D) in *.
    assert (HQ : (inject_Z D * bpow e == 1)%Q).
    { rewrite <- (Z.opp_involutive e) at 1. apply bpow_opp_Z. lia. }
    pose proof (bpow_pos e) as HP. set (P := bpow e) in *. clearbody P.
    assert (H1 : (inject_Z (D * t) <= inject_Z (Zpos m))%Q) by (rewrite <- Zle_Qle; lia).
    assert (H2 : (inject_Z (Zpos m) < inject_Z (D * (t + 1)))%Q)
      by (rewrite <- Zlt_Qlt; lia).
    rewrite inject_Z_mult in H1, H2. rewrite inject_Z_plus in H2.
    change (inject_Z 1) with 1%Q in H2.
    apply (Qmult_le_compat_r _ _ P) in H1; [|lra].
    apply (Qmult_lt_compat_r _ _ P) in H2; [|lra].
    set (T := inject_Z t) in *. set (M := inject_Z (Zpos m)) in *.
    set (DQ := inject_Z D) in *. clearbody T M DQ.
    assert (E1 : (DQ * T * P == T * (DQ * P))%Q) by ring.
    assert (E2 : (DQ * (T + 1) * P == (T + 1) * (DQ * P))%Q) by ring.
    rewrite E1 in H1. rewrite E2 in H2. rewrite HQ in H1, H2. lra.
Qed.

Lemma normal_range_lo : (bpow (2 - emax) <= 1 # (2 ^ 108))%Q.
Proof. vm_compute. discriminate. Qed.

Lemma normal_range_hi : (inject_Z (2 ^ 54) <= bpow (emax - 1))%Q.
Proof. vm_compute. discriminate. Qed.

(** One side of the new size: [int(ratio * side)] is the integer part of
    [limit / other_side], or one less. *)
Lemma scaled_side (l w h mr : positive) er :
  Zpos l < 2 ^ 52 → Zpos w < 2 ^ 53 → Zpos h < 2 ^ 53 →
  Zpos l < Zpos h * Zpos w →
  2 ^ 52 <= Zpos mr < 2 ^ 53 →
  (let v := inject_Z (Zpos l) / inject_Z (Zpos (h * w)) in
   v * (1 - u53) <= F2Q (Zpos mr) er <= v * (1 + u53))%Q →
  ∃ t, (float_mul_int (S754_finite false mr er) (Zpos w) ≫= int_of_float) = Ok t ∧
       0 <= t ∧ Zpos l / Zpos h - 1 <= t <= Zpos l / Zpos h.
Proof.
  intros Hl Hw Hh Hlt Hmr Hr. cbv zeta in Hr.
  destruct (binary_normalize_exact w Hw) as (mw & ew & Hfw & Hmw & Hew & Hvw).
  unfold float_mul_int, float_of_int. rewrite Hfw. cbn [mbind result_bind].
  (* the exact quantities, as rationals *)
  set (A := inject_Z (Zpos l)) in *. set (W := inject_Z (Zpos w)) in *.
  set (H := inject_Z (Zpos h)).
  assert (HA : (1 <= A <= 4503599627370495)%Q).
  { unfold A. change 1%Q with (inject_Z 1).
    change 4503599627370495%Q with (inject_Z (2 ^ 52 - 1)).
    rewrite <- !Zle_Qle. lia. }
  assert (HW : (1 <= W <= 9007199254740991)%Q).
  { unfold W. change 1%Q with (inject_Z 1).
    change 9007199254740991%Q with (inject_Z (2 ^ 53 - 1)).
    rewrite <- !Zle_Qle. lia. }
  assert (HH : (1 <= H <= 9007199254740991)%Q).
  { unfold H. change 1%Q with (inject_Z 1).
    change 9007199254740991%Q with (inject_Z (2 ^ 53 - 1)).
    rewrite <- !Zle_Qle. lia. }
  assert (HN : (inject_Z (Zpos (h * w)) == H * W)%Q)
    by (unfold H, W; rewrite Pos2Z.inj_mul, inject_Z_mult; reflexivity).
  assert (HAN : (A + 1 <= H * W)%Q).
  { rewrite <- HN. unfold A. change 1%Q with (inject_Z 1).
    rewrite <- inject_Z_plus, <- Zle_Qle. lia. }
  set (r := F2Q (Zpos mr) er) in *. rewrite HN in Hr.
  (* r * H * W lies within a factor (1 ± u) of A *)
  assert (HrN : (A * (1 - u53) <= r * (H * W) <= A * (1 + u53))%Q).
  { destruct Hr as [Hr1 Hr2].
    assert (HHW : (0 < H * W)%Q) by nra.
    apply (Qmult_le_compat_r _ _ (H * W)) in Hr1; [|lra].
    apply (Qmult_le_compat_r _ _ (H * W)) in Hr2; [|lra].
    assert (E : ∀ c, (A / (H * W) * c * (H * W) == A * c)%Q)
      by (intros c; field; lra).
    rewrite E in Hr1, Hr2. done. }
  clear Hr. change u53 with (1 # 9007199254740992)%Q in *.
  assert (Hr0 : (0 < r)%Q) by nra.
  (* the product is in the normal range *)
  pose proof normal_range_lo as Hnlo. pose proof normal_range_hi as Hnhi.
  change (inject_Z (2 ^ 54)) with 18014398509481984%Q in Hnhi.
  change (1 # 2 ^ 108)%Q with (1 # 324518553658426726783156020576256)%Q in Hnlo.
  assert (HrW : (r * W * H <= 4503599627370496)%Q) by nra.
  assert (HrWlo : ((1 # 2) <= r * W * H)%Q) by nra.
  destruct (SFmul_spec false mr er false mw ew Hmr Hmw) as (mx & ex & Hmul & Hmx & Hx).
  { cbv zeta. fold r. rewrite Hvw. fold W. split.
    - eapply Qle_trans; [exact Hnlo|].
      assert ((1 # 324518553658426726783156020576256) * H <= r * W * H)%Q by nra.
      apply (Qmult_le_r _ _ H); lra.
    - eapply Qlt_le_trans; [|exact Hnhi].
      assert (r * W * 1 <= r * W * H)%Q by (apply Qmult_le_l; nra). lra. }
  cbv zeta in Hx. fold r in Hx. rewrite Hvw in Hx. fold W in Hx.
  rewrite Hmul. cbn [xorb].
  destruct (int_of_float_spec mx ex) as (t & Ht & Htx).
  exists t. split; [exact Ht|].
  change u53 with (1 # 9007199254740992)%Q in *.
  set (x := F2Q (Zpos mx) ex) in *. clearbody x r.
  (* x * H is within (1 ± u)^2 of A, hence strictly between A - 1 and A + 1 *)
  assert (HxH : (A - 1 < x * H ∧ x * H < A + 1)%Q).
  { destruct Hx as [Hx1 Hx2]. destruct HrN as [Hn1 Hn2].
    apply (Qmult_le_compat_r _ _ H) in Hx1; [|lra].
    apply (Qmult_le_compat_r _ _ H) in Hx2; [|lra].
    assert (E : ∀ c, (r * W * c * H == r * (H * W) * c)%Q) by (intros c; ring).
    rewrite E in Hx1, Hx2. set (y := (r * (H * W))%Q) in *. clearbody y.
    split; nra. }
  set (K := Zpos l / Zpos h).
  pose proof (Z.mul_div_le (Zpos l) (Zpos h) ltac:(lia)) as HK1.
  pose proof (Z.mul_succ_div_gt (Zpos l) (Zpos h) ltac:(lia)) as HK2.
  fold K in HK1, HK2.
  assert (HK1q : (H * inject_Z K <= A)%Q)
    by (unfold H, A; rewrite <- inject_Z_mult, <- Zle_Qle; lia).
  assert (HK2q : (A + 1 <= H * (inject_Z K + 1))%Q).
  { unfold H, A. change 1%Q with (inject_Z 1).
    rewrite <- !inject_Z_plus, <- inject_Z_mult, <- Zle_Qle. lia. }
  destruct HxH as [HxH1 HxH2]. destruct Htx as [Htx1 Htx2].
  set (T := inject_Z t) in *. set (KQ := inject_Z K) in *.
  assert (Hup : (T < KQ + 1)%Q).
  { apply (Qmult_lt_l _ _ H); [lra|].
    assert (H * T <= x * H)%Q by nra. lra. }
  assert (Hdown : (KQ - 2 < T)%Q).
  { apply (Qmult_lt_l _ _ H); [lra|].
    assert (x * H < H * (T + 1))%Q by nra. nra. }
  assert (Hnn : (0 < T + 1)%Q).
  { assert (0 < x)%Q by (apply (Qmult_lt_r _ _ H); lra). lra. }
  unfold T, KQ in Hup, Hdown, Hnn.
  change 1%Q with (inject_Z 1) in Hup, Hnn. change 2%Q with (inject_Z 2) in Hdown.
  change 0%Q with (inject_Z 0) in Hnn.
  rewrite <- inject_Z_plus in Hup, Hnn.
  assert (E2 : (inject_Z K - inject_Z 2 == inject_Z (K - 2))%Q).
  { unfold Z.sub. rewrite inject_Z_plus, inject_Z_opp. reflexivity. }
  rewrite E2 in Hdown. rewrite <- Zlt_Qlt in Hup, Hdown, Hnn. lia.
Qed.

Lemma new_size_spec limit img :
  0 <= limit < 2 ^ 52 → 0 < width img < 2 ^ 53 → 0 < height img < 2 ^ 53 →
  limit < height img * width img →
  ∃ nw nh, new_size limit img = Ok (nw, nh) ∧
    0 <= nw ∧ limit / height img - 1 <= nw <= limit / height img ∧
    0 <= nh ∧ limit / width img - 1 <= nh <= limit / width img.
Proof.
  destruct img as [w h]. cbn [width height]. intros Hl Hw Hh Hlt.
  destruct w as [|w|w]; try lia. destruct h as [|h|h]; try lia.
  unfold new_size. cbn [width height].
  destruct limit as [|l|l]; try lia.
  - (* a zero budget: the ratio is 0.0 *)
    destruct (binary_normalize_exact w ltac:(lia)) as (mw & ew & Hfw & _).
    destruct (binary_normalize_exact h ltac:(lia)) as (mh & eh & Hfh & _).
    unfold float_mul_int, float_of_int. cbn [int_truediv Z.mul mbind result_bind].
    rewrite Hfw, Hfh. cbn. exists 0, 0. rewrite !Z.div_0_l by lia. repeat split; lia.
  - change (Zpos h * Zpos w) with (Zpos (h * w)).
    unfold int_truediv. cbn [Z.ltb Z.compare Z.abs Z.to_pos].
    destruct (SFdiv_int_spec false false l (h * w) ltac:(lia))
      as (mr & er & Hdiv & Hmr & Hr).
    { rewrite Pos2Z.inj_mul. change (2 ^ 1000) with (2 ^ 53 * 2 ^ 947). nia. }
    change (Z.to_pos (Z.abs (Zpos l))) with l.
    change (Z.to_pos (Z.abs (Zpos (h * w)))) with (h * w)%positive.
    rewrite Hdiv. cbn [xorb mbind result_bind].
    destruct (scaled_side l w h mr er) as (nw & Hnw & Hnw0 & Hnwb); try lia; [done|].
    destruct (scaled_side l h w mr er) as (nh & Hnh & Hnh0 & Hnhb); try lia.
    { cbv zeta. by rewrite (Pos.mul_comm w h). }
    exists nw, nh.
    destruct (float_mul_int _ (Zpos w)) as [xw|] eqn:Exw; [|done].
    cbn [mbind result_bind] in Hnw |- *. rewrite Hnw. cbn [mbind result_bind].
    destruct (float_mul_int _ (Zpos h)) as [xh|] eqn:Exh; [|done].
    cbn [mbind result_bind] in Hnh |- *. rewrite Hnh. cbn [mbind result_bind].
    repeat split; lia.
Qed.
End NewSize.

(** ** [shrink_large] *)

Lemma shrink_large_not_too_big fs file img limit :
  fs !! as_posix file = Some (File (Pixels img)) →
  (num_pixels_of img ≤ limit)%Z →
  shrink_large fs file (PyInt limit) false = (fs, Ok false).
Proof.
  intros Hf Hn. unfold shrink_large, Image_open. rewrite Hf.
  cbn [py_gt]. unfold num_pixels_of in Hn.
  by rewrite (proj2 (Z.ltb_ge _ _) Hn).
Qed.



Lemma resize_inv img size out :
  resize img size = Ok out →
  out = Image (fst size) (snd size) (codec img) ∧
  (0 < fst size)%Z ∧ (0 < snd size)%Z.
Proof.
  unfold resize.
  destruct (codec img); try done;
    (destruct (0 <? fst size)%Z eqn:Hw; [|done];
     destruct (0 <? snd size)%Z eqn:Hh; [|done];
     apply Z.ltb_lt in Hw, Hh; by intros [= <-]).
Qed.

Lemma save_inv fs file out fs' r :
  save fs file out = (fs', r) →
  (r = Ok tt ∧ codec out = Rewrites ∧
   fs' = <[as_posix file := File (Pixels out)]> fs) ∨
  (∃ e, r = Raise e ∧
     (fs' = fs ∨ fs' = <[as_posix file := File Undecodable]> fs)).
Proof.
  unfold save. destruct (codec out) as [|e|e|e]; intros [= <- <-]; eauto.
Qed.


(** Sample sizes, as the interpreter computes them: the default budget on
    a 12-megapixel image, an exact ratio, a ratio whose product with the
    side falls just short of an integer ([1/49 * 49 < 1]), and a picture
    one pixel high. *)
Example new_size_samples :
  new_size 1900000 (mkImage 4000 3000) = Ok (633, 475)%Z ∧
  new_size 1000000 (mkImage 2000 2000) = Ok (500, 500)%Z ∧
  new_size 7 (mkImage 49 7) = Ok (0, 0)%Z ∧
  new_size 123456789 (mkImage 98765 4321) = Ok (28571, 1250)%Z ∧
  new_size 1900000 (mkImage 1900001 1) = Ok (1900000, 0)%Z.
Proof. vm_compute. done. Qed.







(** What a call of [shrink_large] can have done, for any limit value. *)
Lemma shrink_large_cases fs file pix_limit skip fs' r :
  shrink_large fs file pix_limit skip = (fs', r) →
  (fs' = fs ∧ (r = Ok false ∨ ∃ e, r = Raise e)) ∨
  (∃ limit img size out,
     skip = false ∧ pix_limit = PyInt limit ∧
     fs !! as_posix file = Some (File (Pixels img)) ∧
     (limit < num_pixels_of img)%Z ∧ new_size limit img = Ok size ∧
     resize img size = Ok out ∧
     ((r = Ok true ∧ codec out = Rewrites ∧
       fs' = <[as_posix file := File (Pixels out)]> fs) ∨
      (∃ e, r = Raise e ∧
         (fs' = fs ∨ fs' = <[as_posix file := File Undecodable]> fs)))).
Proof.
  unfold shrink_large. destruct skip; [intros [= <- <-]; left; auto|].
  destruct (Image_open fs file) as [img|e] eqn:Hopen;
    [|intros [= <- <-]; left; eauto].
  destruct (py_gt _ pix_limit) as [[]|e] eqn:Hgt;
    [|intros [= <- <-]; left; eauto..].
  destruct pix_limit as [limit|v|]; [|done..].
  destruct (new_size limit img) as [size|e] eqn:Hsize;
    [|intros [= <- <-]; left; eauto].
  cbn [mbind result_bind].
  destruct (resize img size) as [out|e] eqn:Hres;
    [|intros [= <- <-]; left; eauto].
  destruct (save fs file out) as [fs2 saved] eqn:Hsave. intros [= <- <-].
  right. exists limit, img, size, out.
  split; [done|]. split; [done|].
  split. { unfold Image_open in Hopen.
           by destruct (fs !! as_posix file) as [[|[?|]]|]; simplify_eq. }
  split. { cbn [py_gt] in Hgt. injection Hgt as Hgt. by apply Z.ltb_lt in Hgt. }
  split; [done|]. split; [done|].
  apply save_inv in Hsave as [(-> & Hc & ->)|(e & -> & Hfs)]; [left|right]; eauto.
Qed.

(** ** The copy/resize loop *)

Lemma copy_phase_inv fs c orig dest fs1 c1 :
  copy_phase fs c orig dest = Ok (fs1, c1) →
  (path_exists fs dest = true ∧ fs1 = fs ∧ c1 = incr_already_there c) ∨
  (path_exists fs dest = false ∧ c1 = incr_copied c ∧
   ∃ x, fs !! as_posix orig = Some (File x) ∧ fs1 = <[as_posix dest := File x]> fs).
Proof.
  unfold copy_phase. destruct (path_exists fs dest) eqn:Hex.
  - intros [= <- <-]. by left.
  - unfold copy. destruct (fs !! as_posix orig) as [[|x]|]; try done.
    destruct (fs !! as_posix (parent dest)) as [[|?]|]; try done.
    cbn [mbind result_bind]. intros [= <- <-]. right. eauto.
Qed.

Lemma process_item_inv args fs c orig dest fs' c' :
  process_item args (fs, c) (orig, dest) = Ok (fs', c') →
  (path_exists fs dest = false ∧ copy fs orig dest = Raise FileNotFoundError ∧
   fs' = fs ∧ c' = incr_error c) ∨
  ∃ fs1 c1, copy_phase fs c orig dest = Ok (fs1, c1) ∧
    ((shrink_large fs1 dest (PIX_LIMIT args) (RESIZE_SKIP args) = (fs', Ok false) ∧
      c' = c1) ∨
     (shrink_large fs1 dest (PIX_LIMIT args) (RESIZE_SKIP args) = (fs', Ok true) ∧
      c' = append_resized orig c1) ∨
     (∃ e, shrink_large fs1 dest (PIX_LIMIT args) (RESIZE_SKIP args)
             = (fs', Raise e) ∧
           is_OSError e = true ∧ c' = c1)).
Proof.
  unfold process_item.
  destruct (copy_phase fs c orig dest) as [[fs1 c1]|e] eqn:Hcopy.
  - intros Hrun. right. exists fs1, c1. split; [done|].
    destruct (shrink_large _ _ _ _) as [fs2 [[]|e]]; simplify_eq/=; eauto.
    destruct (is_OSError e) eqn:He; simplify_eq/=. eauto 10.
  - destruct e; try done. intros [= <- <-]. left.
    unfold copy_phase in Hcopy. destruct (path_exists fs dest); [done|].
    destruct (copy fs orig dest) as [?|[]]; simplify_eq/=; done.
Qed.

Lemma run_items_app args items1 items2 st :
  run_items args (items1 ++ items2) st =
    st' ← run_items args items1 st; run_items args items2 st'.
Proof.
  revert st. induction items1 as [|item items1 IH]; intros st; [done|].
  cbn [app run_items]. destruct (process_item args st item); [|done].
  cbn [mbind result_bind]. apply IH.
Qed.

(** C6: an item whose copy step raises [FileNotFoundError] (its source is
    missing) increments only the [error] counter; [already_there], [copied]
    and the [resized] list are unchanged, no resize is attempted (the file
    system is unchanged, whatever the resize options are), and the loop goes
    on with the remaining items. *)
Theorem missing_source_only_counts_error args fs c orig dest rest :
  path_exists fs dest = false →
  copy fs orig dest = Raise FileNotFoundError →
  process_item args (fs, c) (orig, dest) = Ok (fs, incr_error c) ∧
  error (incr_error c) = S (error c) ∧
  already_there (incr_error c) = already_there c ∧
  copied (incr_error c) = copied c ∧
  resized (incr_error c) = resized c ∧
  run_items args ((orig, dest) :: rest) (fs, c)
    = run_items args rest (fs, incr_error c).
Proof.
  intros Hex Hcopy.
  assert (Hitem : process_item args (fs, c) (orig, dest) = Ok (fs, incr_error c)).
  { unfold process_item, copy_phase. by rewrite Hex, Hcopy. }
  repeat split; try done. cbn [run_items]. by rewrite Hitem.
Qed.

Lemma missing_source_only_counts_error_witness :
  run_items (mkNamespace false false (PyInt 1900000) (PyInt 1024))
    [(Path_of "/pics/gone.jpg", Path_of "/dest/subdir00/gone.jpg");
     (Path_of "/pics/here.jpg", Path_of "/dest/subdir00/here.jpg")]
    ({[ "/dest/subdir00" := Dir;
        "/pics/here.jpg" := File (Pixels (mkImage 640 480)) ]}, counts_init)
  = run_items (mkNamespace false false (PyInt 1900000) (PyInt 1024))
      [(Path_of "/pics/here.jpg", Path_of "/dest/subdir00/here.jpg")]
      ({[ "/dest/subdir00" := Dir;
          "/pics/here.jpg" := File (Pixels (mkImage 640 480)) ]},
       incr_error counts_init).
Proof.
  apply (missing_source_only_counts_error
           (mkNamespace false false (PyInt 1900000) (PyInt 1024))); reflexivity.
Defined.

(** C7: when the resize phase of an item raises an [OSError] after its
    copy phase succeeded (copied or already present), whether the picture
    could not be decoded or could not be encoded, the loop goes on with the
    remaining items; the item is added neither to [resized] nor to [error],
    and the [copied] or [already_there] increment of its copy phase stays.
    The destination is left as it was or, when the encoder failed after
    [save] had opened it, empty. *)
Theorem resize_oserror_not_counted args fs c orig dest fs1 c1 fs2 e rest :
  copy_phase fs c orig dest = Ok (fs1, c1) →
  shrink_large fs1 dest (PIX_LIMIT args) (RESIZE_SKIP args) = (fs2, Raise e) →
  is_OSError e = true →
  process_item args (fs, c) (orig, dest) = Ok (fs2, c1) ∧
  run_items args ((orig, dest) :: rest) (fs, c) = run_items args rest (fs2, c1) ∧
  resized c1 = resized c ∧ error c1 = error c ∧
  (c1 = incr_already_there c ∨ c1 = incr_copied c) ∧
  (fs2 = fs1 ∨ fs2 = <[as_posix dest := File Undecodable]> fs1).
Proof.
  intros Hcopy Hshrink He.
  assert (Hitem : process_item args (fs, c) (orig, dest) = Ok (fs2, c1)).
  { unfold process_item. by rewrite Hcopy, Hshrink, He. }
  split; [done|]. split; [cbn [run_items]; by rewrite Hitem|].
  assert (Hfs : fs2 = fs1 ∨ fs2 = <[as_posix dest := File Undecodable]> fs1).
  { apply shrink_large_cases in Hshrink
      as [[-> _]|(? & ? & ? & ? & _ & _ & _ & _ & _ & _ & [(? & _)|(? & _ & ?)])];
      auto; done. }
  apply copy_phase_inv in Hcopy as [(_ & _ & ->)|(_ & -> & _)]; auto 10.
Qed.

Lemma resize_oserror_not_counted_witness :
  process_item argparse_defaults
    ({[ "/dest/subdir00" := Dir; "/pics/broken.jpg" := File Undecodable ]},
     counts_init)
    (Path_of "/pics/broken.jpg", Path_of "/dest/subdir00/broken.jpg")
  = Ok (<[ "/dest/subdir00/broken.jpg" := File Undecodable ]>
          {[ "/dest/subdir00" := Dir; "/pics/broken.jpg" := File Undecodable ]},
        incr_copied counts_init) ∧
  process_item argparse_defaults
    ({[ "/dest/subdir00" := Dir;
        "/pics/alpha.jpg"
          := File (Pixels (Image 4000 3000 (EncoderRaises OSError))) ]},
     counts_init)
    (Path_of "/pics/alpha.jpg", Path_of "/dest/subdir00/alpha.jpg")
  = Ok (<[ "/dest/subdir00/alpha.jpg" := File Undecodable ]>
          {[ "/dest/subdir00" := Dir;
             "/pics/alpha.jpg"
               := File (Pixels (Image 4000 3000 (EncoderRaises OSError))) ]},
        incr_copied counts_init).
Proof.
  split.
  - refine (proj1 (resize_oserror_not_counted argparse_defaults
             {[ "/dest/subdir00" := Dir; "/pics/broken.jpg" := File Undecodable ]}
             counts_init
             (Path_of "/pics/broken.jpg") (Path_of "/dest/subdir00/broken.jpg")
             (<[ "/dest/subdir00/broken.jpg" := File Undecodable ]>
                {[ "/dest/subdir00" := Dir;
                   "/pics/broken.jpg" := File Undecodable ]})
             (incr_copied counts_init)
             (<[ "/dest/subdir00/broken.jpg" := File Undecodable ]>
                {[ "/dest/subdir00" := Dir;
                   "/pics/broken.jpg" := File Undecodable ]})
             UnidentifiedImageError [] _ _ _)); reflexivity.
  - refine (proj1 (resize_oserror_not_counted argparse_defaults
             {[ "/dest/subdir00" := Dir;
                "/pics/alpha.jpg"
                  := File (Pixels (Image 4000 3000 (EncoderRaises OSError))) ]}
             counts_init
             (Path_of "/pics/alpha.jpg") (Path_of "/dest/subdir00/alpha.jpg")
             (<[ "/dest/subdir00/alpha.jpg"
                   := File (Pixels (Image 4000 3000 (EncoderRaises OSError))) ]>
                {[ "/dest/subdir00" := Dir;
                   "/pics/alpha.jpg"
                     := File (Pixels (Image 4000 3000 (EncoderRaises OSError))) ]})
             (incr_copied counts_init)
             (<[ "/dest/subdir00/alpha.jpg" := File Undecodable ]>
                {[ "/dest/subdir00" := Dir;
                   "/pics/alpha.jpg"
                     := File (Pixels (Image 4000 3000 (EncoderRaises OSError))) ]})
             OSError [] _ _ _)); reflexivity.
Defined.

Lemma dest_names_from_length slugify USER args files :
  ∀ fs i plan fs',
    dest_names_from slugify USER args fs i files = Ok (plan, fs') →
    length plan = length files.
Proof.
  induction files as [|o rest IH]; intros fs i plan fs'; cbn [dest_names_from].
  - by intros [= <- <-].
  - destruct (_make_dest_name _ _ _ _ _ _) as [[d fs1]|]; [|done].
    cbn [mbind result_bind].
    destruct (dest_names_from _ _ _ _ _ _) as [[plan' fs2]|] eqn:Hrec; [|done].
    cbn [mbind result_bind]. intros [= <- <-]. cbn [length]. f_equal. eauto.
Qed.

(** Each completed iteration increments exactly one of the three counters,
    and appends to [resized] at most once, never together with [error]. *)
Lemma process_item_counts args fs c item fs' c' :
  process_item args (fs, c) item = Ok (fs', c') →
  ((already_there c' = S (already_there c) ∧ copied c' = copied c ∧
    error c' = error c) ∨
   (already_there c' = already_there c ∧ copied c' = S (copied c) ∧
    error c' = error c) ∨
   (already_there c' = already_there c ∧ copied c' = copied c ∧
    error c' = S (error c) ∧ resized c' = resized c)) ∧
  length (resized c) ≤ length (resized c') ≤ S (length (resized c)).
Proof.
  destruct item as [orig dest]. intros Hrun.
  apply process_item_inv in Hrun
    as [(_ & _ & _ & ->)|(fs1 & c1 & Hcopy & Hres)].
  - cbn. split; [right; right; done|lia].
  - assert (Hc1 : c1 = incr_already_there c ∨ c1 = incr_copied c).
    { apply copy_phase_inv in Hcopy as [(_ & _ & ->)|(_ & -> & _)]; auto. }
    assert (Hc' : c' = c1 ∨ c' = append_resized orig c1).
    { destruct Hres as [[_ ->]|[[_ ->]|(e & _ & _ & ->)]]; auto. }
    destruct Hc1 as [-> | ->], Hc' as [-> | ->]; cbn; rewrite ?length_app; cbn;
      (split; [auto|lia]).
Qed.

Lemma run_items_counts args items :
  ∀ fs c fs' c',
    run_items args items (fs, c) = Ok (fs', c') →
    already_there c' + copied c' + error c'
      = already_there c + copied c + error c + length items ∧
    (length (resized c) ≤ already_there c + copied c →
     length (resized c') ≤ already_there c' + copied c').
Proof.
  induction items as [|item items IH]; intros fs c fs' c'; cbn [run_items].
  - intros [= <- <-]. cbn. split; [lia|done].
  - destruct (process_item args (fs, c) item) as [[fs1 c1]|] eqn:Hitem; [|done].
    cbn [mbind result_bind]. intros Hrest.
    apply process_item_counts in Hitem as [Hone Hres].
    apply IH in Hrest as [Hsum Hlen]. cbn [length]. split.
    + destruct Hone as [(?&?&?)|[(?&?&?)|(?&?&?&?)]]; lia.
    + intros Hc. apply Hlen.
      destruct Hone as [(?&?&?)|[(?&?&?)|(?&?&?&Hr)]]; try lia.
      rewrite Hr. lia.
Qed.

(** C10: every completed iteration of the loop increments exactly one of
    [already_there], [copied] and [error]; so when [copy_and_resize]
    completes, the three counters add up to the number of items, and the
    [resized] list is no longer than [already_there + copied]. *)
Theorem counters_partition_items slugify USER fs files args fs' c :
  copy_and_resize slugify USER fs files args = Ok (fs', c) →
  already_there c + copied c + error c = length files ∧
  length (resized c) ≤ already_there c + copied c.
Proof.
  unfold copy_and_resize, get_dest_filenames.
  destruct (dest_names_from _ _ _ _ _ _) as [[plan fs1]|] eqn:Hplan; [|done].
  cbn [mbind result_bind]. intros Hrun.
  apply dest_names_from_length in Hplan.
  apply run_items_counts in Hrun as [Hsum Hlen]. cbn in Hsum, Hlen.
  split; [lia|]. apply Hlen. lia.
Qed.

Lemma counters_partition_items_witness :
  ∃ fs' c,
    copy_and_resize slugify_model "u"
      {[ "/home/u/Dropbox/five-star-pics" := Dir;
         "/p/2022/06/01/a.jpg" := File (Pixels (mkImage 4000 3000));
         "/p/2022/06/01/b.jpg" := File Undecodable ]}
      (map Path_of ["/p/2022/06/01/a.jpg"; "/p/2022/06/01/b.jpg";
                    "/p/2022/06/01/c.jpg"])
      argparse_defaults = Ok (fs', c) ∧
    already_there c + copied c + error c = 3 ∧
    length (resized c) ≤ already_there c + copied c.
Proof.
  destruct (copy_and_resize slugify_model "u"
      {[ "/home/u/Dropbox/five-star-pics" := Dir;
         "/p/2022/06/01/a.jpg" := File (Pixels (mkImage 4000 3000));
         "/p/2022/06/01/b.jpg" := File Undecodable ]}
      (map Path_of ["/p/2022/06/01/a.jpg"; "/p/2022/06/01/b.jpg";
                    "/p/2022/06/01/c.jpg"])
      argparse_defaults) as [[fs' c]|e] eqn:Hrun.
  - exists fs', c. split; [reflexivity|].
    exact (counters_partition_items _ _ _ _ _ _ _ Hrun).
  - exfalso. vm_compute in Hrun. discriminate Hrun.
Defined.

(** ** Command-line values *)

Lemma option_tokens_cons t rest :
  t ≠ "--" →
  option_tokens (t :: rest)
  = t :: match _parse_optional t, rest with
         | Optional o None, _ :: rest' =>
             if takes_value o then option_tokens rest' else option_tokens rest
         | _, _ => option_tokens rest
         end.
Proof.
  intros Ht. cbn [option_tokens]. by rewrite bool_decide_false.
Qed.

Lemma supplied_cons o t rest :
  t ≠ "--" →
  supplied o (t :: rest)
  = names o t ||
    existsb (names o)
      match _parse_optional t, rest with
      | Optional o' None, _ :: rest' =>
          if takes_value o' then option_tokens rest' else option_tokens rest
      | _, _ => option_tokens rest
      end.
Proof. intros Ht. unfold supplied. by rewrite option_tokens_cons. Qed.

Lemma option_tuples_explicit t o e :
  (o, Some e) ∈ option_tuples t → o = Help ∨ (split_eq t).2 = Some e.
Proof.
  unfold option_tuples. destruct t as [|a [|b tail]]; [by intros ?%elem_of_nil| |].
  { destruct a as [[] [] [] [] [] [] [] []]; by intros ?%elem_of_nil. }
  destruct (decide (a = "-"%char)) as [->|Ha].
  2: { destruct a as [[] [] [] [] [] [] [] []]; try by intros ?%elem_of_nil.
       done. }
  destruct (decide (b = "-"%char)) as [->|Hb].
  - destruct (split_eq _) as [pre ea]. cbn.
    intros (o' & [= -> ->] & _)%list_elem_of_fmap. by right.
  - intros H0.
    assert (H : (o, Some e) ∈
      (o' ← parser_options; s ← option_strings o';
       if bool_decide (s = String "-" (String b ""))
       then [(o', Some tail)]
       else if startswith s (String "-" (String b tail)) then [(o', None)]
            else [])).
    { destruct b as [[] [] [] [] [] [] [] []]; try exact H0. done. }
    clear H0.
    apply list_elem_of_bind in H as (o' & H & _).
    apply list_elem_of_bind in H as (s & H & Hs).
    case_bool_decide as Heq.
    + apply list_elem_of_singleton in H as [= -> ->]. left.
      destruct o'; [done|..]; cbn in Hs;
        apply list_elem_of_singleton in Hs; by simplify_eq.
    + destruct (startswith _ _); [|by apply elem_of_nil in H].
      by apply list_elem_of_singleton in H.
Qed.

Lemma _parse_optional_explicit t o e :
  _parse_optional t = Optional o (Some e) → o = Help ∨ (split_eq t).2 = Some e.
Proof.
  unfold _parse_optional. destruct t as [|c t]; [done|].
  destruct (negb _); [done|]. destruct (exact_option (String c t)); [done|].
  destruct (bool_decide _); [done|].
  assert (Hprefix :
    match option_tuples (String c t) with
    | [] => if negative_number_like (String c t) then Positional
            else if has_space (String c t) then Positional else UnknownOptional
    | [(o, explicit_arg)] => Optional o explicit_arg
    | _ => Ambiguous
    end = Optional o (Some e) → o = Help ∨ (split_eq (String c t)).2 = Some e).
  { destruct (option_tuples (String c t)) as [|[o' ea] [|]] eqn:Htuples.
    - by repeat case_match.
    - intros [= -> ->]. apply option_tuples_explicit. rewrite Htuples. by left.
    - done. }
  destruct (split_eq (String c t)) as [pre [ea|]]; [|done].
  destruct (exact_option pre); [|done]. intros [= -> ->]. by right.
Qed.

Lemma explicit_value_cases e :
  (explicit_value e = PyStr e ∧ e ≠ "--") ∨
  (explicit_value e = PyEmptyList ∧ e = "--").
Proof. unfold explicit_value. case_bool_decide; auto. Qed.

Local Ltac widen H Hw :=
  let Hs := fresh in
  intros Hs; destruct (H Hs) as [?|[? ?]];
  [by left|right; split; [done|by apply Hw]].

Local Ltac widen_now H Hw :=
  destruct (H eq_refl) as [?|[? ?]];
  [by left|right; split; [done|by apply Hw]].

(** What [parse_argv] has stored, in terms of the options the command line
    gives. *)
Lemma parse_argv_stores n :
  ∀ argv ns0 ns, length argv ≤ n → parse_argv argv ns0 = Some ns →
    CLEAR_ALL_PHOTOS ns = CLEAR_ALL_PHOTOS ns0 || supplied ClearAll argv ∧
    RESIZE_SKIP ns = RESIZE_SKIP ns0 || supplied ResizeSkip argv ∧
    (supplied MaxPixCount argv = false → PIX_LIMIT ns = PIX_LIMIT ns0) ∧
    (supplied MaxPixCount argv = true →
       (∃ v, PIX_LIMIT ns = PyStr v) ∨
       (PIX_LIMIT ns = PyEmptyList ∧ ∃ t, t ∈ argv ∧ (split_eq t).2 = Some "--")) ∧
    (supplied PicsPerSubdir argv = false →
       pics_per_subdir ns = pics_per_subdir ns0) ∧
    (supplied PicsPerSubdir argv = true →
       (∃ v, pics_per_subdir ns = PyStr v) ∨
       (pics_per_subdir ns = PyEmptyList ∧
        ∃ t, t ∈ argv ∧ (split_eq t).2 = Some "--")).
Proof.
  induction n as [|n IH]; intros argv ns0 ns Hlen.
  { destruct argv; [|cbn in Hlen; lia]. intros [= <-]. cbn.
    rewrite !orb_false_r. done. }
  destruct argv as [|t rest].
  { intros [= <-]. cbn. rewrite !orb_false_r. done. }
  cbn [parse_argv length] in *. case_bool_decide as Hsep; [done|].
  rewrite !supplied_cons by done. unfold names.
  assert (Hweak : ∀ (P : string → Prop),
    (∃ x, x ∈ rest ∧ P x) → ∃ x, x ∈ t :: rest ∧ P x).
  { intros P (x & ? & ?). exists x. split; [by right|done]. }
  destruct (_parse_optional t) as [|o [e|]| |] eqn:Hopt; try done.
  - destruct o; try done; cbn [takes_value].
    + intros Hp. apply IH in Hp as (Ha & Hb & Hc & Hd & He & Hf); [|lia].
      fold (supplied ClearAll rest) (supplied ResizeSkip rest)
           (supplied MaxPixCount rest) (supplied PicsPerSubdir rest).
      cbn in *. split; [done|]. split; [done|]. split; [done|].
      split; [|split; [done|widen Hf Hweak]].
      intros _. destruct (supplied MaxPixCount rest); [widen_now Hd Hweak|].
      rewrite Hc by done.
      destruct (_parse_optional_explicit _ _ _ Hopt) as [|Hsplit]; [done|].
      destruct (explicit_value_cases e) as [[-> _]|[-> ->]]; [eauto|].
      right. split; [done|]. exists t. split; [by left|done].
    + intros Hp. apply IH in Hp as (Ha & Hb & Hc & Hd & He & Hf); [|lia].
      fold (supplied ClearAll rest) (supplied ResizeSkip rest)
           (supplied MaxPixCount rest) (supplied PicsPerSubdir rest).
      cbn in *. split; [done|]. split; [done|]. split; [done|].
      split; [widen Hd Hweak|]. split; [done|].
      intros _. destruct (supplied PicsPerSubdir rest); [widen_now Hf Hweak|].
      rewrite He by done.
      destruct (_parse_optional_explicit _ _ _ Hopt) as [|Hsplit]; [done|].
      destruct (explicit_value_cases e) as [[-> _]|[-> ->]]; [eauto|].
      right. split; [done|]. exists t. split; [by left|done].
  - destruct o; try done; cbn [takes_value].
    + intros Hp. apply IH in Hp as (Ha & Hb & Hc & Hd & He & Hf); [|lia].
      assert (Htok : match rest with
                     | [] => option_tokens rest
                     | _ :: _ => option_tokens rest
                     end = option_tokens rest) by (by destruct rest).
      rewrite !Htok.
      fold (supplied ClearAll rest) (supplied ResizeSkip rest)
           (supplied MaxPixCount rest) (supplied PicsPerSubdir rest).
      cbn in *. rewrite Ha. split; [by rewrite orb_true_r|].
      split; [done|]. split; [done|]. split; [widen Hd Hweak|].
      split; [done|widen Hf Hweak].
    + intros Hp. apply IH in Hp as (Ha & Hb & Hc & Hd & He & Hf); [|lia].
      assert (Htok : match rest with
                     | [] => option_tokens rest
                     | _ :: _ => option_tokens rest
                     end = option_tokens rest) by (by destruct rest).
      rewrite !Htok.
      fold (supplied ClearAll rest) (supplied ResizeSkip rest)
           (supplied MaxPixCount rest) (supplied PicsPerSubdir rest).
      cbn in *. rewrite Hb. split; [done|]. split; [by rewrite orb_true_r|].
      split; [done|]. split; [widen Hd Hweak|].
      split; [done|widen Hf Hweak].
    + destruct rest as [|v rest']; [done|]. destruct (is_argument v); [|done].
      cbn [length] in Hlen.
      intros Hp. apply IH in Hp as (Ha & Hb & Hc & Hd & He & Hf); [|lia].
      fold (supplied ClearAll rest') (supplied ResizeSkip rest')
           (supplied MaxPixCount rest') (supplied PicsPerSubdir rest').
      assert (Hweak2 : ∀ (P : string → Prop),
        (∃ x, x ∈ rest' ∧ P x) → ∃ x, x ∈ t :: v :: rest' ∧ P x).
      { intros P (x & ? & ?). exists x. split; [by do 2 right|done]. }
      cbn in *. split; [done|]. split; [done|]. split; [done|].
      split; [|split; [done|widen Hf Hweak2]].
      intros _. destruct (supplied MaxPixCount rest'); [widen_now Hd Hweak2|].
      rewrite Hc by done. eauto.
    + destruct rest as [|v rest']; [done|]. destruct (is_argument v); [|done].
      cbn [length] in Hlen.
      intros Hp. apply IH in Hp as (Ha & Hb & Hc & Hd & He & Hf); [|lia].
      fold (supplied ClearAll rest') (supplied ResizeSkip rest')
           (supplied MaxPixCount rest') (supplied PicsPerSubdir rest').
      assert (Hweak2 : ∀ (P : string → Prop),
        (∃ x, x ∈ rest' ∧ P x) → ∃ x, x ∈ t :: v :: rest' ∧ P x).
      { intros P (x & ? & ?). exists x. split; [by do 2 right|done]. }
      cbn in *. split; [done|]. split; [done|]. split; [done|].
      split; [widen Hd Hweak2|]. split; [done|].
      intros _. destruct (supplied PicsPerSubdir rest'); [widen_now Hf Hweak2|].
      rewrite He by done. eauto.
Qed.



(** ** Running the export again *)

(** [shrink_large] reads and writes the file system at one key only. *)
Lemma shrink_large_as_posix fs d dest pix_limit skip :
  as_posix d = as_posix dest →
  shrink_large fs d pix_limit skip = shrink_large fs dest pix_limit skip.
Proof.
  intros Heq. unfold shrink_large, Image_open, save. by rewrite Heq.
Qed.

Lemma shrink_large_local (fs fs2 : filesystem) file pix_limit skip r :
  fs2 !! as_posix file = fs !! as_posix file →
  shrink_large fs file pix_limit skip = (fs, r) →
  shrink_large fs2 file pix_limit skip = (fs2, r).
Proof.
  intros Hkey. unfold shrink_large, Image_open. rewrite Hkey.
  destruct skip; [by intros [= <-]|].
  destruct (fs !! as_posix file) as [[|[img|]]|] eqn:Hd;
    try by intros [= <-].
  destruct (py_gt _ pix_limit) as [[]|e]; try by intros [= <-].
  destruct pix_limit as [limit|v|]; try by intros [= <-].
  destruct (size ← new_size limit img; resize img size) as [out|e];
    [|by intros [= <-]].
  unfold save. destruct (codec out); try by intros [= <-].
  - intros [= Hfs <-]. rewrite insert_id; [done|].
    rewrite Hkey, <- Hd, <- Hfs at 1. apply lookup_insert_eq.
  - intros [= Hfs <-]. rewrite insert_id; [done|].
    rewrite Hkey, <- Hd, <- Hfs at 1. apply lookup_insert_eq.
Qed.

Lemma settled_as_posix args fs d dest :
  as_posix d = as_posix dest → settled args fs dest → settled args fs d.
Proof.
  intros Heq [Hex Hq]. unfold settled, path_exists in *.
  by rewrite Heq, (shrink_large_as_posix _ _ _ _ _ Heq).
Qed.

Lemma settled_local args (fs fs2 : filesystem) d :
  fs2 !! as_posix d = fs !! as_posix d → settled args fs d → settled args fs2 d.
Proof.
  intros Hkey [Hex (r & Hrun & Hr)]. split.
  - unfold path_exists in *. by rewrite Hkey.
  - exists r. split; [by eapply shrink_large_local|done].
Qed.


Lemma settled_resize_skip args fs dest :
  RESIZE_SKIP args = true → path_exists fs dest = true → settled args fs dest.
Proof.
  intros Hskip Hex. split; [done|]. unfold shrink_large. rewrite Hskip. eauto.
Qed.

Lemma process_item_settled args fs c orig dest :
  settled args fs dest →
  process_item args (fs, c) (orig, dest) = Ok (fs, incr_already_there c).
Proof.
  intros [Hex (r & Hrun & Hr)]. unfold process_item, copy_phase.
  rewrite Hex, Hrun. destruct Hr as [->|(e & -> & He)]; [done|by rewrite He].
Qed.

Lemma run_items_settled args fs items :
  (∀ orig dest, (orig, dest) ∈ items → settled args fs dest) →
  ∀ c, run_items args items (fs, c)
       = Ok (fs, mkCounts (already_there c + length items) (copied c) (error c)
                          (resized c)).
Proof.
  induction items as [|[orig dest] items IH]; intros Hall c.
  - cbn. rewrite Nat.add_0_r. by destruct c.
  - cbn [run_items]. rewrite (process_item_settled args) by
      (apply (Hall orig); left).
    cbn [mbind result_bind]. rewrite IH by (intros o d ?; apply (Hall o); by right).
    cbn. do 3 f_equal. lia.
Qed.



(** The file system of the witness is what a first export produces. *)
Example first_export :
  copy_and_resize slugify_model "u" catalog_fs exported_files argparse_defaults
  = Ok (exported_fs, mkCounts 0 2 0 [Path_of "/p/2022/06/01/a.jpg"]).
Proof. vm_compute. reflexivity. Qed.

(** *** A first run prepares the second *)

Lemma int_truediv_exn a b e : int_truediv a b = Raise e → is_OSError e = false.
Proof.
  unfold int_truediv. destruct a, b; try (by intros [= <-]);
    destruct (SFdiv _ _ _ _); by intros [= <-].
Qed.

Lemma float_mul_int_exn x n e : float_mul_int x n = Raise e → is_OSError e = false.
Proof.
  unfold float_mul_int, float_of_int.
  destruct (binary_normalize _ _ _ _ _); by intros [= <-].
Qed.

Lemma int_of_float_exn x e : int_of_float x = Raise e → is_OSError e = false.
Proof. destruct x; by intros [= <-]. Qed.

Lemma new_size_exn limit img e :
  new_size limit img = Raise e → is_OSError e = false.
Proof.
  unfold new_size.
  destruct (int_truediv _ _) as [ratio|] eqn:H1;
    [|intros [= <-]; by eapply int_truediv_exn].
  cbn [mbind result_bind].
  destruct (float_mul_int ratio (width img)) as [xw|] eqn:H2;
    [|intros [= <-]; by eapply float_mul_int_exn].
  cbn [mbind result_bind].
  destruct (int_of_float xw) as [nw|] eqn:H3;
    [|intros [= <-]; by eapply int_of_float_exn].
  cbn [mbind result_bind].
  destruct (float_mul_int ratio (height img)) as [xh|] eqn:H4;
    [|intros [= <-]; by eapply float_mul_int_exn].
  cbn [mbind result_bind].
  destruct (int_of_float xh) as [nh|] eqn:H5;
    [|intros [= <-]; by eapply int_of_float_exn].
  done.
Qed.

Lemma new_size_within_budget limit img size out :
  (0 ≤ limit < 2 ^ 52)%Z →
  (0 ≤ width img < 2 ^ 53)%Z → (0 ≤ height img < 2 ^ 53)%Z →
  (limit < num_pixels_of img)%Z → new_size limit img = Ok size →
  resize img size = Ok out →
  (0 < width out < 2 ^ 53)%Z ∧ (0 < height out < 2 ^ 53)%Z ∧
  (num_pixels_of out ≤ limit)%Z.
Proof.
  intros Hl Hw Hh Hn Hsize Hres. unfold num_pixels_of in *.
  assert (0 < width img)%Z by nia. assert (0 < height img)%Z by nia.
  destruct (new_size_spec limit img) as (nw & nh & Hsize' & Hw0 & Hwb & Hh0 & Hhb);
    [lia..|].
  rewrite Hsize in Hsize'. injection Hsize' as ->.
  apply resize_inv in Hres as (-> & Hpw & Hph).
  cbn [width height fst snd] in *.
  pose proof (Z.mul_div_le limit (height img) ltac:(lia)).
  pose proof (Z.mul_div_le limit (width img) ltac:(lia)).
  assert (nw * height img ≤ limit)%Z by nia.
  assert (nh * width img ≤ limit)%Z by nia.
  assert (nw ≤ limit)%Z by nia. assert (nh ≤ limit)%Z by nia.
  split; [lia|]. split; [lia|].
  assert ((nh * nw) * (height img * width img) ≤ limit * limit)%Z by nia.
  nia.
Qed.

Lemma dims_ok_insert (fs : filesystem) k x :
  dims_ok fs →
  (∀ img, x = File (Pixels img) →
     (0 ≤ width img < 2 ^ 53 ∧ 0 ≤ height img < 2 ^ 53)%Z) →
  dims_ok (<[k := x]> fs).
Proof.
  intros Hdims Hx k' img. destruct (decide (k = k')) as [<-|Hne].
  - rewrite lookup_insert_eq. intros [= ->]. by apply Hx.
  - rewrite lookup_insert_ne by done. apply Hdims.
Qed.

Lemma copy_phase_step args fs c orig dest fs1 c1 :
  copy_phase fs c orig dest = Ok (fs1, c1) → dims_ok fs →
  dims_ok fs1 ∧ fs_extends fs fs1 ∧ path_exists fs1 dest = true ∧
  error c1 = error c ∧
  (∀ d, settled args fs d → settled args fs1 d).
Proof.
  intros Hcopy Hdims.
  apply copy_phase_inv in Hcopy as [(Hex & -> & ->)|(Hex & -> & x & Hx & ->)].
  - auto using fs_extends_refl.
  - unfold path_exists in Hex.
    destruct (fs !! as_posix dest) eqn:Hd; [done|].
    split; [|split; [|split; [|split]]].
    + apply dims_ok_insert; [done|]. intros img [= ->]. by eapply Hdims.
    + by apply fs_extends_insert_fresh.
    + unfold path_exists. by rewrite lookup_insert_eq.
    + done.
    + intros d Hs. apply (settled_local args fs); [|done].
      destruct (decide (as_posix dest = as_posix d)) as [Heq|Hne].
      * destruct Hs as [Hs _]. unfold path_exists in Hs.
        by rewrite <- Heq, Hd in Hs.
      * by rewrite lookup_insert_ne.
Qed.

(** What the resize phase leaves at a destination is settled, whether it
    returned or raised. *)
Lemma resize_step args limit fs1 dest fs' r :
  PIX_LIMIT args = PyInt limit → (0 ≤ limit < 2 ^ 52)%Z →
  dims_ok fs1 → path_exists fs1 dest = true →
  shrink_large fs1 dest (PIX_LIMIT args) (RESIZE_SKIP args) = (fs', r) →
  (∀ e, r = Raise e → is_OSError e = true) →
  dims_ok fs' ∧ fs_extends fs1 fs' ∧ settled args fs' dest ∧
  (∀ d, settled args fs1 d → settled args fs' d).
Proof.
  intros Hlim Hl Hdims Hex Hrun Hr.
  assert (Hother : ∀ (x : node) d,
    settled args (<[as_posix dest := x]> fs1) dest → settled args fs1 d →
    settled args (<[as_posix dest := x]> fs1) d).
  { intros x d Hs Hd. destruct (decide (as_posix d = as_posix dest)) as [Heq|Hne].
    - by apply (settled_as_posix args _ d dest).
    - apply (settled_local args fs1); [|done]. by rewrite lookup_insert_ne. }
  destruct (shrink_large_cases _ _ _ _ _ _ Hrun)
    as [[-> Hres]|(limit' & img & size & out & Hskip & Hlim' & Hd & Hn & Hsize
                   & Hout & Hres)].
  - split; [done|]. split; [apply fs_extends_refl|]. split; [|done].
    split; [done|]. exists r. split; [done|].
    destruct Hres as [->|[e ->]]; [by left|right; eauto].
  - rewrite Hlim in Hlim'. injection Hlim' as <-.
    destruct (Hdims _ _ Hd) as [Hw Hh].
    destruct (new_size_within_budget limit img size out Hl Hw Hh Hn Hsize Hout)
      as (Hw' & Hh' & Hn').
    assert (Hfile : ∀ x, fs_extends fs1 (<[as_posix dest := File x]> fs1))
      by (intros x; by eapply fs_extends_insert_file).
    assert (Hundec : settled args (<[as_posix dest := File Undecodable]> fs1) dest).
    { split; [unfold path_exists; by rewrite lookup_insert_eq|].
      unfold shrink_large, Image_open. rewrite Hskip, lookup_insert_eq.
      eexists. split; [reflexivity|]. right. eexists. split; reflexivity. }
    assert (Hsame : settled args fs1 dest → dims_ok fs1 ∧ fs_extends fs1 fs1 ∧
              settled args fs1 dest ∧ (∀ d, settled args fs1 d → settled args fs1 d))
      by (intros ?; auto using fs_extends_refl).
    destruct Hres as [(-> & Hc & ->)|(e & -> & [->| ->])].
    + assert (Hnew : settled args (<[as_posix dest := File (Pixels out)]> fs1) dest).
      { split; [unfold path_exists; by rewrite lookup_insert_eq|].
        rewrite Hlim. unfold shrink_large, Image_open.
        rewrite Hskip, lookup_insert_eq. cbn [py_gt].
        unfold num_pixels_of in Hn'. rewrite (proj2 (Z.ltb_ge _ _) Hn').
        eexists. split; [reflexivity|]. by left. }
      split; [|split; [done|split; [done|]]].
      * apply dims_ok_insert; [done|]. intros ? [= <-]. lia.
      * intros d. by apply Hother.
    + apply Hsame. split; [done|]. exists (Raise e). split; [done|]. right. eauto.
    + split; [|split; [done|split; [done|]]].
      * by apply dims_ok_insert.
      * intros d. by apply Hother.
Qed.

Lemma process_item_step args limit fs c orig dest fs' c' :
  PIX_LIMIT args = PyInt limit → (0 ≤ limit < 2 ^ 52)%Z → dims_ok fs →
  process_item args (fs, c) (orig, dest) = Ok (fs', c') →
  dims_ok fs' ∧ fs_extends fs fs' ∧ error c ≤ error c' ∧
  (error c' = error c → settled args fs' dest) ∧
  (∀ d, settled args fs d → settled args fs' d).
Proof.
  intros Hlim Hl Hdims Hrun.
  apply process_item_inv in Hrun
    as [(_ & _ & -> & ->)|(fs1 & c1 & Hcopy & Hres)].
  - split; [done|]. split; [apply fs_extends_refl|]. cbn [incr_error error].
    split; [lia|]. split; [lia|done].
  - destruct (copy_phase_step args _ _ _ _ _ _ Hcopy Hdims)
      as (Hdims1 & Hext1 & Hex1 & Herr1 & Hset1).
    assert (∃ r, shrink_large fs1 dest (PIX_LIMIT args) (RESIZE_SKIP args)
                 = (fs', r) ∧ (∀ e, r = Raise e → is_OSError e = true) ∧
                 error c' = error c1) as (r & Hrun & Hr & Herr').
    { destruct Hres as [[Hrun ->]|[[Hrun ->]|(e & Hrun & He & ->)]].
      - by exists (Ok false).
      - by exists (Ok true).
      - exists (Raise e). split; [done|]. split; [by intros ? [= <-]|done]. }
    destruct (resize_step args limit _ _ _ _ Hlim Hl Hdims1 Hex1 Hrun Hr)
      as (Hdims' & Hext' & Hs & Hset').
    split; [done|]. split; [by eapply fs_extends_trans|].
    split; [lia|]. split; [done|auto].
Qed.

Lemma run_items_step args limit items :
  PIX_LIMIT args = PyInt limit → (0 ≤ limit < 2 ^ 52)%Z →
  ∀ fs c fs' c', dims_ok fs → run_items args items (fs, c) = Ok (fs', c') →
    dims_ok fs' ∧ fs_extends fs fs' ∧ error c ≤ error c' ∧
    (error c' = error c →
     ∀ orig dest, (orig, dest) ∈ items → settled args fs' dest) ∧
    (∀ d, settled args fs d → settled args fs' d).
Proof.
  intros Hlim Hl. induction items as [|[orig dest] items IH];
    intros fs c fs' c' Hdims; cbn [run_items].
  - intros [= <- <-]. split; [done|]. split; [apply fs_extends_refl|].
    split; [done|]. split; [|done].
    intros _ o d Hin. by apply elem_of_nil in Hin.
  - destruct (process_item args (fs, c) (orig, dest)) as [[fs1 c1]|] eqn:Hitem;
      [|done].
    cbn [mbind result_bind]. intros Hrest.
    destruct (process_item_step args limit _ _ _ _ _ _ Hlim Hl Hdims Hitem)
      as (Hdims1 & Hext1 & Herr1 & Hs1 & Hset1).
    destruct (IH _ _ _ _ Hdims1 Hrest) as (Hdims' & Hext' & Herr' & Hs' & Hset').
    split; [done|]. split; [by eapply fs_extends_trans|]. split; [lia|].
    split; [|by auto].
    intros Herr o d Hin. apply elem_of_cons in Hin as [[= -> ->]|Hin].
    + apply Hset', Hs1. lia.
    + apply (Hs' ltac:(lia) o d Hin).
Qed.

Lemma dest_names_from_files slugify USER args files :
  ∀ fs i plan fs',
    dest_names_from slugify USER args fs i files = Ok (plan, fs') →
    ∀ k x, fs' !! k = Some (File x) → fs !! k = Some (File x).
Proof.
  induction files as [|o rest IH]; intros fs i plan fs'; cbn [dest_names_from].
  - by intros [= <- <-].
  - unfold _make_dest_name, _make_new_dir_if_needed.
    destruct (py_floordiv _ _) as [q|]; [|done]. cbn [mbind result_bind].
    destruct (is_dir fs (pic_dir_of USER q)).
    + cbn [mbind result_bind].
      destruct (dest_names_from _ _ _ _ _ _) as [[plan' fs2]|] eqn:Hrec; [|done].
      cbn [mbind result_bind]. intros [= <- <-]. eauto.
    + unfold mkdir. destruct (fs !! as_posix (pic_dir_of USER q)) eqn:Hq; [done|].
      destruct (fs !! as_posix (parent _)) as [[|?]|]; try done.
      cbn [mbind result_bind].
      destruct (dest_names_from _ _ _ _ _ _) as [[plan' fs2]|] eqn:Hrec; [|done].
      cbn [mbind result_bind]. intros [= <- <-] k x Hk.
      apply (IH _ _ _ _ Hrec) in Hk.
      destruct (decide (as_posix (pic_dir_of USER q) = k)) as [<-|Hne].
      * by rewrite lookup_insert_eq in Hk.
      * by rewrite lookup_insert_ne in Hk.
Qed.

(** X1: after a first export that completed without a copy error,
    within the range where the ratio is computed exactly enough (a budget
    below [2^52], sides below [2^53]), a second export with the same catalog
    and options finds every destination, copies nothing and resizes
    nothing. *)
Theorem second_run_is_idle slugify USER fs files args limit capacity fs1 c1 :
  PIX_LIMIT args = PyInt limit → (0 ≤ limit < 2 ^ 52)%Z →
  pics_per_subdir args = PyInt capacity → dims_ok fs →
  copy_and_resize slugify USER fs files args = Ok (fs1, c1) →
  error c1 = 0 →
  copy_and_resize slugify USER fs1 files args
    = Ok (fs1, mkCounts (length files) 0 0 []).
Proof.
  intros Hlim Hl Hcap Hdims Hrun Herr. unfold copy_and_resize in Hrun.
  destruct (get_dest_filenames slugify USER fs files args)
    as [[plan fsA]|] eqn:Hplan; [|done].
  cbn [mbind result_bind] in Hrun. unfold get_dest_filenames in Hplan.
  pose proof (dest_names_from_files _ _ _ _ _ _ _ _ Hplan) as Hfiles.
  destruct (dest_names_from_spec slugify USER args capacity Hcap _ _ _ _ _ Hplan)
    as (Hplan_eq & HextA & Hbuckets & _).
  assert (HdimsA : dims_ok fsA) by (intros k img Hk; eapply Hdims, Hfiles, Hk).
  destruct (run_items_step args limit plan Hlim Hl _ _ _ _ HdimsA Hrun)
    as (Hdims1 & Hext1 & _ & Hsettled & _).
  assert (Hplan1 : get_dest_filenames slugify USER fs1 files args = Ok (plan, fs1)).
  { unfold get_dest_filenames. destruct files as [|o rest].
    - cbn in Hplan |- *. by injection Hplan as <- <-.
    - assert (capacity ≠ 0%Z) as Hne.
      { intros ->. cbn [dest_names_from] in Hplan.
        unfold _make_dest_name, _make_new_dir_if_needed in Hplan.
        by rewrite Hcap in Hplan. }
      rewrite Hplan_eq. apply dest_names_from_exist; [done..|].
      intros j Hj. by apply Hext1, Hbuckets. }
  unfold copy_and_resize. rewrite Hplan1. cbn [mbind result_bind].
  rewrite (run_items_settled args fs1 plan) by (by apply Hsettled).
  unfold get_dest_filenames in Hplan1. apply dest_names_from_length in Hplan1.
  unfold counts_init. cbn [already_there copied error resized Nat.add].
  by rewrite Hplan1.
Qed.

Lemma dims_ok_catalog_fs : dims_ok catalog_fs.
Proof.
  intros k img. unfold catalog_fs.
  repeat (rewrite lookup_insert; case_decide; [intros [= <-]; cbn; lia|]).
  rewrite lookup_singleton. by case_decide.
Qed.

(** The two runs on the small catalog: the first copies both files and
    resizes one, the second finds both and touches nothing. *)
Example second_export :
  copy_and_resize slugify_model "u" exported_fs exported_files argparse_defaults
  = Ok (exported_fs, mkCounts 2 0 0 []).
Proof.
  apply (second_run_is_idle slugify_model "u" catalog_fs exported_files
           argparse_defaults 1900000 1024 exported_fs
           (mkCounts 0 2 0 [Path_of "/p/2022/06/01/a.jpg"])).
  - reflexivity.
  - lia.
  - reflexivity.
  - apply dims_ok_catalog_fs.
  - apply first_export.
  - reflexivity.
Defined.
(** * Part III: further properties *)

(** ** More on destination naming *)

Lemma dest_names_from_sources slugify USER args files :
  ∀ fs i plan fs',
    dest_names_from slugify USER args fs i files = Ok (plan, fs') →
    plan.*1 = files.
Proof.
  induction files as [|o rest IH]; intros fs i plan fs'; cbn [dest_names_from].
  - by intros [= <- <-].
  - destruct (_make_dest_name _ _ _ _ _ _) as [[d fs1]|]; [|done].
    cbn [mbind result_bind].
    destruct (dest_names_from _ _ _ _ _ _) as [[plan' fs2]|] eqn:Hrec; [|done].
    cbn [mbind result_bind]. intros [= <- <-]. cbn. f_equal. eauto.
Qed.

Lemma make_new_dir_adds_dir USER args fs i pic_dir fs' :
  _make_new_dir_if_needed USER args fs i = Ok (pic_dir, fs') →
  fs ⊆ fs' ∧ fs' !! as_posix pic_dir = Some Dir ∧
  (∀ k, fs !! k = None → fs' !! k = None ∨ fs' !! k = Some Dir) ∧
  (fs !! as_posix pic_dir = Some Dir → fs' = fs).
Proof.
  unfold _make_new_dir_if_needed.
  destruct (py_floordiv _ _) as [q|]; [|done]. cbn [mbind result_bind].
  unfold is_dir, mkdir.
  destruct (fs !! as_posix (pic_dir_of USER q)) as [[|?]|] eqn:Hq; try done.
  - intros [= <- <-]. auto.
  - destruct (fs !! as_posix (parent _)) as [[|?]|]; try done.
    cbn [mbind result_bind]. intros [= <- <-].
    split; [by apply insert_subseteq|]. split; [apply lookup_insert_eq|].
    split; [|by rewrite Hq].
    intros k Hk. destruct (decide (as_posix (pic_dir_of USER q) = k)) as [<-|Hne].
    + right. apply lookup_insert_eq.
    + left. by rewrite lookup_insert_ne.
Qed.

Lemma dest_names_from_adds_dirs slugify USER args files :
  ∀ fs i plan fs',
    dest_names_from slugify USER args fs i files = Ok (plan, fs') →
    fs ⊆ fs' ∧
    (∀ k, fs !! k = None → fs' !! k = None ∨ fs' !! k = Some Dir) ∧
    dest_names_from slugify USER args fs' i files = Ok (plan, fs').
Proof.
  induction files as [|o rest IH]; intros fs i plan fs'; cbn [dest_names_from].
  - intros [= <- <-]. auto.
  - unfold _make_dest_name.
    destruct (_make_new_dir_if_needed USER args fs i) as [[pd fs1]|] eqn:Hmk; [|done].
    cbn [mbind result_bind].
    destruct (dest_names_from slugify USER args fs1 (S i) rest)
      as [[plan' fs2]|] eqn:Hrec; [|done].
    cbn [mbind result_bind]. intros [= <- <-].
    destruct (make_new_dir_adds_dir _ _ _ _ _ _ Hmk) as (Hsub1 & Hd1 & Hnew1 & _).
    destruct (IH _ _ _ _ Hrec) as (Hsub2 & Hnew2 & Hagain).
    split; [by etrans|]. split.
    + intros k Hk. destruct (Hnew1 k Hk) as [Hk1|Hk1]; [by apply Hnew2|].
      right. by eapply lookup_weaken.
    + (* the second call finds the bucket directory *)
      assert (Hd2 : fs2 !! as_posix pd = Some Dir) by (by eapply lookup_weaken).
      unfold _make_new_dir_if_needed in Hmk |- *.
      destruct (py_floordiv _ _) as [q|]; [|done].
      cbn [mbind result_bind] in Hmk |- *.
      assert (pd = pic_dir_of USER q) as ->.
      { destruct (is_dir fs _); [by injection Hmk|].
        destruct (mkdir fs _); [|done]. by injection Hmk. }
      unfold is_dir. rewrite Hd2. cbn [mbind result_bind].
      by rewrite Hagain.
Qed.

(** X2: calling [get_dest_filenames] a second time, on the file system
    the first call left, returns the same list and creates nothing. *)
Theorem get_dest_filenames_again slugify USER fs files args plan fs' :
  get_dest_filenames slugify USER fs files args = Ok (plan, fs') →
  get_dest_filenames slugify USER fs' files args = Ok (plan, fs').
Proof. intros Hrun. by eapply dest_names_from_adds_dirs. Qed.

Lemma get_dest_filenames_again_witness :
  get_dest_filenames slugify_model "u" planned_fs exported_files argparse_defaults
  = Ok (plan_from slugify_model "u" 1024 0 exported_files, planned_fs).
Proof.
  apply (get_dest_filenames_again slugify_model "u" catalog_fs).
  reflexivity.
Defined.

Lemma make_new_dir_shape USER args fs i pic_dir fs' :
  _make_new_dir_if_needed USER args fs i = Ok (pic_dir, fs') →
  (∃ n, pic_dir = pic_dir_of USER n) ∧
  (fs' = fs ∨ fs' = <[as_posix pic_dir := Dir]> fs).
Proof.
  unfold _make_new_dir_if_needed.
  destruct (py_floordiv _ _) as [q|]; [|done]. cbn [mbind result_bind].
  destruct (is_dir fs _).
  - intros [= <- <-]. split; [by eexists|by left].
  - unfold mkdir. destruct (fs !! as_posix (pic_dir_of USER q)); [done|].
    destruct (fs !! as_posix (parent _)) as [[|?]|]; try done.
    cbn [mbind result_bind]. intros [= <- <-]. split; [by eexists|by right].
Qed.

Lemma dest_names_from_shape slugify USER args files :
  ∀ fs i plan fs',
    dest_names_from slugify USER args fs i files = Ok (plan, fs') →
    (∀ k, fs' !! k = fs !! k ∨
          (fs' !! k = Some Dir ∧ ∃ n, k = as_posix (pic_dir_of USER n))) ∧
    (∀ o d, (o, d) ∈ plan →
       o ∈ files ∧
       ∃ n, d = Path_join (pic_dir_of USER n) (dest_slug slugify o) ∧
            fs' !! as_posix (pic_dir_of USER n) = Some Dir).
Proof.
  induction files as [|o rest IH]; intros fs i plan fs'; cbn [dest_names_from].
  - intros [= <- <-]. split; [by left|]. intros o d Hin.
    by apply elem_of_nil in Hin.
  - unfold _make_dest_name.
    destruct (_make_new_dir_if_needed USER args fs i) as [[pd fs1]|] eqn:Hmk; [|done].
    cbn [mbind result_bind].
    destruct (dest_names_from slugify USER args fs1 (S i) rest)
      as [[plan' fs2]|] eqn:Hrec; [|done].
    cbn [mbind result_bind]. intros [= <- <-].
    destruct (make_new_dir_adds_dir _ _ _ _ _ _ Hmk) as (_ & Hd1 & _).
    destruct (make_new_dir_shape _ _ _ _ _ _ Hmk) as [[n ->] Hfs1].
    destruct (dest_names_from_adds_dirs _ _ _ _ _ _ _ _ Hrec) as (Hsub2 & _ & _).
    destruct (IH _ _ _ _ Hrec) as [Hkeys Hplan]. split.
    + intros k. destruct (Hkeys k) as [Hk|Hk]; [|by right].
      destruct Hfs1 as [->| ->]; [by left|].
      destruct (decide (as_posix (pic_dir_of USER n) = k)) as [<-|Hne].
      * right. rewrite Hk, lookup_insert_eq. split; [done|by eexists].
      * left. by rewrite Hk, lookup_insert_ne.
    + intros o' d Hin. apply elem_of_cons in Hin as [[= -> ->]|Hin].
      * split; [apply list_elem_of_here|]. exists n. split; [done|].
        by eapply lookup_weaken.
      * destruct (Hplan _ _ Hin) as [Ho Hd].
        split; [by apply list_elem_of_further|done].
Qed.

(** X3: for any option values, when [get_dest_filenames] returns, the
    sources of its pairs are the given files in the given order, and every
    destination is a bucket directory joined with the file name computed for
    its source, where that bucket directory exists as a directory. *)
Theorem get_dest_filenames_pairs_sources_with_buckets
    slugify USER fs files args plan fs' :
  get_dest_filenames slugify USER fs files args = Ok (plan, fs') →
  plan.*1 = files ∧
  ∀ o d, (o, d) ∈ plan →
    ∃ n, d = Path_join (pic_dir_of USER n) (dest_slug slugify o) ∧
         is_dir fs' (pic_dir_of USER n) = true.
Proof.
  unfold get_dest_filenames. intros Hrun. split.
  - by eapply dest_names_from_sources.
  - intros o d Hin.
    destruct (dest_names_from_shape _ _ _ _ _ _ _ _ Hrun) as [_ Hshape].
    destruct (Hshape o d Hin) as (_ & n & -> & Hn).
    exists n. split; [done|]. unfold is_dir. by rewrite Hn.
Qed.

Lemma get_dest_filenames_pairs_sources_with_buckets_witness :
  (plan_from slugify_model "u" 1024 0 exported_files).*1 = exported_files ∧
  ∀ o d, (o, d) ∈ plan_from slugify_model "u" 1024 0 exported_files →
    ∃ n, d = Path_join (pic_dir_of "u" n) (dest_slug slugify_model o) ∧
         is_dir planned_fs (pic_dir_of "u" n) = true.
Proof.
  apply (get_dest_filenames_pairs_sources_with_buckets slugify_model "u"
           catalog_fs exported_files argparse_defaults).
  reflexivity.
Defined.

(** X4: [get_dest_filenames] changes the file system only by creating
    bucket directories: every existing path keeps what it holds, and a path
    that did not exist is still absent or is now a directory named
    [DEST_DIR/subdirNN]. *)
Theorem get_dest_filenames_only_adds_dirs slugify USER fs files args plan fs' :
  get_dest_filenames slugify USER fs files args = Ok (plan, fs') →
  (∀ k x, fs !! k = Some x → fs' !! k = Some x) ∧
  (∀ k, fs !! k = None →
     fs' !! k = None ∨
     (fs' !! k = Some Dir ∧ ∃ n, k = as_posix (pic_dir_of USER n))).
Proof.
  unfold get_dest_filenames. intros Hrun.
  destruct (dest_names_from_adds_dirs _ _ _ _ _ _ _ _ Hrun) as (Hsub & _ & _).
  destruct (dest_names_from_shape _ _ _ _ _ _ _ _ Hrun) as [Hkeys _].
  split; [intros k x Hk; by eapply lookup_weaken|].
  intros k Hk. destruct (Hkeys k) as [Hk'|Hk']; [left; congruence|by right].
Qed.

Lemma get_dest_filenames_only_adds_dirs_witness :
  (∀ k x, catalog_fs !! k = Some x → planned_fs !! k = Some x) ∧
  (∀ k, catalog_fs !! k = None →
     planned_fs !! k = None ∨
     (planned_fs !! k = Some Dir ∧ ∃ n, k = as_posix (pic_dir_of "u" n))).
Proof.
  apply (get_dest_filenames_only_adds_dirs slugify_model "u" catalog_fs
           exported_files argparse_defaults
           (plan_from slugify_model "u" 1024 0 exported_files)).
  reflexivity.
Defined.



Lemma slice_m4_m1_last4 {A} (pre : list A) a b c n :
  slice_m4_m1 (pre ++ [a; b; c; n]) = [a; b; c].
Proof.
  unfold slice_m4_m1. rewrite length_app. cbn [length].
  replace (length pre + 4 - 4) with (length pre + 0) by lia.
  rewrite drop_app_add. done.
Qed.

(** X6: for a path with at least three directories above the file, the
    date label is made of the last three of them, joined with hyphens,
    whatever comes before them. *)
Theorem date_label_of_three_parents (p : Path) pre y m d n :
  comps p = pre ++ [y; m; d; n] →
  _get_date_from_shotwell_directories p = y +:+ "-" +:+ m +:+ "-" +:+ d.
Proof.
  intros Hc. unfold _get_date_from_shotwell_directories, parts. rewrite Hc.
  case_bool_decide.
  - by rewrite slice_m4_m1_last4.
  - by rewrite (app_comm_cons pre), slice_m4_m1_last4.
Qed.

Lemma date_label_of_three_parents_witness :
  _get_date_from_shotwell_directories (Path_of "/p/2022/06/01/a.jpg")
  = "2022-06-01".
Proof.
  apply (date_label_of_three_parents (Path_of "/p/2022/06/01/a.jpg")
           ["p"] "2022" "06" "01" "a.jpg").
  reflexivity.
Defined.

Lemma from_last_dot_cons c s :
  from_last_dot (String c s) =
  match from_last_dot s with
  | Some t => Some t
  | None => if bool_decide (c = "."%char) then Some (String c s) else None
  end.
Proof. done. Qed.

Lemma from_last_dot_None s : from_last_dot s = None ↔ all_chars not_dot s = true.
Proof.
  induction s as [|c s IH]; [done|]. cbn [from_last_dot all_chars].
  unfold not_dot at 1. destruct (from_last_dot s) as [t|].
  - split; [done|]. rewrite andb_true_iff. intros [_ Hs]. by apply IH in Hs.
  - case_bool_decide; cbn; [done|].
    split; [intros _; by apply IH|done].
Qed.

Lemma from_last_dot_shape s t :
  from_last_dot s = Some t → ∃ r, t = String "." r ∧ all_chars not_dot r = true.
Proof.
  revert t. induction s as [|c s IH]; intros t; cbn [from_last_dot]; [done|].
  destruct (from_last_dot s) as [t'|] eqn:Hs.
  - intros [= <-]. by apply IH.
  - case_bool_decide as Hc; [|done]. intros [= <-]. subst c.
    exists s. split; [done|]. by apply from_last_dot_None.
Qed.

Lemma from_last_dot_app_Some s t u :
  from_last_dot t = Some u → from_last_dot (s +:+ t) = Some u.
Proof.
  intros Ht. induction s as [|c s IH]; [done|].
  rewrite app_cons. cbn [from_last_dot]. by rewrite IH.
Qed.

Lemma from_last_dot_app_None s t :
  all_chars not_dot s = true → from_last_dot t = None →
  from_last_dot (s +:+ t) = None.
Proof.
  intros Hs Ht. apply from_last_dot_None. rewrite all_chars_app, Hs.
  by apply from_last_dot_None.
Qed.

Lemma lower_char_not_dot c : not_dot (lower_char c) = not_dot c.
Proof. destruct c as [[] [] [] [] [] [] [] []]; by vm_compute. Qed.

Lemma lower_not_dot s : all_chars not_dot (lower s) = all_chars not_dot s.
Proof.
  induction s as [|c s IH]; [done|]. cbn [lower all_chars].
  by rewrite lower_char_not_dot, IH.
Qed.

Lemma length_lower s : String.length (lower s) = String.length s.
Proof. induction s as [|c s IH]; [done|]. cbn. by rewrite IH. Qed.

Lemma length_app_str s t :
  String.length (s +:+ t) = String.length s + String.length t.
Proof. induction s as [|c s IH]; [done|]. rewrite app_cons. cbn. by rewrite IH. Qed.

Lemma slug_char_not_dot c : slug_char c = true → not_dot c = true.
Proof. destruct c as [[] [] [] [] [] [] [] []]; by vm_compute. Qed.

(** The extension of a path is empty, or a dot followed by at least one
    character, none of them a dot. *)
Lemma suffix_shape p :
  suffix p = "" ∨
  ∃ c r, suffix p = String "." (String c r) ∧ all_chars not_dot (String c r) = true.
Proof.
  unfold suffix. destruct (from_last_dot (name p)) as [t|] eqn:Ht; [|by left].
  destruct (_ && _) eqn:Hlen; [|by left].
  apply from_last_dot_shape in Ht as (r & -> & Hr).
  apply andb_true_iff in Hlen as [_ Hlen]. apply Nat.ltb_lt in Hlen.
  destruct r as [|c r]; [cbn in Hlen; lia|]. right. eauto.
Qed.

Lemma suffix_of_slug_name s e :
  s ≠ "" → all_chars not_dot s = true →
  (e = "" ∨ ∃ c r, e = String "." (String c r) ∧ all_chars not_dot (String c r) = true) →
  ∀ p, name p = s +:+ e → suffix p = e.
Proof.
  intros Hs Hnd He p Hname. unfold suffix. rewrite Hname.
  destruct He as [->|(c & r & -> & Hr)].
  - rewrite from_last_dot_app_None; done.
  - rewrite (from_last_dot_app_Some s _ (String "." (String c r))).
    + rewrite length_app_str. destruct s as [|c0 s]; [done|].
      cbn [String.length].
      replace (_ <? _) with true by (symmetry; apply Nat.ltb_lt; lia).
      done.
    + apply from_last_dot_None in Hr.
      rewrite from_last_dot_cons, Hr. by rewrite bool_decide_eq_true_2.
Qed.

Lemma dest_slug_simple slugify orig_args :
  (∀ s, all_chars slug_char (slugify s) = true) →
  dest_slug slugify (parse_parts orig_args) ≠ "" →
  simple_name (dest_slug slugify (parse_parts orig_args)).
Proof.
  intros Hslug Hne. split.
  - unfold dest_slug. rewrite all_chars_app. apply andb_true_iff. split.
    + eapply all_chars_impl; [apply slug_char_no_slash|apply Hslug].
    + apply lower_no_slash, suffix_all_chars, name_no_slash.
  - unfold keep_component. rewrite bool_decide_eq_false_2 by done.
    rewrite bool_decide_eq_false_2; [done|].
    unfold dest_slug. intros Hdot.
    specialize (Hslug (as_posix (parse_parts
      [_get_date_from_shotwell_directories (parse_parts orig_args);
       stem (parse_parts orig_args)]))).
    destruct (slugify _) as [|c s] eqn:Hs.
    + destruct (suffix_shape (parse_parts orig_args)) as [He|(c & r & He & _)];
        rewrite He in Hdot; discriminate Hdot.
    + rewrite app_cons in Hdot. injection Hdot as -> _.
      cbn [all_chars] in Hslug. by apply andb_true_iff in Hslug as [? _].
Qed.

(** X7: when the slug transform yields only letters, digits, hyphens and
    underscores and the slug of a source is not empty, the destination built
    from a bucket directory lies directly in that directory, its name is the
    slug followed by the lowercased extension, and its extension is the
    lowercased extension of the source. *)
Theorem destination_in_bucket_with_extension slugify USER n orig_args :
  (∀ s, all_chars slug_char (slugify s) = true) →
  slugify (as_posix (parse_parts
     [_get_date_from_shotwell_directories (parse_parts orig_args);
      stem (parse_parts orig_args)])) ≠ "" →
  let orig := parse_parts orig_args in
  let dest := Path_join (pic_dir_of USER n) (dest_slug slugify orig) in
  parent dest = pic_dir_of USER n ∧
  name dest = dest_slug slugify orig ∧
  suffix dest = lower (suffix orig).
Proof.
  intros Hslug Hne orig dest.
  assert (Hne' : dest_slug slugify orig ≠ "").
  { unfold dest_slug, orig. destruct (slugify _); [done|]. by rewrite app_cons. }
  pose proof (dest_slug_simple slugify orig_args Hslug Hne') as Hsimple.
  assert (Hdest : dest = mkPath (root (pic_dir_of USER n))
                    (comps (pic_dir_of USER n) ++ [dest_slug slugify orig])).
  { unfold dest, pic_dir_of. by rewrite Path_join_simple. }
  assert (Hname : name dest = dest_slug slugify orig).
  { rewrite Hdest. unfold name. cbn [comps]. by rewrite last_last. }
  split; [|split; [done|]].
  - rewrite Hdest. unfold parent. cbn [root comps]. rewrite removelast_last.
    by destruct (pic_dir_of USER n).
  - apply (suffix_of_slug_name
      (slugify (as_posix (parse_parts
         [_get_date_from_shotwell_directories orig; stem orig])))); try done.
    + eapply all_chars_impl; [apply slug_char_not_dot|apply Hslug].
    + destruct (suffix_shape orig) as [->|(c & r & -> & Hr)]; [by left|].
      right. exists (lower_char c), (lower r). split; [done|].
      change (String (lower_char c) (lower r)) with (lower (String c r)).
      by rewrite lower_not_dot.
Qed.

Lemma destination_in_bucket_with_extension_witness :
  parent (Path_join (pic_dir_of "u" 0)
            (dest_slug slugify_model (parse_parts ["/p/2022/06/01/a.JPG"])))
  = pic_dir_of "u" 0 ∧
  name (Path_join (pic_dir_of "u" 0)
          (dest_slug slugify_model (parse_parts ["/p/2022/06/01/a.JPG"])))
  = dest_slug slugify_model (parse_parts ["/p/2022/06/01/a.JPG"]) ∧
  suffix (Path_join (pic_dir_of "u" 0)
            (dest_slug slugify_model (parse_parts ["/p/2022/06/01/a.JPG"])))
  = lower (suffix (parse_parts ["/p/2022/06/01/a.JPG"])).
Proof.
  apply (destination_in_bucket_with_extension slugify_model "u" 0
           ["/p/2022/06/01/a.JPG"]).
  - apply slugify_model_slug_chars.
  - vm_compute. discriminate.
Defined.

Lemma parse_parts_rejoin_empty args :
  Path_join (parse_parts args) "" = parse_parts args.
Proof.
  destruct (parse_parts_wf args) as [Hroot Hcomps].
  unfold Path_join, parts. destruct (parse_parts args) as [r l]. cbn [root comps] in *.
  assert (Hl : parse_parts (l ++ [""]) = mkPath "" l).
  { clear Hroot. induction Hcomps as [|x l Hx Hl IH]; [done|].
    cbn [app parse_parts]. rewrite IH. cbn [root comps].
    rewrite (bool_decide_eq_true_2 ("" = "")) by done.
    rewrite (splitroot_simple x Hx). destruct Hx as [Hx Hk].
    by rewrite (split_slash_simple x Hx), filter_cons_True, filter_nil by done. }
  destruct Hroot as [->|[->| ->]].
  - by rewrite bool_decide_eq_true_2.
  - rewrite bool_decide_eq_false_2 by done.
    rewrite <- app_comm_cons. cbn [parse_parts]. by rewrite Hl.
  - rewrite bool_decide_eq_false_2 by done.
    rewrite <- app_comm_cons. cbn [parse_parts]. by rewrite Hl.
Qed.

(** X8: when the computed file name is empty (empty slug, no
    extension), the destination returned by [_make_dest_name] is the bucket
    directory itself, which exists as a directory: the copy loop will count
    such an item as already there. *)
Theorem empty_slug_maps_to_bucket_directory slugify USER fs args orig i dest fs' :
  dest_slug slugify orig = "" →
  _make_dest_name slugify USER args fs orig i = Ok (dest, fs') →
  is_dir fs' dest = true ∧
  ∃ n, dest = pic_dir_of USER n.
Proof.
  intros Hempty. unfold _make_dest_name. rewrite Hempty.
  destruct (_make_new_dir_if_needed USER args fs i) as [[pd fs1]|] eqn:Hmk; [|done].
  cbn [mbind result_bind]. intros [= <- <-].
  destruct (make_new_dir_adds_dir _ _ _ _ _ _ Hmk) as (_ & Hd & _).
  assert (∃ n, pd = pic_dir_of USER n) as [n ->].
  { unfold _make_new_dir_if_needed in Hmk.
    destruct (py_floordiv _ _) as [q|]; [|done]. cbn [mbind result_bind] in Hmk.
    exists q. destruct (is_dir fs _); [by injection Hmk|].
    destruct (mkdir fs _); [|done]. by injection Hmk. }
  unfold pic_dir_of in *. rewrite parse_parts_rejoin_empty.
  split; [|by eexists]. unfold is_dir. by rewrite Hd.
Qed.

Lemma empty_slug_maps_to_bucket_directory_witness :
  is_dir planned_fs (pic_dir_of "u" 0) = true ∧
  ∃ n, pic_dir_of "u" 0 = pic_dir_of "u" n.
Proof.
  apply (empty_slug_maps_to_bucket_directory slugify_model "u" catalog_fs
           argparse_defaults (Path_of "/") 0).
  - reflexivity.
  - reflexivity.
Defined.

(** ** Bucket directories *)

Lemma digits_value_decimal n : digits_value (decimal n) = Some n.
Proof.
  unfold digits_value, decimal, DecimalString.NilZero.string_of_uint.
  pose proof (DecimalN.Unsigned.of_to n) as Hn.
  destruct (N.to_uint n); [by rewrite <- Hn|..]; cbv beta iota;
    rewrite DecimalString.NilEmpty.usu; cbn [option_map]; by rewrite Hn.
Qed.

Lemma digits_value_zero s :
  digits_value (String "0" s) = digits_value s.
Proof.
  unfold digits_value. cbn [DecimalString.NilEmpty.uint_of_string].
  by destruct (DecimalString.NilEmpty.uint_of_string s).
Qed.

Lemma digits_value_minus s : digits_value (String "-" s) = None.
Proof.
  unfold digits_value. cbn [DecimalString.NilEmpty.uint_of_string].
  by destruct (DecimalString.NilEmpty.uint_of_string s).
Qed.

Lemma digits_value_format_02 n :
  digits_value (format_02 n) = if (n <? 0)%Z then None else Some (Z.to_N n).
Proof.
  unfold format_02. destruct n as [|p|p]; cbn zeta.
  - done.
  - case_match; [rewrite app_cons, digits_value_zero|]; apply digits_value_decimal.
  - apply digits_value_minus.
Qed.

Lemma format_02_inj a b : format_02 a = format_02 b → a = b.
Proof.
  intros Heq. pose proof (digits_value_format_02 a) as Ha.
  pose proof (digits_value_format_02 b) as Hb. rewrite Heq in Ha.
  destruct a as [|p|p], b as [|q|q]; cbn in Ha, Hb; try congruence.
  unfold format_02 in Heq. rewrite !app_cons in Heq. injection Heq as Heq.
  change (decimal (Npos p) = decimal (Npos q)) in Heq.
  pose proof (digits_value_decimal (Npos p)) as Hp.
  rewrite Heq, digits_value_decimal in Hp. congruence.
Qed.

Lemma join_last_inj sep l x y :
  join sep (l ++ [x]) = join sep (l ++ [y]) → x = y.
Proof.
  induction l as [|c l IH]; [done|].
  assert (Hj : ∀ z, join sep (c :: l ++ [z]) = c +:+ sep +:+ join sep (l ++ [z]))
    by (intros z; by destruct l).
  cbn [app]. rewrite !Hj. intros Heq. by apply String.app_inj, String.app_inj in Heq; auto.
Qed.

Lemma join_last_nonempty sep l x : x ≠ "" → join sep (l ++ [x]) ≠ "".
Proof.
  intros Hx. induction l as [|c l IH]; [done|].
  replace (join sep ((c :: l) ++ [x])) with (c +:+ sep +:+ join sep (l ++ [x]))
    by (by destruct l).
  intros Heq. apply IH. destruct c; [|done]. cbn in Heq.
  destruct sep; [done|done].
Qed.

(** X9: different bucket numbers, negative ones included, give
    different bucket directories: the two-digit zero padding of
    [f"subdir{subdir_num:02}"] never makes two numbers collide. *)
Theorem bucket_directories_distinct USER a b :
  a ≠ b → as_posix (pic_dir_of USER a) ≠ as_posix (pic_dir_of USER b).
Proof.
  intros Hab. rewrite !pic_dir_of_eq. unfold as_posix. cbn [root comps].
  assert (Hne : ∀ n, root (Path_of (DEST_DIR USER)) +:+
                     join "/" (comps (Path_of (DEST_DIR USER))
                               ++ ["subdir" +:+ format_02 n]) ≠ "").
  { intros n Heq.
    apply (join_last_nonempty "/" (comps (Path_of (DEST_DIR USER)))
             ("subdir" +:+ format_02 n)); [done|].
    by destruct (root (Path_of (DEST_DIR USER))). }
  rewrite !bool_decide_eq_false_2 by apply Hne.
  intros Heq. apply String.app_inj, join_last_inj in Heq.
  apply Hab, format_02_inj. by apply (String.app_inj "subdir").
Qed.

Lemma bucket_directories_distinct_witness :
  (9 ≠ 10)%Z ∧ as_posix (pic_dir_of "u" 9) ≠ as_posix (pic_dir_of "u" 10).
Proof.
  split; [lia|]. apply (bucket_directories_distinct "u" 9 10). lia.
Defined.

(** ** More on [shrink_large] *)

Lemma shrink_large_frame fs file pix_limit skip b fs' :
  shrink_large fs file pix_limit skip = (fs', Ok b) →
  (b = false ∧ fs' = fs) ∨
  (b = true ∧ skip = false ∧ ∃ limit img size out,
     pix_limit = PyInt limit ∧
     fs !! as_posix file = Some (File (Pixels img)) ∧
     (limit < num_pixels_of img)%Z ∧ new_size limit img = Ok size ∧
     resize img size = Ok out ∧
     fs' = <[as_posix file := File (Pixels out)]> fs).
Proof.
  intros Hrun. apply shrink_large_cases in Hrun
    as [[-> [[= <-]|[e [=]]]]
       |(limit & img & size & out & -> & -> & Hd & Hn & Hsize & Hout
         & [([= <-] & _ & ->)|(e & [=] & _)])].
  - by left.
  - right. split; [done|]. split; [done|]. by exists limit, img, size, out.
Qed.

(** X10: whatever the limit value and the skip flag, a call of
    [shrink_large] that returns leaves every other path as it was; when it
    returns [False] the file system is unchanged altogether, and it returns
    [True] only if resizing was not skipped, the file held an image whose
    pixel count exceeds the limit, and the file holds an image afterwards. *)
Theorem shrink_large_touches_only_its_file fs file pix_limit skip b fs' :
  shrink_large fs file pix_limit skip = (fs', Ok b) →
  (∀ k, k ≠ as_posix file → fs' !! k = fs !! k) ∧
  (b = false → fs' = fs) ∧
  (b = true →
   skip = false ∧
   ∃ img out, fs !! as_posix file = Some (File (Pixels img)) ∧
              fs' !! as_posix file = Some (File (Pixels out)) ∧
              py_gt (num_pixels_of img) pix_limit = Ok true).
Proof.
  intros Hrun. apply shrink_large_frame in Hrun
    as [[-> ->]
       |(-> & -> & limit & img & size & out & -> & Hd & Hn & Hsize & Hout & ->)].
  - done.
  - split; [|split; [done|]].
    + intros k Hk. by rewrite lookup_insert_ne.
    + intros _. split; [done|]. exists img, out.
      split; [done|]. split; [by rewrite lookup_insert_eq|].
      cbn [py_gt]. f_equal. by apply Z.ltb_lt.
Qed.

Lemma shrink_large_touches_only_its_file_witness :
  (∀ k, k ≠ as_posix (Path_of "a.jpg") →
     ({[ "a.jpg" := File (Pixels (mkImage 633 475)) ]} : filesystem) !! k
     = ({[ "a.jpg" := File (Pixels (mkImage 4000 3000)) ]} : filesystem) !! k) ∧
  (true = false →
   ({[ "a.jpg" := File (Pixels (mkImage 633 475)) ]} : filesystem)
   = {[ "a.jpg" := File (Pixels (mkImage 4000 3000)) ]}) ∧
  (true = true →
   false = false ∧
   ∃ img out,
     ({[ "a.jpg" := File (Pixels (mkImage 4000 3000)) ]} : filesystem)
       !! as_posix (Path_of "a.jpg") = Some (File (Pixels img)) ∧
     ({[ "a.jpg" := File (Pixels (mkImage 633 475)) ]} : filesystem)
       !! as_posix (Path_of "a.jpg") = Some (File (Pixels out)) ∧
     py_gt (num_pixels_of img) (PyInt 1900000) = Ok true).
Proof.
  apply (shrink_large_touches_only_its_file
           {[ "a.jpg" := File (Pixels (mkImage 4000 3000)) ]} (Path_of "a.jpg")
           (PyInt 1900000) false true
           {[ "a.jpg" := File (Pixels (mkImage 633 475)) ]}).
  reflexivity.
Defined.

(** X11: for an integer limit below [2^52] and image sides below [2^53],
    after [shrink_large] has returned the file is within the pixel budget,
    and calling it again returns [False] and changes nothing. *)
Theorem shrink_large_second_pass_is_idle fs file limit b fs' :
  (0 ≤ limit < 2 ^ 52)%Z →
  (∀ img, fs !! as_posix file = Some (File (Pixels img)) →
     (0 ≤ width img < 2 ^ 53 ∧ 0 ≤ height img < 2 ^ 53)%Z) →
  shrink_large fs file (PyInt limit) false = (fs', Ok b) →
  within_budget limit fs' file ∧
  shrink_large fs' file (PyInt limit) false = (fs', Ok false).
Proof.
  intros Hl Hdims Hrun. pose proof Hrun as Hrun'.
  apply shrink_large_frame in Hrun
    as [[-> ->]
       |(-> & _ & limit' & img & size & out & [= <-] & Hd & Hn & Hsize & Hout
         & ->)].
  - split; [|done]. intros img Hd. unfold shrink_large, Image_open in Hrun'.
    rewrite Hd in Hrun'. cbn [py_gt] in Hrun'. unfold num_pixels_of.
    destruct (limit <? height img * width img)%Z eqn:Hcmp;
      [|by apply Z.ltb_ge in Hcmp].
    exfalso. destruct (size ← new_size limit img; resize img size) as [out|e];
      [|done]. by destruct (save fs file out) as [fs2 [[]|e]].
  - destruct (Hdims _ Hd) as [Hw Hh].
    destruct (new_size_within_budget limit img size out Hl Hw Hh Hn Hsize Hout)
      as (_ & _ & Hn').
    assert (Hb : within_budget limit (<[as_posix file := File (Pixels out)]> fs)
                   file).
    { intros img'. rewrite lookup_insert_eq. by intros [= <-]. }
    split; [done|].
    apply (shrink_large_not_too_big _ _ out); [|done].
    by rewrite lookup_insert_eq.
Qed.

Lemma shrink_large_second_pass_is_idle_witness :
  within_budget 1900000 {[ "a.jpg" := File (Pixels (mkImage 633 475)) ]}
    (Path_of "a.jpg") ∧
  shrink_large {[ "a.jpg" := File (Pixels (mkImage 633 475)) ]} (Path_of "a.jpg")
    (PyInt 1900000) false
  = ({[ "a.jpg" := File (Pixels (mkImage 633 475)) ]}, Ok false).
Proof.
  apply (shrink_large_second_pass_is_idle
           {[ "a.jpg" := File (Pixels (mkImage 4000 3000)) ]} (Path_of "a.jpg")
           1900000 true).
  - lia.
  - intros img Himg. vm_compute in Himg. injection Himg as <-. cbn. lia.
  - reflexivity.
Defined.

(** X12: for an image over the limit (limit below [2^52], positive sides
    below [2^53]) the requested size is computed without error, each
    requested side is strictly smaller than the original one, and a side is
    requested as 0 when the limit is smaller than the other side. *)
Theorem new_size_reduces_both_sides limit img :
  (0 ≤ limit < 2 ^ 52)%Z → (0 < width img < 2 ^ 53)%Z →
  (0 < height img < 2 ^ 53)%Z → (limit < height img * width img)%Z →
  ∃ nw nh, new_size limit img = Ok (nw, nh) ∧
    (0 ≤ nw < width img)%Z ∧ (0 ≤ nh < height img)%Z ∧
    ((limit < height img)%Z → nw = 0%Z) ∧
    ((limit < width img)%Z → nh = 0%Z).
Proof.
  intros Hl Hw Hh Hn.
  destruct (new_size_spec limit img Hl Hw Hh Hn)
    as (nw & nh & Hsize & Hw0 & Hwb & Hh0 & Hhb).
  exists nw, nh. split; [done|].
  assert (limit / height img < width img)%Z
    by (apply Z.div_lt_upper_bound; lia).
  assert (limit / width img < height img)%Z
    by (apply Z.div_lt_upper_bound; lia).
  split; [lia|]. split; [lia|]. split.
  - intros Hlt. rewrite Z.div_small in Hwb by lia. lia.
  - intros Hlt. rewrite Z.div_small in Hhb by lia. lia.
Qed.

Lemma new_size_reduces_both_sides_witness :
  ∃ nw nh, new_size 1900000 (mkImage 1 3000000) = Ok (nw, nh) ∧
    (0 ≤ nw < width (mkImage 1 3000000))%Z ∧
    (0 ≤ nh < height (mkImage 1 3000000))%Z ∧
    ((1900000 < height (mkImage 1 3000000))%Z → nw = 0%Z) ∧
    ((1900000 < width (mkImage 1 3000000))%Z → nh = 0%Z).
Proof.
  apply (new_size_reduces_both_sides 1900000 (mkImage 1 3000000)); cbn; lia.
Defined.

(** ** More on the copy/resize loop *)

Lemma keeps_kinds_refl fs : keeps_kinds fs fs.
Proof. intros k. split; [done|]. intros x Hk. by exists x. Qed.

Lemma keeps_kinds_trans fs1 fs2 fs3 :
  keeps_kinds fs1 fs2 → keeps_kinds fs2 fs3 → keeps_kinds fs1 fs3.
Proof.
  intros H12 H23 k. split.
  - intros Hk. by apply H23, H12.
  - intros x Hk. destruct (H12 k) as [_ Hf]. destruct (Hf x Hk) as [y Hy].
    by eapply H23.
Qed.

Lemma keeps_kinds_subseteq (fs fs' : filesystem) : fs ⊆ fs' → keeps_kinds fs fs'.
Proof.
  intros Hsub k. split.
  - intros Hk. by eapply lookup_weaken.
  - intros x Hk. exists x. by eapply lookup_weaken.
Qed.

Lemma keeps_kinds_insert_file (fs : filesystem) k c c' :
  fs !! k = Some (File c) → keeps_kinds fs (<[k := File c']> fs).
Proof.
  intros Hk k'. destruct (decide (k = k')) as [<-|Hne].
  - rewrite lookup_insert_eq. split; [by rewrite Hk|]. intros x _. by eexists.
  - rewrite lookup_insert_ne by done. split; [done|]. intros x Hx. by exists x.
Qed.

Lemma process_item_frame args fs c orig dest fs' c' :
  process_item args (fs, c) (orig, dest) = Ok (fs', c') →
  keeps_kinds fs fs' ∧
  (∀ k, k ≠ as_posix dest → fs' !! k = fs !! k) ∧
  size fs' + copied c = size fs + copied c' ∧
  error c ≤ error c' ∧
  (RESIZE_SKIP args = true → fs ⊆ fs' ∧ resized c' = resized c) ∧
  (resized c' = resized c ∨ resized c' = resized c ++ [orig]).
Proof.
  intros Hrun. apply process_item_inv in Hrun
    as [(_ & _ & -> & ->)|(fs1 & c1 & Hcopy & Hres)].
  { cbn. split; [apply keeps_kinds_refl|]. split; [done|]. split; [done|].
    split; [lia|]. split; [done|]. by left. }
  assert (keeps_kinds fs fs1 ∧ (∀ k, k ≠ as_posix dest → fs1 !! k = fs !! k) ∧
          size fs1 + copied c = size fs + copied c1 ∧ error c1 = error c ∧
          fs ⊆ fs1 ∧ resized c1 = resized c) as (Hext & Hfr & Hsz & Herr & Hsub & Hrs).
  { apply copy_phase_inv in Hcopy as [(Hex & -> & ->)|(Hex & -> & x & Hx & ->)].
    - cbn. split; [apply keeps_kinds_refl|]. done.
    - unfold path_exists in Hex.
      destruct (fs !! as_posix dest) eqn:Hd; [done|]. cbn.
      split; [by apply keeps_kinds_subseteq, insert_subseteq|].
      split; [intros k Hk; by rewrite lookup_insert_ne|].
      split; [rewrite map_size_insert_None by done; lia|].
      split; [done|]. split; [by apply insert_subseteq|done]. }
  destruct Hres as [[Hs ->]|[[Hs ->]|(e & Hs & He & ->)]].
  - apply shrink_large_frame in Hs as [[_ ->]|(? & _)]; [|done].
    split; [done|]. split; [done|]. split; [done|]. split; [lia|].
    split; [done|]. by left.
  - apply shrink_large_frame in Hs
      as [[? _]|(_ & Hskip & limit & img & size & out & _ & Hd & _ & _ & _ & ->)];
      [done|].
    cbn [append_resized copied error resized].
    split; [eapply keeps_kinds_trans; [done|by eapply keeps_kinds_insert_file]|].
    split; [intros k Hk; rewrite lookup_insert_ne by done; auto|].
    split; [by rewrite map_size_insert_Some|].
    split; [lia|]. split; [|right; by rewrite Hrs].
    intros Hskip'. congruence.
  - apply shrink_large_cases in Hs
      as [[-> _]|(limit & img & size & out & Hskip & _ & Hd & _ & _ & _
                  & [([=] & _)|(e' & _ & [->| ->])])].
    + split; [done|]. split; [done|]. split; [done|]. split; [lia|].
      split; [done|]. by left.
    + split; [done|]. split; [done|]. split; [done|]. split; [lia|].
      split; [done|]. by left.
    + split; [eapply keeps_kinds_trans; [done|by eapply keeps_kinds_insert_file]|].
      split; [intros k Hk; rewrite lookup_insert_ne by done; auto|].
      split; [by rewrite map_size_insert_Some|].
      split; [lia|]. split; [|by left].
      intros Hskip'. congruence.
Qed.

Lemma run_items_frame args items :
  ∀ fs c fs' c',
    run_items args items (fs, c) = Ok (fs', c') →
    keeps_kinds fs fs' ∧
    (∀ k, k ∉ dest_keys items → fs' !! k = fs !! k) ∧
    size fs' + copied c = size fs + copied c' ∧
    error c ≤ error c' ∧
    (RESIZE_SKIP args = true → fs ⊆ fs' ∧ resized c' = resized c) ∧
    (∃ l, resized c' = resized c ++ l ∧ l `sublist_of` items.*1).
Proof.
  induction items as [|[orig dest] items IH]; intros fs c fs' c'; cbn [run_items].
  - intros [= <- <-]. split; [apply keeps_kinds_refl|]. split; [done|].
    split; [done|]. split; [done|]. split; [done|].
    exists []. by rewrite app_nil_r.
  - destruct (process_item args (fs, c) (orig, dest)) as [[fs1 c1]|] eqn:Hitem;
      [|done].
    cbn [mbind result_bind]. intros Hrest.
    destruct (process_item_frame _ _ _ _ _ _ _ Hitem)
      as (Hext1 & Hfr1 & Hsz1 & Herr1 & Hskip1 & Hrs1).
    destruct (IH _ _ _ _ Hrest) as (Hext & Hfr & Hsz & Herr & Hskip & l & Hl & Hsl).
    split; [by eapply keeps_kinds_trans|]. split; [|split; [lia|split; [lia|split]]].
    + intros k Hk. unfold dest_keys in Hk. cbn [map] in Hk.
      apply not_elem_of_cons in Hk as [Hk1 Hk2].
      rewrite Hfr by done. by apply Hfr1.
    + intros Hs. destruct (Hskip1 Hs) as [Hsub1 Hr1].
      destruct (Hskip Hs) as [Hsub Hr]. split; [by etrans|congruence].
    + cbn [fmap list_fmap fst]. destruct Hrs1 as [Hrs1|Hrs1].
      * exists l. split; [congruence|]. by apply sublist_cons.
      * exists (orig :: l). split; [rewrite Hl, Hrs1, <- app_assoc; done|].
        by apply sublist_skip.
Qed.

(** X13: whatever the options, when [copy_and_resize] returns, every
    directory that existed is still a directory and every regular file that
    existed is still a regular file: nothing is removed and no path changes
    its kind. *)
Theorem copy_and_resize_never_removes slugify USER fs files args fs' c :
  copy_and_resize slugify USER fs files args = Ok (fs', c) →
  ∀ k, (fs !! k = Some Dir → fs' !! k = Some Dir) ∧
       (∀ x, fs !! k = Some (File x) → ∃ y, fs' !! k = Some (File y)).
Proof.
  unfold copy_and_resize. intros Hrun.
  destruct (get_dest_filenames slugify USER fs files args)
    as [[plan fs1]|] eqn:Hplan; [|done].
  cbn [mbind result_bind] in Hrun. unfold get_dest_filenames in Hplan.
  destruct (dest_names_from_adds_dirs _ _ _ _ _ _ _ _ Hplan) as (Hsub & _ & _).
  apply run_items_frame in Hrun as (Hkeep & _).
  apply (keeps_kinds_trans fs fs1 fs'); [by apply keeps_kinds_subseteq|done].
Qed.

Lemma copy_and_resize_never_removes_witness :
  copy_and_resize slugify_model "u" catalog_fs exported_files argparse_defaults
  = Ok (exported_fs, mkCounts 0 2 0 [Path_of "/p/2022/06/01/a.jpg"]) ∧
  ∀ k, (catalog_fs !! k = Some Dir → exported_fs !! k = Some Dir) ∧
       (∀ x, catalog_fs !! k = Some (File x) →
             ∃ y, exported_fs !! k = Some (File y)).
Proof.
  split; [apply first_export|].
  apply (copy_and_resize_never_removes slugify_model "u" catalog_fs
           exported_files argparse_defaults exported_fs
           (mkCounts 0 2 0 [Path_of "/p/2022/06/01/a.jpg"])).
  apply first_export.
Defined.

(** X14: the loop of [copy_and_resize] writes at destination paths
    only: a path that is no destination of the list holds after the run what
    it held after [get_dest_filenames], and an existing path that is no
    destination, a source file for instance, keeps its content. *)
Theorem copy_and_resize_writes_only_destinations
    slugify USER fs files args plan fs1 fs' c :
  get_dest_filenames slugify USER fs files args = Ok (plan, fs1) →
  copy_and_resize slugify USER fs files args = Ok (fs', c) →
  (∀ k, k ∉ dest_keys plan → fs' !! k = fs1 !! k) ∧
  (∀ k x, fs !! k = Some x → k ∉ dest_keys plan → fs' !! k = Some x).
Proof.
  unfold copy_and_resize. intros Hplan. rewrite Hplan. cbn [mbind result_bind].
  intros Hrun. apply run_items_frame in Hrun as (_ & Hfr & _).
  split; [done|]. intros k x Hk Hnot. rewrite Hfr by done.
  unfold get_dest_filenames in Hplan.
  destruct (dest_names_from_adds_dirs _ _ _ _ _ _ _ _ Hplan) as (Hsub & _ & _).
  by eapply lookup_weaken.
Qed.

Lemma copy_and_resize_writes_only_destinations_witness :
  (∀ k, k ∉ dest_keys (plan_from slugify_model "u" 1024 0 exported_files) →
     exported_fs !! k = planned_fs !! k) ∧
  (∀ k x, catalog_fs !! k = Some x →
     k ∉ dest_keys (plan_from slugify_model "u" 1024 0 exported_files) →
     exported_fs !! k = Some x).
Proof.
  apply (copy_and_resize_writes_only_destinations slugify_model "u" catalog_fs
           exported_files argparse_defaults
           (plan_from slugify_model "u" 1024 0 exported_files) planned_fs
           exported_fs (mkCounts 0 2 0 [Path_of "/p/2022/06/01/a.jpg"])).
  - reflexivity.
  - apply first_export.
Defined.

(** X15: the [copied] counter is exactly the number of paths the loop
    created, and it never exceeds the number of distinct destinations:
    sources that share a destination are copied at most once. *)
Theorem copied_counts_new_paths slugify USER fs files args plan fs1 fs' c :
  get_dest_filenames slugify USER fs files args = Ok (plan, fs1) →
  copy_and_resize slugify USER fs files args = Ok (fs', c) →
  size fs' = size fs1 + copied c ∧
  copied c ≤ size (list_to_set (dest_keys plan) : gset string).
Proof.
  unfold copy_and_resize. intros Hplan. rewrite Hplan. cbn [mbind result_bind].
  intros Hrun. apply run_items_frame in Hrun as (Hkeep & Hfr & Hsz & _).
  cbn [counts_init copied] in Hsz. split; [lia|].
  assert (Hdom : dom fs' ⊆ dom fs1 ∪ list_to_set (dest_keys plan)).
  { intros k Hk. apply elem_of_union.
    destruct (decide (k ∈ dest_keys plan)) as [Hin|Hnot].
    - right. by apply elem_of_list_to_set.
    - left. apply elem_of_dom. rewrite <- Hfr by done. by apply elem_of_dom. }
  apply subseteq_size in Hdom. rewrite size_union_alt, !size_dom in Hdom.
  assert (size (list_to_set (dest_keys plan) ∖ dom fs1 : gset string)
          ≤ size (list_to_set (dest_keys plan) : gset string))
    by (apply subseteq_size, subseteq_difference_l; done).
  lia.
Qed.

Lemma copied_counts_new_paths_witness :
  size exported_fs
  = size planned_fs + copied (mkCounts 0 2 0 [Path_of "/p/2022/06/01/a.jpg"]) ∧
  copied (mkCounts 0 2 0 [Path_of "/p/2022/06/01/a.jpg"])
  ≤ size (list_to_set
            (dest_keys (plan_from slugify_model "u" 1024 0 exported_files))
          : gset string).
Proof.
  apply (copied_counts_new_paths slugify_model "u" catalog_fs exported_files
           argparse_defaults).
  - reflexivity.
  - apply first_export.
Defined.

(** X16: with [RESIZE_SKIP] set, a run that returns reports no resized
    file and leaves every existing path with the content it had. *)
Theorem resize_skip_modifies_nothing slugify USER fs files args fs' c :
  RESIZE_SKIP args = true →
  copy_and_resize slugify USER fs files args = Ok (fs', c) →
  resized c = [] ∧ ∀ k x, fs !! k = Some x → fs' !! k = Some x.
Proof.
  unfold copy_and_resize. intros Hskip Hrun.
  destruct (get_dest_filenames slugify USER fs files args)
    as [[plan fs1]|] eqn:Hplan; [|done].
  cbn [mbind result_bind] in Hrun. unfold get_dest_filenames in Hplan.
  destruct (dest_names_from_adds_dirs _ _ _ _ _ _ _ _ Hplan) as (Hsub & _ & _).
  apply run_items_frame in Hrun as (_ & _ & _ & _ & Hs & _).
  destruct (Hs Hskip) as [Hsub' Hr]. split; [done|].
  intros k x Hk. eapply lookup_weaken; [|done]. by eapply lookup_weaken.
Qed.

Lemma resize_skip_modifies_nothing_witness :
  resized (mkCounts 0 2 0 []) = [] ∧
  ∀ k x, catalog_fs !! k = Some x → copied_fs !! k = Some x.
Proof.
  apply (resize_skip_modifies_nothing slugify_model "u" catalog_fs
           exported_files skip_args).
  - reflexivity.
  - vm_compute. reflexivity.
Defined.

(** X17: the [resized] list of a run that returns is a sublist of the
    given source files: each entry is a source, in catalog order, listed at
    most once per occurrence in the catalog. *)
Theorem resized_is_sublist_of_sources slugify USER fs files args fs' c :
  copy_and_resize slugify USER fs files args = Ok (fs', c) →
  resized c `sublist_of` files.
Proof.
  unfold copy_and_resize. intros Hrun.
  destruct (get_dest_filenames slugify USER fs files args)
    as [[plan fs1]|] eqn:Hplan; [|done].
  cbn [mbind result_bind] in Hrun. unfold get_dest_filenames in Hplan.
  apply dest_names_from_sources in Hplan as <-.
  apply run_items_frame in Hrun as (_ & _ & _ & _ & _ & l & -> & Hl). done.
Qed.

Lemma resized_is_sublist_of_sources_witness :
  resized (mkCounts 0 2 0 [Path_of "/p/2022/06/01/a.jpg"])
    `sublist_of` exported_files.
Proof.
  apply (resized_is_sublist_of_sources slugify_model "u" catalog_fs
           exported_files argparse_defaults exported_fs).
  apply first_export.
Defined.

(** X18: when the loop reaches an item whose destination does not exist
    and whose source is a directory, the copy raises [IsADirectoryError],
    which [except FileNotFoundError] does not catch: the loop ends with
    that exception whatever has been processed before and whatever items
    follow. *)
Theorem directory_source_aborts args items1 orig dest items2 st fs1 c1 :
  run_items args items1 st = Ok (fs1, c1) →
  path_exists fs1 dest = false →
  fs1 !! as_posix orig = Some Dir →
  run_items args (items1 ++ (orig, dest) :: items2) st = Raise IsADirectoryError.
Proof.
  intros Hrun Hex Hdir. rewrite run_items_app, Hrun.
  cbn [mbind result_bind run_items]. unfold process_item, copy_phase, copy.
  by rewrite Hex, Hdir.
Qed.

Lemma directory_source_aborts_witness :
  run_items argparse_defaults
    ([] ++ [(Path_of "/p/2022", Path_of "/d/2022"); (Path_of "/p/a.jpg", Path_of "/d/a.jpg")])
    ({[ "/p/2022" := Dir; "/d" := Dir ]}, counts_init)
  = Raise IsADirectoryError.
Proof.
  apply (directory_source_aborts argparse_defaults [] (Path_of "/p/2022")
           (Path_of "/d/2022") [(Path_of "/p/a.jpg", Path_of "/d/a.jpg")]
           ({[ "/p/2022" := Dir; "/d" := Dir ]}, counts_init)
           {[ "/p/2022" := Dir; "/d" := Dir ]} counts_init).
  - reflexivity.
  - reflexivity.
  - reflexivity.
Defined.

Lemma run_items_faithful args items :
  RESIZE_SKIP args = true →
  ∀ fs c fs' c',
    run_items args items (fs, c) = Ok (fs', c') →
    error c' = error c →
    NoDup (dest_keys items) →
    (∀ k, k ∈ dest_keys items → fs !! k = None) →
    copied c' = copied c + length items ∧
    ∀ o d, (o, d) ∈ items →
      ∃ x, fs' !! as_posix o = Some (File x) ∧ fs' !! as_posix d = Some (File x).
Proof.
  intros Hskip. induction items as [|[orig dest] items IH];
    intros fs c fs' c'; cbn [run_items].
  - intros [= <- <-] _ _ _. split; [cbn; lia|].
    intros o d Hin. by apply elem_of_nil in Hin.
  - destruct (process_item args (fs, c) (orig, dest)) as [[fs1 c1]|] eqn:Hitem;
      [|done].
    cbn [mbind result_bind]. intros Hrest Herr Hnd Hfresh.
    unfold dest_keys in Hnd, Hfresh. cbn [map] in Hnd, Hfresh.
    apply NoDup_cons in Hnd as [Hnotin Hnd].
    pose proof (run_items_frame _ _ _ _ _ _ Hrest) as (_ & _ & _ & Herr2 & Hs2 & _).
    destruct (Hs2 Hskip) as [Hsub2 _].
    apply process_item_inv in Hitem
      as [(_ & _ & -> & ->)|(fsA & cA & Hcopy & Hres)].
    { cbn [incr_error error] in Herr2. lia. }
    apply copy_phase_inv in Hcopy as [(Hex & -> & ->)|(Hex & -> & x & Hx & ->)].
    { unfold path_exists in Hex. rewrite Hfresh in Hex by apply list_elem_of_here.
      done. }
    assert (fs1 = <[as_posix dest := File x]> fs ∧ c1 = incr_copied c) as [-> ->].
    { unfold shrink_large in Hres. rewrite Hskip in Hres.
      destruct Hres as [[[= <-] ->]|[[[=] _]|(e & [=] & _)]]. done. }
    destruct (IH _ _ _ _ Hrest Herr Hnd) as [Hcnt Hall].
    { intros k Hk. rewrite lookup_insert_ne by (intros <-; done).
      apply Hfresh. by apply list_elem_of_further. }
    split; [cbn [incr_copied copied length] in Hcnt |- *; lia|].
    intros o d Hin. apply elem_of_cons in Hin as [[= -> ->]|Hin]; [|by apply Hall].
    exists x. split.
    + eapply lookup_weaken; [|done].
      destruct (decide (as_posix dest = as_posix orig)) as [Heq|Hne].
      * rewrite <- Heq. apply lookup_insert_eq.
      * by rewrite lookup_insert_ne.
    + eapply lookup_weaken; [|done]. apply lookup_insert_eq.
Qed.

(** X19: with [RESIZE_SKIP] set, when the destinations are pairwise
    different and none of them exists before the loop, a run that counts no
    error has copied every item, and at the end every destination holds the
    same content as its source. *)
Theorem copies_hold_source_content slugify USER fs files args plan fs1 fs' c :
  RESIZE_SKIP args = true →
  get_dest_filenames slugify USER fs files args = Ok (plan, fs1) →
  copy_and_resize slugify USER fs files args = Ok (fs', c) →
  error c = 0 →
  NoDup (dest_keys plan) →
  (∀ k, k ∈ dest_keys plan → fs1 !! k = None) →
  copied c = length files ∧
  ∀ o d, (o, d) ∈ plan →
    ∃ x, fs' !! as_posix o = Some (File x) ∧ fs' !! as_posix d = Some (File x).
Proof.
  unfold copy_and_resize. intros Hskip Hplan. rewrite Hplan.
  cbn [mbind result_bind]. intros Hrun Herr Hnd Hfresh.
  destruct (run_items_faithful args plan Hskip _ _ _ _ Hrun Herr Hnd Hfresh)
    as [Hcnt Hall].
  split; [|done]. unfold get_dest_filenames in Hplan.
  apply dest_names_from_length in Hplan. cbn in Hcnt. lia.
Qed.

Lemma copies_hold_source_content_witness :
  copied (mkCounts 0 2 0 []) = length exported_files ∧
  ∀ o d, (o, d) ∈ plan_from slugify_model "u" 1024 0 exported_files →
    ∃ x, copied_fs !! as_posix o = Some (File x) ∧
         copied_fs !! as_posix d = Some (File x).
Proof.
  apply (copies_hold_source_content slugify_model "u" catalog_fs exported_files
           skip_args (plan_from slugify_model "u" 1024 0 exported_files)
           planned_fs).
  - reflexivity.
  - reflexivity.
  - vm_compute. reflexivity.
  - reflexivity.
  - compute_done.
  - apply Forall_forall. repeat constructor.
Defined.

(** ** A run that cannot abort *)



Lemma scalable_dims_ok limit fs : scalable limit fs → dims_ok fs.
Proof. intros Hs k img Hk. destruct (Hs k img Hk) as (? & ? & _). lia. Qed.













(** ** The two switches of [parse_args] *)

(** X21: when [parse_args] accepts the command line, [CLEAR_ALL_PHOTOS]
    is true exactly when [--clear-all] is given, by its name or by a unique
    abbreviation of it, and [RESIZE_SKIP] is true exactly when
    [--resize-skip] is. *)
Theorem switches_follow_the_command_line argv ns :
  parse_args argv = Some ns →
  CLEAR_ALL_PHOTOS ns = supplied ClearAll argv ∧
  RESIZE_SKIP ns = supplied ResizeSkip argv.
Proof.
  intros Hp. unfold parse_args in Hp.
  by apply (parse_argv_stores (length argv)) in Hp as (Ha & Hb & _).
Qed.

Lemma switches_follow_the_command_line_witness :
  parse_args ["--clear"; "--max-pix-count=5"]
    = Some (mkNamespace true false (PyStr "5") (PyInt 1024)) ∧
  true = supplied ClearAll ["--clear"; "--max-pix-count=5"] ∧
  false = supplied ResizeSkip ["--clear"; "--max-pix-count=5"].
Proof.
  split; [reflexivity|].
  exact (switches_follow_the_command_line ["--clear"; "--max-pix-count=5"]
           (mkNamespace true false (PyStr "5") (PyInt 1024)) eq_refl).
Defined.

(** ** [main] and [--clear-all] *)

Lemma rmtree_spec fs p fs' :
  rmtree fs p = Ok fs' →
  fs !! as_posix p = Some Dir ∧
  (∀ k, inside p k → fs' !! k = None) ∧
  (∀ k, ¬ inside p k → fs' !! k = fs !! k).
Proof.
  unfold rmtree. destruct (fs !! as_posix p) as [[|?]|] eqn:Hp; try done.
  intros [= <-]. split; [done|]. split.
  - intros k Hk. apply map_lookup_filter_None. right. intros x _ Hnot.
    by apply Hnot.
  - intros k Hk. destruct (fs !! k) as [x|] eqn:Hx.
    + by apply map_lookup_filter_Some.
    + apply map_lookup_filter_None. by left.
Qed.

(** X22: after a run of [main] with [--clear-all] that returns, every
    path at or below the destination root is the root itself, a bucket
    directory, or the destination computed for a file of the catalog:
    nothing older is left in the tree. *)
Theorem clear_all_leaves_only_this_run
    slugify USER sample out_lines fs argv args files fs' c :
  parse_args argv = Some args → CLEAR_ALL_PHOTOS args = true →
  get_pic_filenames sample out_lines 40000 = Ok files →
  main slugify USER sample out_lines fs argv = Some (Ok (fs', c)) →
  ∀ k, inside (Path_of (DEST_DIR USER)) k → is_Some (fs' !! k) →
    k = as_posix (Path_of (DEST_DIR USER)) ∨
    (fs' !! k = Some Dir ∧ ∃ n, k = as_posix (pic_dir_of USER n)) ∨
    (∃ o n, o ∈ files ∧
            k = as_posix (Path_join (pic_dir_of USER n) (dest_slug slugify o))).
Proof.
  intros Hargs Hclear Hfiles. unfold main. rewrite Hargs, Hclear, Hfiles.
  intros [= Hrun] k Hin Hsome.
  destruct (rmtree fs (Path_of (DEST_DIR USER))) as [fsr|] eqn:Hrm; [|done].
  cbn [mbind result_bind] in Hrun.
  destruct (mkdir fsr (Path_of (DEST_DIR USER))) as [fs0|] eqn:Hmk; [|done].
  cbn [mbind result_bind] in Hrun. unfold copy_and_resize in Hrun.
  destruct (get_dest_filenames slugify USER fs0 files args)
    as [[plan fs1]|] eqn:Hplan; [|done].
  cbn [mbind result_bind] in Hrun. unfold get_dest_filenames in Hplan.
  destruct (dest_names_from_shape _ _ _ _ _ _ _ _ Hplan) as [Hkeys Hshape].
  apply run_items_frame in Hrun as (_ & Hfr & _).
  destruct (decide (k ∈ dest_keys plan)) as [Hdest|Hnot].
  - right. right. unfold dest_keys in Hdest.
    apply list_elem_of_fmap in Hdest as ([o d] & -> & Hod).
    destruct (Hshape _ _ Hod) as (Ho & n & -> & _). by exists o, n.
  - rewrite Hfr in Hsome |- * by done.
    destruct (Hkeys k) as [Hk|Hk]; [|by right; left].
    left. destruct (decide (k = as_posix (Path_of (DEST_DIR USER)))) as [|Hne];
      [done|].
    apply rmtree_spec in Hrm as (_ & Hgone & _).
    unfold mkdir in Hmk. destruct (fsr !! as_posix _); [done|].
    destruct (fsr !! as_posix (parent _)) as [[|?]|]; try done.
    injection Hmk as <-. rewrite Hk, lookup_insert_ne, Hgone in Hsome by done.
    by destruct Hsome.
Qed.

Lemma clear_all_leaves_only_this_run_witness :
  main slugify_model "u" (λ _ _, Raise ValueError) catalog_lines stale_fs
    ["--clear-all"]
  = Some (Ok (refreshed_fs, mkCounts 0 2 0 [Path_of "/p/2022/06/01/a.jpg"])) ∧
  ∀ k, inside (Path_of (DEST_DIR "u")) k → is_Some (refreshed_fs !! k) →
    k = as_posix (Path_of (DEST_DIR "u")) ∨
    (refreshed_fs !! k = Some Dir ∧ ∃ n, k = as_posix (pic_dir_of "u" n)) ∨
    (∃ o n, o ∈ exported_files ∧
            k = as_posix (Path_join (pic_dir_of "u" n) (dest_slug slugify_model o))).
Proof.
  assert (Hrun : main slugify_model "u" (λ _ _, Raise ValueError) catalog_lines
                   stale_fs ["--clear-all"]
                 = Some (Ok (refreshed_fs,
                             mkCounts 0 2 0 [Path_of "/p/2022/06/01/a.jpg"])))
    by (vm_compute; reflexivity).
  split; [exact Hrun|].
  apply (clear_all_leaves_only_this_run slugify_model "u"
           (λ _ _, Raise ValueError) catalog_lines stale_fs ["--clear-all"]
           (mkNamespace true false (PyInt 1900000) (PyInt 1024)) exported_files
           refreshed_fs (mkCounts 0 2 0 [Path_of "/p/2022/06/01/a.jpg"])).
  - reflexivity.
  - reflexivity.
  - reflexivity.
  - exact Hrun.
Defined.


